(** * A shallow embedding of the "surgical scrub" core of [clean_utils.py]

    Numbers are exact rationals ([Q]); numpy float arithmetic is idealised
    as exact arithmetic, except where a division by zero can occur: there
    the results are floats [npf] with numpy's infinities and [nan], or
    masked entries as numpy's masked division makes them.  A numpy masked array is a list of [mq] elements
    (data value and mask bit; [true] = masked).  Python exceptions are the
    [Err] case of the [res] error monad.  Functions of external libraries
    (scipy's [normaltest] and [leastsq], numpy's random draws, the float
    square root and the Fourier twiddle factors) are Section variables. *)

From Stdlib Require Import String Ascii DecimalString.
From Stdlib Require Import QArith Qabs Qminmax List Bool Arith Lia ZArith.
From Stdlib Require Import Sorted.
Import ListNotations.

Open Scope Q_scope.

(** ** Python exceptions and the error monad *)

Inductive pyexc : Type :=
| ValueError
| NameError
| IndexError.

Inductive res (A : Type) : Type :=
| Ok (a : A)
| Err (e : pyexc).
Arguments Ok {A} a.
Arguments Err {A} e.

Definition bind {A B : Type} (m : res A) (k : A -> res B) : res B :=
  match m with
  | Ok a => k a
  | Err e => Err e
  end.

Notation "x <- m ;; k" := (bind m (fun x => k))
  (at level 61, m at next level, right associativity).

(** ** Numeric helpers *)

Definition Qltb (a b : Q) : bool := negb (Qle_bool b a).

Definition Qnat (n : nat) : Q := inject_Z (Z.of_nat n).

Definition sumQ (l : list Q) : Q := fold_right Qplus 0 l.

Fixpoint qpow (x : Q) (j : nat) : Q :=
  match j with
  | O => 1
  | S k => x * qpow x k
  end.

Fixpoint zipw {A B C : Type} (f : A -> B -> C) (l1 : list A) (l2 : list B)
  : list C :=
  match l1, l2 with
  | a :: t1, b :: t2 => f a b :: zipw f t1 t2
  | _, _ => []
  end.

(** Insertion sort (numpy sorts before taking a median). *)
Fixpoint insertQ (x : Q) (l : list Q) : list Q :=
  match l with
  | [] => [x]
  | y :: t => if Qle_bool x y then x :: y :: t else y :: insertQ x t
  end.

Definition sortQ (l : list Q) : list Q := fold_right insertQ [] l.

(** [np.median] of a non-empty list: middle element, or mean of the two
    middle elements for an even count. *)
Definition median_list (l : list Q) : Q :=
  let s := sortQ l in
  let n := length s in
  if Nat.even n
  then (nth (n / 2 - 1) s 0 + nth (n / 2) s 0) / 2
  else nth (n / 2) s 0.

Definition qmean (l : list Q) : Q := sumQ l / Qnat (length l).

(** ** Masked series *)

Record mq : Type := MQ { mval : Q; mmask : bool }.

Definition unmasked (s : list mq) : list Q :=
  map mval (filter (fun e => negb (mmask e)) s).

(** [np.ma.count] *)
Definition count (s : list mq) : nat := length (unmasked s).

Definition masks (s : list mq) : list bool := map mmask s.

(** [np.ma.masked_array(plain)]: nothing masked. *)
Definition plain (l : list Q) : list mq := map (fun v => MQ v false) l.

(** Replace the mask of a series ([ymasked.mask = origmask]). *)
Definition set_masks (s : list mq) (m : list bool) : list mq :=
  zipw (fun e b => MQ (mval e) b) s m.

Definition enum {A : Type} (l : list A) : list (nat * A) :=
  combine (seq 0 (length l)) l.

(** [np.ma.median] and the median absolute deviation of the unmasked
    values. *)
Definition ma_median (s : list mq) : Q := median_list (unmasked s).

Definition ma_mad (s : list mq) : Q :=
  let med := ma_median s in
  median_list (map (fun v => Qabs (v - med)) (unmasked s)).

(** ** [scipy.linalg.lstsq]

    A least-squares solution of [A x = y], computed from the normal
    equations [A^T A x = A^T y] by Gauss-Jordan elimination; a column
    without pivot gets coefficient 0.  For a design matrix of full column
    rank this is the unique least-squares solution that scipy returns. *)

Fixpoint find_pivot (c : nat) (rows : list (list Q))
  : option (list Q * list (list Q)) :=
  match rows with
  | [] => None
  | r :: t =>
      if Qeq_bool (nth c r 0) 0
      then match find_pivot c t with
           | None => None
           | Some (p, rest) => Some (p, r :: rest)
           end
      else Some (r, t)
  end.

Definition eliminate (c : nat) (p r : list Q) : list Q :=
  let f := nth c r 0 in zipw (fun a b => a - f * b) r p.

Fixpoint gauss_jordan (cols : list nat) (done : list (nat * list Q))
    (rest : list (list Q)) : list (nat * list Q) :=
  match cols with
  | [] => done
  | c :: cs =>
      match find_pivot c rest with
      | None => gauss_jordan cs done rest
      | Some (p, rest') =>
          let p' := map (fun a => a / nth c p 0) p in
          gauss_jordan cs
            (map (fun kr => (fst kr, eliminate c p' (snd kr))) done
               ++ [(c, p')])
            (map (eliminate c p') rest')
      end
  end.

Definition solve_normal (k : nat) (aug : list (list Q)) : list Q :=
  let piv := gauss_jordan (seq 0 k) [] aug in
  map (fun j =>
         match find (fun kr => Nat.eqb (fst kr) j) piv with
         | Some (_, r) => nth k r 0
         | None => 0
         end) (seq 0 k).

(** Row [x ** arange(order+1)] of the design matrix ([0 ** 0 = 1]). *)
Definition poly_row (order x : nat) : list Q :=
  map (fun j => qpow (Qnat x) j) (seq 0 (S order)).

Definition lstsq_poly (order : nat) (pts : list (nat * Q)) : list Q :=
  let rows := map (fun xy => (poly_row order (fst xy), snd xy)) pts in
  let aug :=
    map (fun a =>
           map (fun b => sumQ (map (fun ry => nth a (fst ry) 0 * nth b (fst ry) 0) rows))
               (seq 0 (S order))
           ++ [sumQ (map (fun ry => nth a (fst ry) 0 * snd ry) rows)])
        (seq 0 (S order)) in
  solve_normal (S order) aug.

(** [np.dot(A, x)] for one row of the full design matrix. *)
Definition poly_eval (order : nat) (c : list Q) (x : nat) : Q :=
  sumQ (zipw Qmult (poly_row order x) c).

(** ** [detrend] *)

(** [np.round(k*n/p)] with round-half-to-even. *)
Definition round_div (a p : nat) : nat :=
  let q := (a / p)%nat in
  let r := (a mod p)%nat in
  if (2 * r <? p)%nat then q
  else if (p <? 2 * r)%nat then S q
  else if Nat.even q then q else S q.

(** [edges]: [[0]+bp+[len(ydata)]], or the rounded [linspace] when
    [numpieces] is given. *)
Definition edges_of (n : nat) (bp : list nat) (numpieces : option nat)
  : list nat :=
  match numpieces with
  | None => 0%nat :: bp ++ [n]
  | Some p => map (fun k => round_div (k * n) p) (seq 0 (S p))
  end.

Definition in_seg (start stop i : nat) : bool :=
  (start <=? i)%nat && (i <? stop)%nat.

(** [(index, value)] of the unmasked points of [ymasked[start:stop]]. *)
Definition seg_points (ys : list mq) (start stop : nat) : list (nat * Q) :=
  map (fun ie => (fst ie, mval (snd ie)))
      (filter (fun ie => in_seg start stop (fst ie) && negb (mmask (snd ie)))
              (enum ys)).

(** One pass of the segment loop: fit on the unmasked points of the
    input [ys], subtract the fit from every point of the segment of the
    accumulator [d].  A segment without unmasked point is skipped; a
    segment running past the end makes [A.shape = ...] raise. *)
Definition detrend_segment (ys : list mq) (order : nat) (d : list mq)
    (seg : nat * nat) : res (list mq) :=
  let '(start, stop) := seg in
  let pts := seg_points ys start stop in
  if Nat.eqb (length pts) 0 then Ok d
  else if (length ys <? stop)%nat then Err ValueError
  else
    let c := lstsq_poly order pts in
    Ok (map (fun ie =>
               if in_seg start stop (fst ie)
               then MQ (mval (snd ie) - poly_eval order c (fst ie)) (mmask (snd ie))
               else snd ie) (enum d)).

Definition detrend (ys : list mq) (order : nat) (bp : list nat)
    (numpieces : option nat) : res (list mq) :=
  let edges := edges_of (length ys) bp numpieces in
  fold_left (fun acc seg => d <- acc ;; detrend_segment ys order d seg)
            (combine edges (tl edges)) (Ok ys).

(** Normalised data values, to compare computed series. *)
Definition rvals (r : res (list mq)) : res (list (Q * bool)) :=
  s <- r ;; Ok (map (fun e => (Qred (mval e), mmask e)) s).

(** ** [iterative_detrend] *)

Section IterativeDetrend.

Variable thresh : Q.
Variable order : nat.
Variable bp : list nat.
Variable numpieces : option nat.

(** [np.ma.masked_where(cond, detrended)]: the new mask is the old mask
    or'ed with the outlier condition. *)
Definition mask_outliers (d : list mq) : list mq :=
  let med := ma_median d in
  let mad := ma_mad d in
  map (fun e =>
         MQ (mval e)
            (mmask e || Qltb (mval e) (med - thresh * mad)
                     || Qltb (med + thresh * mad) (mval e))) d.

(** One pass of the [while] body: detrend, then mask the outliers. *)
Definition itd_step (ym : list mq) : res (list mq) :=
  d <- detrend ym order bp numpieces ;; Ok (mask_outliers d).

(** The [while ymasked.count()] loop.  Every pass that does not [break]
    masks at least one more point, so [length ym + 1] passes suffice;
    the [fuel] bound is never the reason the loop stops in
    [iterative_detrend]. *)
Fixpoint itd_loop (fuel : nat) (ym : list mq) : res (list mq) :=
  match fuel with
  | O => Ok ym
  | S f =>
      if Nat.eqb (count ym) 0 then Ok ym
      else
        d <- itd_step ym ;;
        if list_eq_dec bool_dec (masks d) (masks ym) then Ok d
        else itd_loop f d
  end.

(** The successive values of [ymasked.mask] in the loop: the mask on
    entry, then the mask after each pass. *)
Fixpoint itd_mask_history (fuel : nat) (ym : list mq) : list (list bool) :=
  masks ym ::
  match fuel with
  | O => []
  | S f =>
      if Nat.eqb (count ym) 0 then []
      else
        match itd_step ym with
        | Err _ => []
        | Ok d =>
            if list_eq_dec bool_dec (masks d) (masks ym) then [masks d]
            else itd_mask_history f d
        end
  end.

(** The pre-loop masking of the source assigns [detrended], which the
    first pass overwrites before reading it; it has no effect. *)
Definition iterative_detrend_gen (reset_mask : bool) (ys : list mq)
  : res (list mq) :=
  let origmask := masks ys in
  if Nat.eqb (count ys) 0 then Ok ys
  else
    r <- itd_loop (S (length ys)) ys ;;
    Ok (if reset_mask then set_masks r origmask else r).

End IterativeDetrend.

(** [iterative_detrend(ydata, order=..., bp=..., numpieces=...)] as the
    scalers call it: [thresh=5], [reset_mask=True]. *)
Definition iterative_detrend (order : nat) (bp : list nat)
    (numpieces : option nat) (ys : list mq) : res (list mq) :=
  iterative_detrend_gen 5 order bp numpieces true ys.

(** ** Axis scalers *)

(** One entry of [zip(cfg.X_order, cfg.X_breakpoints, cfg.X_numpieces)]. *)
Record detrend_cfg : Type := DCfg {
  d_order : nat;
  d_bp : list nat;
  d_numpieces : option nat
}.

Definition itd_cfg (c : detrend_cfg) : list mq -> res (list mq) :=
  iterative_detrend (d_order c) (d_bp c) (d_numpieces c).

(** [(detrended - median) / mad], data values, in exact arithmetic, where
    [Q]'s division makes [x / 0 = 0].  This is numpy's result whenever the
    MAD is not 0; [channel_scaler] and [subint_scaler] below use it for the
    structure of the chains.  numpy's own results at a zero MAD (floats
    [inf] and [nan], or masked entries keeping the undivided data) are
    modelled by [channel_scaler_np] and [subint_scaler_np]. *)
Definition scale_slice (d : list mq) : list Q :=
  let med := ma_median d in
  let mad := ma_mad d in
  map (fun e => (mval e - med) / mad) d.

Definition column (m : list (list Q)) (j : nat) : list Q :=
  map (fun r => nth j r 0) m.

(** Rebuild the rows of a matrix from its columns. *)
Definition of_columns (nrows : nat) (cols : list (list Q)) : list (list Q) :=
  map (fun i => map (fun col => nth i col 0) cols) (seq 0 nrows).

Fixpoint mapM {A B : Type} (f : A -> res B) (l : list A) : res (list B) :=
  match l with
  | [] => Ok []
  | x :: t => y <- f x ;; ys <- mapM f t ;; Ok (y :: ys)
  end.

(** [channel_scaler]: the chain is applied successively, each output
    feeding the next call. *)
Definition channel_chain (chain : list detrend_cfg) (s : list mq)
  : res (list mq) :=
  fold_left (fun acc c => detrended <- acc ;; itd_cfg c detrended)
            chain (Ok s).

Definition channel_scaler (chain : list detrend_cfg) (m : list (list Q))
  : res (list (list Q)) :=
  let nchans := length (hd [] m) in
  cols <- mapM (fun ichan =>
                  detrended <- channel_chain chain (plain (column m ichan)) ;;
                  Ok (scale_slice detrended))
               (seq 0 nchans) ;;
  Ok (of_columns (length m) cols).

(** [subint_scaler]: every call of the loop is made on [array2d[isub,:]],
    the row itself, and overwrites [detrended]. *)
Definition subint_chain (chain : list detrend_cfg) (s : list mq)
  : res (list mq) :=
  fold_left (fun acc c => _ <- acc ;; itd_cfg c s) chain (Ok s).

Definition subint_scaler (chain : list detrend_cfg) (m : list (list Q))
  : res (list (list Q)) :=
  mapM (fun row =>
          detrended <- subint_chain chain (plain row) ;;
          Ok (scale_slice detrended)) m.

(** The Axis Scaler as the spec words it: the chain applied successively,
    each [iterative_detrend] output the input of the next, then
    [(value - median) / MAD] of the final slice. *)
Fixpoint chain_successive (chain : list detrend_cfg) (s : list mq)
  : res (list mq) :=
  match chain with
  | [] => Ok s
  | c :: cs => d <- itd_cfg c s ;; chain_successive cs d
  end.

Definition scale_along_axis_spec (chain : list detrend_cfg) (slice : list Q)
  : res (list Q) :=
  d <- chain_successive chain (plain slice) ;; Ok (scale_slice d).

(** ** [get_hot_bins] *)

Inductive hot_result : Type :=
| HotBins (bins : list nat) (status : nat)   (* [return (indices, status)] *)
| HotNone.                                   (* falls off the end: [None] *)

(** [np.argmax] / [np.argmin] of a masked array: first index of the
    extreme unmasked value ([acc] holds the best index and value so far,
    [i] the index of the head of [s]). *)
Fixpoint arg_extreme_from (better : Q -> Q -> bool) (i : nat) (s : list mq)
    (acc : option (nat * Q)) : option (nat * Q) :=
  match s with
  | [] => acc
  | e :: t =>
      let acc' :=
        if mmask e then acc
        else match acc with
             | None => Some (i, mval e)
             | Some (_, v) => if better (mval e) v then Some (i, mval e) else acc
             end in
      arg_extreme_from better (S i) t acc'
  end.

Definition ma_arg_extreme (better : Q -> Q -> bool) (s : list mq) : nat :=
  match arg_extreme_from better 0 s None with
  | Some (j, _) => j
  | None => 0%nat
  end.

Definition ma_argmax (s : list mq) : nat := ma_arg_extreme (fun a b => Qltb b a) s.
Definition ma_argmin (s : list mq) : nat := ma_arg_extreme (fun a b => Qltb a b) s.

(** [masked_data.mask[j] = b]; [j] is always an index of the array. *)
Fixpoint set_mask_at (j : nat) (b : bool) (s : list mq) : list mq :=
  match s, j with
  | [], _ => []
  | e :: t, O => MQ (mval e) b :: t
  | e :: t, S k => e :: set_mask_at k b t
  end.

(** [np.flatnonzero(masked_data.mask)] *)
Definition flatnonzero_mask (s : list mq) : list nat :=
  map fst (filter (fun ie => mmask (snd ie)) (enum s)).

Section HotBins.

(** [scipy.stats.normaltest(values)[0]]: the omnibus K^2 statistic of
    scipy, an external function of the values it is given. *)
Variable normaltest : list Q -> Q.
(** [np.median(masked_data)]; numpy releases differ on whether [np.median]
    honours the mask, so it is left abstract. *)
Variable np_median : list mq -> Q.
Variable normstat_thresh : Q.
Variable max_num_hot : option nat.
Variable only_decreasing : bool.

(** The [while masked_data.count()] loop.  Besides the result, it returns
    the list of the value arrays [masked_data.compressed()] handed to
    [normaltest], in call order.  Each pass masks one more bin, so
    [len(data) + 1] passes reach the exit of the loop. *)
Fixpoint hot_loop (fuel : nat) (md : list mq) (prev_stat : Q)
  : res hot_result * list (list Q) :=
  match fuel with
  | O => (Ok HotNone, [])
  | S f =>
      if Nat.eqb (count md) 0 then (Ok HotNone, [])
      else if Qltb prev_stat normstat_thresh
      then (Ok (HotBins (flatnonzero_mask md) 0), [])
      else match max_num_hot with
      | Some _ =>
          (* [len(hot_bins)]: the name [hot_bins] is never bound *)
          (Err NameError, [])
      | None =>
          let imax := ma_argmax md in
          let imin := ma_argmin md in
          let median := np_median md in
          let median_to_max := mval (nth imax md (MQ 0 true)) - median in
          let median_to_min := median - mval (nth imin md (MQ 0 true)) in
          let to_mask := if Qltb median_to_min median_to_max then imax else imin in
          let md' := set_mask_at to_mask true md in
          let curr_stat := normaltest (unmasked md') in
          if only_decreasing && Qltb prev_stat curr_stat
          then (Ok (HotBins (flatnonzero_mask md) 1), [unmasked md'])
          else let (r, t) := hot_loop f md' curr_stat in (r, unmasked md' :: t)
      end
  end.

Definition get_hot_bins (data : list Q) : res hot_result * list (list Q) :=
  let md := plain data in
  let prev_stat := normaltest (unmasked md) in
  let (r, t) := hot_loop (S (length data)) md prev_stat in
  (r, unmasked md :: t).

End HotBins.

(** ** Profile removal *)

(** A data cube [(isub, ichan) -> profile] and a single-polarisation
    archive: its dimensions, per-cell amplitudes and weights. *)
Definition cube : Type := nat -> nat -> list Q.

Record archive1 : Type := Archive1 {
  ar_nsubint : nat;
  ar_nchan : nat;
  ar_nbin : nat;
  ar_amps : nat -> nat -> list Q;
  ar_weight : nat -> nat -> Q
}.

(** A value of [data[isub, ichan]]: a float or a 1-D array. *)
Inductive npval : Type :=
| Scalar (q : Q)
| Vec (l : list Q).

(** [data[isub, ichan]] of [data = ar.get_data().squeeze()].  [get_data()]
    has shape [(nsubint, 1, nchan, nbin)] and [squeeze()] drops every axis
    of length 1, so [data] has the non-unit axes among the three. *)
Definition squeezed_index (ar : archive1) (isub ichan : nat) : res npval :=
  let ns := ar_nsubint ar in
  let nc := ar_nchan ar in
  let nb := ar_nbin ar in
  match Nat.eqb ns 1, Nat.eqb nc 1, Nat.eqb nb 1 with
  | false, false, false =>      (* shape (nsubint, nchan, nbin) *)
      if Nat.ltb isub ns && Nat.ltb ichan nc
      then Ok (Vec (ar_amps ar isub ichan)) else Err IndexError
  | false, false, true =>       (* shape (nsubint, nchan) *)
      if Nat.ltb isub ns && Nat.ltb ichan nc
      then Ok (Scalar (nth 0 (ar_amps ar isub ichan) 0)) else Err IndexError
  | true, false, false =>       (* shape (nchan, nbin) *)
      if Nat.ltb isub nc && Nat.ltb ichan nb
      then Ok (Scalar (nth ichan (ar_amps ar 0 isub) 0)) else Err IndexError
  | false, true, false =>       (* shape (nsubint, nbin) *)
      if Nat.ltb isub ns && Nat.ltb ichan nb
      then Ok (Scalar (nth ichan (ar_amps ar isub 0) 0)) else Err IndexError
  | _, _, _ => Err IndexError   (* fewer than two axes: too many indices *)
  end.

Definition upd_cell {A : Type} (f : nat -> nat -> A) (i j : nat) (v : A)
  : nat -> nat -> A :=
  fun i' j' => if Nat.eqb i' i && Nat.eqb j' j then v else f i' j'.

(** [np.ndindex(nsubs, nchans)] *)
Definition ndindex (nsubs nchans : nat) : list (nat * nat) :=
  flat_map (fun i => map (fun j => (i, j)) (seq 0 nchans)) (seq 0 nsubs).

Definition fit_ok (status : Z) : bool :=
  existsb (Z.eqb status) [1; 2; 3; 4]%Z.

Section ProfileFit.

(** [scipy.optimize.leastsq(err, [1])] for [err = amp*template - prof]:
    fitted amplitude and MINPACK status, a function of [prof] and
    [template]. *)
Variable leastsq : list Q -> list Q -> Q * Z.

Definition remove_profile1d (prof : list Q) (isub ichan : nat)
    (template : list Q) : (nat * nat) * list Q :=
  let '(amp, status) := leastsq prof template in
  if fit_ok status
  then ((isub, ichan), zipw (fun t p => amp * t - p) template prof)
  else ((isub, ichan), map (fun _ => 0) prof).

Definition remove_profile1d_inplace (prof : list Q) (isub ichan : nat)
    (template : list Q) : (nat * nat) * option (list Q) :=
  let '(amp, status) := leastsq prof template in
  if fit_ok status
  then ((isub, ichan), Some (zipw (fun t p => amp * t - p) template prof))
  else ((isub, ichan), None).

(** [template] and [prof] of [err = amp*template - prof] after numpy's
    broadcasting; arrays of different lengths, neither of length 1, raise
    [ValueError]. *)
Definition broadcast2 (template : list Q) (prof : npval) : res (list Q * list Q) :=
  match prof with
  | Scalar s => Ok (template, repeat s (length template))
  | Vec p =>
      if Nat.eqb (length template) (length p) then Ok (template, p)
      else if Nat.eqb (length p) 1 then Ok (template, repeat (hd 0 p) (length template))
      else if Nat.eqb (length template) 1 then Ok (repeat (hd 0 template) (length p), p)
      else Err ValueError
  end.

(** [np.zeros_like(prof)] *)
Definition zeros_like (prof : npval) : npval :=
  match prof with
  | Scalar _ => Scalar 0
  | Vec p => Vec (map (fun _ => 0) p)
  end.

(** [remove_profile1d] on a value of the squeezed archive data: [leastsq]
    evaluates [err] first, which raises on shapes that do not broadcast. *)
Definition remove_profile1d_nd (prof : npval) (isub ichan : nat)
    (template : list Q) : res ((nat * nat) * npval) :=
  tp <- broadcast2 template prof ;;
  let '(amp, status) := leastsq (snd tp) (fst tp) in
  if fit_ok status
  then Ok ((isub, ichan), Vec (zipw (fun t p => amp * t - p) (fst tp) (snd tp)))
  else Ok ((isub, ichan), zeros_like prof).

(** Single-threaded branch: cells updated one after the other, each
    reading the current cube.  [remove_profile] and its two branches take
    profiles of the template's length, and [nthreads >= 1]; see
    [remove_profile_call] for [nthreads = 0]. *)
Definition remove_profile_serial (data : cube) (nsubs nchans : nat)
    (template : list Q) : cube :=
  fold_left (fun d ij =>
               upd_cell d (fst ij) (snd ij)
                        (snd (remove_profile1d (d (fst ij) (snd ij)) (fst ij) (snd ij) template)))
            (ndindex nsubs nchans) data.

(** Pool branch: every task gets its cell of the cube as it was when the
    tasks were submitted; the results are written back after [join]. *)
Definition remove_profile_pool (data : cube) (nsubs nchans : nat)
    (template : list Q) : cube :=
  let results :=
    map (fun ij => remove_profile1d (data (fst ij) (snd ij)) (fst ij) (snd ij) template)
        (ndindex nsubs nchans) in
  fold_left (fun d r => upd_cell d (fst (fst r)) (snd (fst r)) (snd r)) results data.

Definition remove_profile (data : cube) (nsubs nchans : nat)
    (template : list Q) (nthreads : nat) : cube :=
  if Nat.eqb nthreads 1 then remove_profile_serial data nsubs nchans template
  else remove_profile_pool data nsubs nchans template.

(** [remove_profile(data, nsubs, nchans, template, nthreads)] as called:
    [multiprocessing.Pool(processes=0)] raises [ValueError]. *)
Definition remove_profile_call (data : cube) (nsubs nchans : nat)
    (template : list Q) (nthreads : nat) : res cube :=
  if Nat.eqb nthreads 0 then Err ValueError
  else Ok (remove_profile data nsubs nchans template nthreads).

(** [prof.get_amps()[:] = amps]: the [nbin] amplitudes receive [amps]
    broadcast to their length. *)
Definition assign_amps (nbin : nat) (v : npval) : res (list Q) :=
  match v with
  | Scalar q => Ok (repeat q nbin)
  | Vec l =>
      if Nat.eqb (length l) nbin then Ok l
      else if Nat.eqb (length l) 1 then Ok (repeat (hd 0 l) nbin)
      else Err ValueError
  end.

(** [amps is None ? prof.set_weight(0) : prof.get_amps()[:] = amps] on the
    profile [(isub, 0, ichan)]. *)
Definition apply_amps (ar : archive1) (isub ichan : nat) (amps : option npval)
  : res unit * archive1 :=
  match amps with
  | None => (Ok tt, Archive1 (ar_nsubint ar) (ar_nchan ar) (ar_nbin ar) (ar_amps ar)
                             (upd_cell (ar_weight ar) isub ichan 0))
  | Some v =>
      match assign_amps (ar_nbin ar) v with
      | Ok l => (Ok tt, Archive1 (ar_nsubint ar) (ar_nchan ar) (ar_nbin ar)
                                 (upd_cell (ar_amps ar) isub ichan l) (ar_weight ar))
      | Err e => (Err e, ar)
      end
  end.

(** The task of one cell: [remove_profile1d(data[isub, ichan], isub, ichan,
    template)] on the squeezed copy [data] of the archive. *)
Definition inplace_cell (ar : archive1) (template : list Q) (ij : nat * nat)
  : res ((nat * nat) * npval) :=
  prof <- squeezed_index ar (fst ij) (snd ij) ;;
  remove_profile1d_nd prof (fst ij) (snd ij) template.

(** One write of the pool branch's result loop; a raised exception stops
    the loop, the archive keeping the writes made before it. *)
Definition write_result (st : res unit * archive1) (r : res ((nat * nat) * npval))
  : res unit * archive1 :=
  match st with
  | (Err e, a) => (Err e, a)
  | (Ok _, a) =>
      match r with
      | Err e => (Err e, a)
      | Ok r' => apply_amps a (fst (fst r')) (snd (fst r')) (Some (snd r'))
      end
  end.

(** [remove_profile_inplace(ar, template, nthreads)]: the outcome and the
    archive.  Both branches call [remove_profile1d], whose result is an
    array, never [None].  [data] is a copy, so the tasks read the original
    amplitudes.  The pool branch evaluates every [data[isub, ichan]] when
    it submits the tasks, and re-raises a task's exception at its
    [result.get()]. *)
Definition remove_profile_inplace (ar : archive1) (template : list Q)
    (nthreads : nat) : res unit * archive1 :=
  let cells := ndindex (ar_nsubint ar) (ar_nchan ar) in
  if Nat.eqb nthreads 1
  then fold_left (fun st ij =>
                    match st with
                    | (Err e, a) => (Err e, a)
                    | (Ok _, a) =>
                        match inplace_cell ar template ij with
                        | Err e => (Err e, a)
                        | Ok r => apply_amps a (fst ij) (snd ij) (Some (snd r))
                        end
                    end)
                 cells (Ok tt, ar)
  else if Nat.eqb nthreads 0 then (Err ValueError, ar)
  else
    match mapM (fun ij => squeezed_index ar (fst ij) (snd ij)) cells with
    | Err e => (Err e, ar)
    | Ok profs =>
        let results :=
          zipw (fun ij prof => remove_profile1d_nd prof (fst ij) (snd ij) template)
               cells profs in
        fold_left write_result results (Ok tt, ar)
    end.

End ProfileFit.

(** ** [clean_subint] *)

Record profile : Type := Prof { weight : Q; amps : list Q }.

(** An archive: dimensions and the profile of every
    [(isub, ichan, ipol)]; each profile holds [nbin] amplitudes. *)
Record archive : Type := Archive {
  nsubint : nat;
  nchan : nat;
  npol : nat;
  nbin : nat;
  prof_at : nat -> nat -> nat -> profile
}.

Definition set_prof (ar : archive) (s c p : nat) (pr : profile) : archive :=
  Archive (nsubint ar) (nchan ar) (npol ar) (nbin ar)
          (fun s' c' p' =>
             if Nat.eqb s' s && Nat.eqb c' c && Nat.eqb p' p then pr
             else prof_at ar s' c' p').

Fixpoint set_nth (i : nat) (v : Q) (l : list Q) : list Q :=
  match l, i with
  | [], _ => []
  | _ :: t, O => v :: t
  | x :: t, S k => x :: set_nth k v t
  end.

(** [for ii, newval in zip(bins, noise): data[ii] = newval]; every [ii]
    is below [nbin], checked by [mask[bins] = 1]. *)
Definition write_bins (a : list Q) (bins : list nat) (noise : list Q)
  : list Q :=
  fold_left (fun acc iv => set_nth (fst iv) (snd iv) acc) (combine bins noise) a.

Section CleanSubint.

(** The state of numpy's random generator. *)
Variable rng : Type.
(** [scipy.stats.norm.rvs(loc=mean, scale=std, size=k)]: [k] draws and
    the next generator state. *)
Variable norm_rvs : rng -> Q -> Q -> nat -> list Q * rng.
(** The float square root used by [std]. *)
Variable fsqrt : Q -> Q.

(** [mask = np.zeros(nbins); mask[bins] = 1]: an index past the end
    raises. *)
Definition bin_mask (nbins : nat) (bins : list nat) : res (list bool) :=
  if forallb (fun b => (b <? nbins)%nat) bins
  then Ok (map (fun i => existsb (Nat.eqb i) bins) (seq 0 nbins))
  else Err IndexError.

(** The body for one profile: [if prof.get_weight(): ...].  A profile
    whose length is not [nbins] makes [np.ma.array(data, mask=mask)]
    raise. *)
Definition clean_profile (mask : list bool) (bins : list nat) (pr : profile)
    (g : rng) : res profile * rng :=
  if Qeq_bool (weight pr) 0 then (Ok pr, g)
  else if negb (Nat.eqb (length (amps pr)) (length mask)) then (Err ValueError, g)
  else
    let vals := unmasked (zipw MQ (amps pr) mask) in
    let mean := qmean vals in
    let std := fsqrt (qmean (map (fun v => (v - mean) * (v - mean)) vals)) in
    let '(noise, g') := norm_rvs g mean std (length bins) in
    (Ok (Prof (weight pr) (write_bins (amps pr) bins noise)), g').

(** [clean_subint(ar, isub, bins)]: the archive is updated in place, so a
    raised exception keeps the updates made before it. *)
Definition clean_subint (ar : archive) (isub : nat) (bins : list nat) (g : rng)
  : res unit * (archive * rng) :=
  match bin_mask (nbin ar) bins with
  | Err e => (Err e, (ar, g))
  | Ok mask =>
      if (nsubint ar <=? isub)%nat then (Err IndexError, (ar, g))
      else
        fold_left
          (fun st cp =>
             match st with
             | (Err e, s) => (Err e, s)
             | (Ok _, (a, g0)) =>
                 let '(ichan, ipol) := cp in
                 match clean_profile mask bins (prof_at a isub ichan ipol) g0 with
                 | (Ok pr', g1) => (Ok tt, (set_prof a isub ichan ipol pr', g1))
                 | (Err e, g1) => (Err e, (a, g1))
                 end
             end)
          (flat_map (fun c => map (fun p => (c, p)) (seq 0 (npol ar))) (seq 0 (nchan ar)))
          (Ok tt, (ar, g))
  end.

End CleanSubint.

(** ** [comprehensive_stats] *)

(** [np.max] of a non-empty list. *)
Definition max_list (l : list Q) : Q := fold_left Qmax (tl l) (hd 0 l).
Definition min_list (l : list Q) : Q := fold_left Qmin (tl l) (hd 0 l).

(** [np.ptp] *)
Definition np_ptp (l : list Q) : Q := max_list l - min_list l.

(** *** numpy floats at a division by zero

    The scalers divide by the MAD of a slice, which can be 0.  On a plain
    [np.ndarray] numpy's float division then gives [inf], [-inf] or [nan];
    on a masked array numpy's domained division masks the entry and keeps
    its undivided data.  [npf] is a float of the scaled arrays. *)
Inductive npf : Type :=
| Fin (q : Q)
| Inf (neg : bool)      (* [-inf] when [neg] *)
| NaN.

(** Float division [a / b] of two finite values: [b = 0] gives [nan] for
    [a = 0] and an infinity of the sign of [a] otherwise. *)
Definition fdiv (a b : Q) : npf :=
  if Qeq_bool b 0 then (if Qeq_bool a 0 then NaN else Inf (Qltb a 0))
  else Fin (a / b).

(** [np.abs] of a float. *)
Definition fabs (x : npf) : npf :=
  match x with
  | Fin q => Fin (Qabs q)
  | Inf _ => Inf false
  | NaN => NaN
  end.

(** [x / t] of a float by a finite threshold [t]. *)
Definition fdivq (x : npf) (t : Q) : npf :=
  match x with
  | Fin q => fdiv q t
  | Inf s => Inf (xorb s (Qltb t 0))
  | NaN => NaN
  end.

(** [x <= y] of two floats that are not [nan]. *)
Definition fle (x y : npf) : bool :=
  match x, y with
  | Inf true, _ => true
  | _, Inf false => true
  | Fin a, Fin b => Qle_bool a b
  | _, _ => false
  end.

(** [np.maximum]: [nan] wins. *)
Definition fmax (x y : npf) : npf :=
  match x, y with
  | NaN, _ => NaN
  | _, NaN => NaN
  | _, _ => if fle x y then y else x
  end.

Definition fadd (x y : npf) : npf :=
  match x, y with
  | Fin a, Fin b => Fin (a + b)
  | Inf s, Fin _ => Inf s
  | Fin _, Inf s => Inf s
  | Inf s, Inf s' => if Bool.eqb s s' then Inf s else NaN
  | _, _ => NaN
  end.

Definition fhalf (x : npf) : npf :=
  match x with
  | Fin q => Fin (q / 2)
  | _ => x
  end.

Definition is_nan (x : npf) : bool :=
  match x with
  | NaN => true
  | _ => false
  end.

Fixpoint insertF (x : npf) (l : list npf) : list npf :=
  match l with
  | [] => [x]
  | y :: t => if fle x y then x :: y :: t else y :: insertF x t
  end.

Definition sortF (l : list npf) : list npf := fold_right insertF [] l.

(** [np.median] of floats: [nan] if any value is [nan]; otherwise the
    middle value, or the mean of the two middle ones. *)
Definition np_median_f (l : list npf) : npf :=
  if existsb is_nan l then NaN
  else
    let s := sortF l in
    let n := length s in
    if Nat.even n then fhalf (fadd (nth (n / 2 - 1) s NaN) (nth (n / 2) s NaN))
    else nth (n / 2) s NaN.

(** The smallest positive normal double, [np.finfo(float).tiny]. *)
Definition tiny : Q := Qmake 1 (Pos.pow 2 1022).

(** [_DomainSafeDivide]: [a / b] is outside the domain where
    [|a| * tiny >= |b|]. *)
Definition safe_div_domain (a b : Q) : bool :=
  Qle_bool (Qabs b) (Qabs a * tiny).

(** [a / b] of a masked entry by an unmasked scalar: masked where [a] is
    or where [b] is outside the domain; a masked result keeps the data of
    [a]. *)
Definition ma_div (e : mq) (b : Q) : mq :=
  let m := mmask e || safe_div_domain (mval e) b in
  MQ (if m then mval e else mval e / b) m.

(** [a - c] of a masked entry and a scalar: a masked entry keeps its data. *)
Definition ma_sub (e : mq) (c : Q) : mq :=
  MQ (if mmask e then mval e else mval e - c) (mmask e).

(** [(detrended - median) / mad] of a masked slice. *)
Definition scale_slice_ma (d : list mq) : list mq :=
  let med := ma_median d in
  let mad := ma_mad d in
  map (fun e => ma_div (ma_sub e med) mad) d.

(** [(detrended - median) / mad] of a plain slice. *)
Definition scale_slice_fl (d : list mq) : list npf :=
  let med := ma_median d in
  let mad := ma_mad d in
  map (fun e => fdiv (mval e - med) mad) d.

(** A 2-D array: a plain [np.ndarray] of floats, or a masked array. *)
Inductive arr2 : Type :=
| Plain2 (rows : list (list npf))
| Masked2 (rows : list (list mq)).

(** A scaled slice written into [scaled = np.empty_like(array2d)] for a
    plain [array2d].  With an empty chain [detrended] is the plain slice;
    otherwise [iterative_detrend] returns a masked array, and the
    assignment keeps its data. *)
Definition scaled_plain (chain : list detrend_cfg) (d : list mq) : list npf :=
  match chain with
  | [] => scale_slice_fl d
  | _ :: _ => map (fun e => Fin (mval e)) (scale_slice_ma d)
  end.

Definition of_columns_with {A : Type} (dflt : A) (nrows : nat)
    (cols : list (list A)) : list (list A) :=
  map (fun i => map (fun col => nth i col dflt) cols) (seq 0 nrows).

(** [channel_scaler] with numpy's division; [is_ma] tells whether
    [array2d] is a masked array. *)
Definition channel_scaler_np (is_ma : bool) (chain : list detrend_cfg)
    (m : list (list Q)) : res arr2 :=
  let nchans := length (hd [] m) in
  if is_ma then
    cols <- mapM (fun ichan =>
                    detrended <- channel_chain chain (plain (column m ichan)) ;;
                    Ok (scale_slice_ma detrended))
                 (seq 0 nchans) ;;
    Ok (Masked2 (of_columns_with (MQ 0 false) (length m) cols))
  else
    cols <- mapM (fun ichan =>
                    detrended <- channel_chain chain (plain (column m ichan)) ;;
                    Ok (scaled_plain chain detrended))
                 (seq 0 nchans) ;;
    Ok (Plain2 (of_columns_with NaN (length m) cols)).

(** [subint_scaler] with numpy's division. *)
Definition subint_scaler_np (is_ma : bool) (chain : list detrend_cfg)
    (m : list (list Q)) : res arr2 :=
  if is_ma then
    rows <- mapM (fun row =>
                    detrended <- subint_chain chain (plain row) ;;
                    Ok (scale_slice_ma detrended)) m ;;
    Ok (Masked2 rows)
  else
    rows <- mapM (fun row =>
                    detrended <- subint_chain chain (plain row) ;;
                    Ok (scaled_plain chain detrended)) m ;;
    Ok (Plain2 rows).

(** [np.abs(scaled) / thresh]: [np.abs] of a masked array takes the
    absolute value of all its data and keeps its mask. *)
Definition abs_div_thresh (t : Q) (a : arr2) : arr2 :=
  match a with
  | Plain2 rows => Plain2 (map (map (fun x => fdivq (fabs x) t)) rows)
  | Masked2 rows =>
      Masked2 (map (map (fun e => ma_div (MQ (Qabs (mval e)) (mmask e)) t)) rows)
  end.

(** The data of an array: [np.max] of a tuple of arrays converts it to a
    plain array, dropping the masks. *)
Definition arr_data (a : arr2) : list (list npf) :=
  match a with
  | Plain2 rows => rows
  | Masked2 rows => map (map (fun e => Fin (mval e))) rows
  end.

(** [np.max((chan_scaled, subint_scaled), axis=0)]. *)
Definition np_max2 (cs ss : arr2) : list (list npf) :=
  zipw (zipw fmax) (arr_data cs) (arr_data ss).

(** [np.median(scaled_diagnostics, axis=0)] of matrices of equal shape. *)
Definition median_stack_f (ms : list (list (list npf))) : list (list npf) :=
  let shape := hd [] ms in
  map (fun ir =>
         map (fun jv => np_median_f (map (fun m => nth (fst jv) (nth (fst ir) m []) NaN) ms))
             (enum (snd ir)))
      (enum shape).

Section Diagnostics.

(** The float square root ([np.std], [np.abs] of a complex number). *)
Variable fsqrt : Q -> Q.
(** [cos(2*pi*m/n)] and [sin(2*pi*m/n)], the twiddle factors of numpy's
    FFT of length [n]. *)
Variable tw_cos tw_sin : nat -> nat -> Q.

(** [np.ma.std] (ddof 0) and [np.ma.mean] over the phase bins. *)
Definition np_std (l : list Q) : Q :=
  let m := qmean l in fsqrt (qmean (map (fun v => (v - m) * (v - m)) l)).

(** Coefficient [k] of the discrete Fourier transform
    [sum_j x_j exp(-2 pi i j k / n)], real and imaginary parts. *)
Definition dft_coeff (x : list Q) (k : nat) : Q * Q :=
  let n := length x in
  (sumQ (map (fun jv => snd jv * tw_cos n ((fst jv * k) mod n)) (enum x)),
   - sumQ (map (fun jv => snd jv * tw_sin n ((fst jv * k) mod n)) (enum x))).

(** [np.abs] of a DFT coefficient. *)
Definition dft_mag (x : list Q) (k : nat) : Q :=
  let '(re, im) := dft_coeff x k in fsqrt (re * re + im * im).

(** [np.max(np.abs(np.fft.rfft(x)))]: [rfft] returns the coefficients
    [0 .. n//2]. *)
Definition rfft_absmax (x : list Q) : Q :=
  max_list (map (dft_mag x) (seq 0 (length x / 2 + 1))).

(** The fourth diagnostic: the slice minus its mean, then the largest
    [rfft] magnitude. *)
Definition fft_diag (x : list Q) : Q :=
  rfft_absmax (map (fun v => v - qmean x) x).

(** [diagnostic_functions]: [np.ma.std], [np.ma.mean], [np.ma.ptp] and the
    [rfft] lambda, each applied over [axis=2]. *)
Definition diagnostic_functions : list (list Q -> Q) :=
  [np_std; qmean; np_ptp; fft_diag].

Definition diag_matrix (f : list Q -> Q) (data : list (list (list Q)))
  : list (list Q) :=
  map (map f) data.

(** [np.fft.rfft] of a slice of length 0 raises. *)
Definition has_empty_slice (data : list (list (list Q))) : bool :=
  existsb (existsb (fun x => Nat.eqb (length x) 0)) data.

(** [np.ma.std], [np.ma.mean] and [np.ma.ptp] return masked arrays; the
    [rfft] lambda returns a plain array ([np.fft.rfft] converts its input
    with [asarray]). *)
Definition diagnostic_is_ma : list bool := [true; true; true; false].

Definition comprehensive_stats (data : list (list (list Q)))
    (chanthresh subintthresh : Q) (chan_chain subint_chain : list detrend_cfg)
  : res (list (list npf)) :=
  if has_empty_slice data then Err ValueError
  else
    let diagnostics := map (fun f => diag_matrix f data) diagnostic_functions in
    scaled_diagnostics <-
      mapM (fun kd =>
              chan_scaled <- channel_scaler_np (fst kd) chan_chain (snd kd) ;;
              subint_scaled <- subint_scaler_np (fst kd) subint_chain (snd kd) ;;
              Ok (np_max2 (abs_div_thresh chanthresh chan_scaled)
                          (abs_div_thresh subintthresh subint_scaled)))
           (combine diagnostic_is_ma diagnostics) ;;
    Ok (median_stack_f scaled_diagnostics).

(** The Diagnostic Aggregator as the spec words it: the largest magnitude
    over the whole DFT of the mean-subtracted slice, the slices scaled in
    exact arithmetic ([scale_slice]: a zero MAD gives 0), and the median of
    the four combined values as the mean of the two middle ones. *)
Definition dft_absmax_full (x : list Q) : Q :=
  max_list (map (dft_mag x) (seq 0 (length x))).

Definition spec_diagnostics : list (list Q -> Q) :=
  [np_std; qmean; np_ptp;
   fun x => dft_absmax_full (map (fun v => v - qmean x) x)].

Definition median_of_four (l : list Q) : Q :=
  let s := sortQ l in (nth 1 s 0 + nth 2 s 0) / 2.

Definition comprehensive_stats_spec (data : list (list (list Q)))
    (chanthresh subintthresh : Q) (chan_chain subint_chain : list detrend_cfg)
  : res (list (list Q)) :=
  if has_empty_slice data then Err ValueError
  else
    combined <-
      mapM (fun f =>
              let diag := diag_matrix f data in
              cs <- channel_scaler chan_chain diag ;;
              ss <- subint_scaler subint_chain diag ;;
              Ok (zipw (zipw (fun a b => Qmax (Qabs a / chanthresh) (Qabs b / subintthresh))) cs ss))
           spec_diagnostics ;;
    Ok (map (fun ir =>
               map (fun jv => median_of_four (map (fun m => nth (fst jv) (nth (fst ir) m []) 0) combined))
                   (enum (snd ir)))
            (enum (hd [] combined))).

End Diagnostics.

(** ** Properties stated over the model *)

(** Every position masked in [m1] is masked in [m2]. *)
Definition mask_incl (m1 m2 : list bool) : Prop :=
  Forall2 (fun a b => a = true -> b = true) m1 m2.

(** What [clean_subint] may change in the profile at sub-observation
    [s]: only its amplitudes at the listed [bins], only when [s] is the
    cleaned sub-observation and the weight is nonzero. *)
Definition profile_frame (isub s : nat) (bins : list nat) (pr pr' : profile) : Prop :=
  weight pr' = weight pr /\
  length (amps pr') = length (amps pr) /\
  ((s <> isub \/ weight pr == 0) -> amps pr' = amps pr) /\
  (forall b, ~ In b bins -> nth_error (amps pr') b = nth_error (amps pr) b).

Definition archive_frame (isub : nat) (bins : list nat) (ar a : archive) : Prop :=
  nsubint a = nsubint ar /\ nchan a = nchan ar /\ npol a = npol ar /\
  nbin a = nbin ar /\
  forall s c p, profile_frame isub s bins (prof_at ar s c p) (prof_at a s c p).

(** ** [get_robust_std], [scale_subints] and [scale_chans]

    [np.median] of an empty array is [nan] (with a warning); [None] stands
    for that [nan] below. *)
Definition np_median_opt (l : list Q) : option Q :=
  match l with
  | [] => None
  | _ => Some (median_list l)
  end.

(** A positive affine change of the data, [k * x + c]. *)
Definition aff (k c : Q) (x : Q) : Q := k * x + c.

(** [b] is [k * a], and [nan] exactly where [a] is [nan]. *)
Definition opt_scaled (k : Q) (a b : option Q) : Prop :=
  match a, b with
  | Some x, Some y => y == k * x
  | None, None => True
  | _, _ => False
  end.

(** [data[weights]] for a boolean index of the same length as [data]:
    the entries whose weight is set. *)
Definition weighted (data : list Q) (w : list bool) : list Q :=
  map fst (filter snd (combine data w)).

(** [get_robust_std] with boolean [weights]: [masked_where] raises
    [IndexError] when the shapes of the condition and the data differ;
    [np.bitwise_not] of a boolean array is its negation, so the
    unmasked values are the weighted ones. *)
Definition get_robust_std (data : list Q) (weights : list bool) : res (option Q) :=
  if Nat.eqb (length data) (length weights) then
    let unmasked := weighted data weights in
    match np_median_opt unmasked with
    | None => Ok None
    | Some med =>
        match np_median_opt (map (fun v => Qabs (v - med)) unmasked) with
        | None => Ok None
        | Some mad => Ok (Some ((14826 # 10000) * mad))
        end
    end
  else Err IndexError.

(** [l[lo:hi]] with non-negative bounds, [None] for an omitted bound. *)
Definition py_slice {A : Type} (l : list A) (lo hi : option nat) : list A :=
  let a := match lo with None => O | Some a => a end in
  match hi with
  | None => skipn a l
  | Some b => firstn (b - a)%nat (skipn a l)
  end.

(** [if weights is None: np.ones(len(data), dtype=bool)]. *)
Definition weights_or_ones (weights : option (list bool)) (n : nat) : list bool :=
  match weights with
  | None => repeat true n
  | Some w => w
  end.

(** One pass of the loop of [scale_subints] ([kernel_size] non-negative,
    [half = int(kernel_size/2)]).  A boolean index whose length differs
    from the indexed array raises [IndexError]; [data[ii] - nan] is
    [nan]. *)
Definition scale_subint_at (data : list Q) (w : list bool) (half ii : nat) : res (option Q) :=
  let lobin := if (ii <? half)%nat then None else Some (ii - half)%nat in
  let hibin := if (length data <? ii + half + 1)%nat then None else Some (ii + half + 1)%nat in
  let neighbours := py_slice data lobin hibin in
  let neighbour_weights := py_slice w lobin hibin in
  if Nat.eqb (length neighbours) (length neighbour_weights) then
    Ok (match np_median_opt (weighted neighbours neighbour_weights) with
        | None => None
        | Some med => Some (nth ii data 0 - med)
        end)
  else Err IndexError.

(** [scale_subints]: every entry of [scaled] is written, in order. *)
Definition scale_subints (data : list Q) (kernel_size : nat)
    (subintweights : option (list bool)) : res (list (option Q)) :=
  let w := weights_or_ones subintweights (length data) in
  mapM (scale_subint_at data w (kernel_size / 2)%nat) (seq 0 (length data)).

(** The body of the loop of [scale_chans] for one subband: [subscaled]
    and [subweights] must have the same length.  The weighted channels
    lose the median of the weighted channels, the others become [0].  The
    median of an empty selection is [nan], but then no channel of the
    subband is weighted and the value is not used. *)
Definition scale_block (subscaled : list Q) (subweights : list bool) : res (list Q) :=
  if Nat.eqb (length subscaled) (length subweights) then
    let median := median_list (weighted subscaled subweights) in
    Ok (zipw (fun (x : Q) (b : bool) => if b then x - median else 0) subscaled subweights)
  else Err IndexError.

(** [l[lo:lo+len(vals)] = vals] *)
Definition write_slice {A : Type} (l : list A) (lo : nat) (vals : list A) : list A :=
  firstn lo l ++ vals ++ skipn (lo + length vals)%nat l.

(** The loop [for lochan in range(0, len(data), nchans)].
    [subscaled = np.asarray(data[lochan:lochan+nchans])] is a view of the
    array [data], so the subtraction and the zeroing write through to
    [data]; the loop threads both [data] and [scaled], whose entries are
    [None] until written ([np.empty]). *)
Fixpoint scale_chans_loop (fuel nchans lochan : nat) (w : list bool)
    (data : list Q) (scaled : list (option Q)) : res (list Q * list (option Q)) :=
  match fuel with
  | O => Ok (data, scaled)
  | S f =>
      if (lochan <? length data)%nat then
        let subscaled := firstn nchans (skipn lochan data) in
        let subweights := firstn nchans (skipn lochan w) in
        sub' <- scale_block subscaled subweights ;;
        scale_chans_loop f nchans (lochan + nchans)%nat w
          (write_slice data lochan sub') (write_slice scaled lochan (map Some sub'))
      else Ok (data, scaled)
  end.

(** [scale_chans] on a float array [data] with [nchans >= 0]: the
    contents of [data] after the call, and the returned array.
    [range(0, n, 0)] raises [ValueError]; with [nchans > 0] the range has
    at most [len(data)] steps. *)
Definition scale_chans (data : list Q) (nchans : nat) (chanweights : option (list bool))
    : res (list Q * list (option Q)) :=
  if Nat.eqb nchans 0 then Err ValueError
  else
    let w := weights_or_ones chanweights (length data) in
    scale_chans_loop (length data) nchans O w data (repeat None (length data)).

(** The median of the weighted channels of subband [j] (channels
    [j*nchans] to [j*nchans + nchans - 1]). *)
Definition subband_median (data : list Q) (w : list bool) (nchans j : nat) : Q :=
  median_list (weighted (firstn nchans (skipn (j * nchans)%nat data))
                        (firstn nchans (skipn (j * nchans)%nat w))).

(** ** [cleaners/config_types.py]

    Parameter strings are Python 2 byte strings ([string]).  The builtin
    [int] is left abstract in the section below; [None] stands for the
    [ValueError] it raises. *)

(** [c.isspace()] for a byte: space, tab, newline, vertical tab, form
    feed, carriage return. *)
Definition is_space (c : ascii) : bool :=
  match nat_of_ascii c with
  | 32 | 9 | 10 | 11 | 12 | 13 => true
  | _ => false
  end%nat.

(** [not s.strip()]: the string holds nothing but white space. *)
Fixpoint blank (s : string) : bool :=
  match s with
  | EmptyString => true
  | String c t => is_space c && blank t
  end.

(** [s.lower()] *)
Definition lower_char (c : ascii) : ascii :=
  let n := nat_of_ascii c in
  if (65 <=? n)%nat && (n <=? 90)%nat then ascii_of_nat (n + 32) else c.

Fixpoint py_lower (s : string) : string :=
  match s with
  | EmptyString => EmptyString
  | String c t => String (lower_char c) (py_lower t)
  end.

(** [s.split(sep)] for a one-character separator. *)
Fixpoint py_split (sep : ascii) (s : string) : list string :=
  match s with
  | EmptyString => [EmptyString]
  | String c t =>
      match py_split sep t with
      | [] => []
      | w :: ws =>
          if Ascii.eqb c sep then EmptyString :: w :: ws else String c w :: ws
      end
  end.

(** [s.partition(';;')]: the part before the first [';;'], the separator
    (empty if absent) and the part after it. *)
Fixpoint partition_dsemi (s : string) : string * string * string :=
  match s with
  | EmptyString => (EmptyString, EmptyString, EmptyString)
  | String c t =>
      match t with
      | String c' t' =>
          if Ascii.eqb c ";"%char && Ascii.eqb c' ";"%char
          then (EmptyString, ";;"%string, t')
          else let '(a, m, b) := partition_dsemi t in (String c a, m, b)
      | EmptyString => (String c EmptyString, EmptyString, EmptyString)
      end
  end.

(** ["%d" % z] *)
Definition fmt_d (z : Z) : string := NilZero.string_of_int (Z.to_int z).

(** [';'.join(["%d" % ii for ii in ints])] *)
Definition fmt_ints (l : list Z) : string := String.concat ";" (map fmt_d l).

(** Character classes used to state the properties below. *)
Fixpoint all_chars (p : ascii -> bool) (s : string) : bool :=
  match s with
  | EmptyString => true
  | String c t => p c && all_chars p t
  end.

Definition is_digit (c : ascii) : bool :=
  (48 <=? nat_of_ascii c)%nat && (nat_of_ascii c <=? 57)%nat.

(** The characters ["%d"] writes. *)
Definition fmt_char (c : ascii) : bool := is_digit c || Ascii.eqb c "-"%char.

(** The characters of a normalized parameter string. *)
Definition norm_char (c : ascii) : bool :=
  fmt_char c || Ascii.eqb c ";"%char || Ascii.eqb c ":"%char.

(** Every [';'] is followed by a character other than [';']: the string
    holds no [';;'] and does not end with [';']. *)
Fixpoint no_dsemi (s : string) : bool :=
  match s with
  | EmptyString => true
  | String c t =>
      (if Ascii.eqb c ";"%char
       then match t with
            | EmptyString => false
            | String c' _ => negb (Ascii.eqb c' ";"%char)
            end
       else true) && no_dsemi t
  end.

Section ConfigTypes.

(** Python's [int(s)] on a byte string; [None] is its [ValueError]. *)
Variable py_int : string -> option Z.

Definition int_of (s : string) : res Z :=
  match py_int s with Some z => Ok z | None => Err ValueError end.

(** [BoolVal.get_param_value] *)
Definition boolval_get (paramstr : string) : res bool :=
  let p := py_lower paramstr in
  if existsb (String.eqb p) ["true"; "1"; "y"; "yes"]%string then Ok true
  else if existsb (String.eqb p) ["false"; "0"; "n"; "no"]%string then Ok false
  else Err ValueError.

(** [BoolVal.normalize_param_string]: [str] of the parsed boolean. *)
Definition boolval_normalize (paramstr : string) : res string :=
  b <- boolval_get paramstr ;; Ok (if b then "True" else "False")%string.

(** [_str_to_intlist] *)
Definition str_to_intlist (paramstr : string) : res (list Z) :=
  if blank paramstr then Ok []
  else mapM int_of (py_split ";" paramstr).

(** [IntList.get_param_value]; [None] is Python's [None]. *)
Definition intlist_get (paramstr : string) : res (option (list Z)) :=
  if String.eqb (py_lower paramstr) "none" then Ok None
  else l <- str_to_intlist paramstr ;; Ok (Some l).

Definition intlist_normalize (paramstr : string) : res string :=
  v <- intlist_get paramstr ;;
  Ok (match v with None => "None"%string | Some l => fmt_ints l end).

(** The [while remainder:] loop of [IntListList.get_param_value]; each
    pass shortens [remainder], so [len(paramstr) + 1] passes suffice. *)
Fixpoint intlistlist_loop (fuel : nat) (remainder : string)
  : res (list (list Z)) :=
  match fuel with
  | O => Ok []
  | S f =>
      if String.eqb remainder "" then Ok []
      else
        let '(liststr, _, rest) := partition_dsemi remainder in
        l <- str_to_intlist liststr ;;
        ls <- intlistlist_loop f rest ;;
        Ok (l :: ls)
  end.

Definition intlistlist_get (paramstr : string) : res (option (list (list Z))) :=
  if String.eqb (py_lower paramstr) "none" then Ok None
  else if blank paramstr then Ok (Some [])
  else ls <- intlistlist_loop (S (String.length paramstr)) paramstr ;; Ok (Some ls).

Definition intlistlist_normalize (paramstr : string) : res string :=
  v <- intlistlist_get paramstr ;;
  Ok (match v with
      | None => "None"%string
      | Some ls => String.concat ";;" (map fmt_ints ls)
      end).

(** [IntPairList._to_int_pair] *)
Definition to_int_pair (paramstr : string) : res (Z * Z) :=
  match py_split ":" paramstr with
  | [a; b] => x <- int_of a ;; y <- int_of b ;; Ok (x, y)
  | _ => Err ValueError
  end.

(** [IntPairList.get_param_value] *)
Definition intpairlist_get (paramstr : string) : res (list (Z * Z)) :=
  if blank paramstr then Ok []
  else mapM to_int_pair (py_split ";" paramstr).

(** ["%d:%d" % pair] and [IntPairList.normalize_param_string] *)
Definition fmt_pair (p : Z * Z) : string :=
  String.append (fmt_d (fst p)) (String.append ":" (fmt_d (snd p))).

Definition intpairlist_normalize (paramstr : string) : res string :=
  pairs <- intpairlist_get paramstr ;; Ok (String.concat ";" (map fmt_pair pairs)).

End ConfigTypes.

(** A reader of optionally signed decimal integers; it agrees with
    Python's [int] on the strings ["%d"] writes. *)
Definition py_int_dec (s : string) : option Z :=
  option_map Z.of_int (NilZero.int_of_string s).

(** * Examples *)

Example detrend_order0_ex :
  rvals (detrend (plain [1; 2; 6]) 0 [] None)
  = Ok [(-2, false); (-1, false); (3, false)].
Proof. vm_compute. reflexivity. Qed.

Example detrend_order1_ex :
  rvals (detrend (plain [1; 3; 5; 7]) 1 [] None)
  = Ok [(0, false); (0, false); (0, false); (0, false)].
Proof. vm_compute. reflexivity. Qed.

Lemma sumQ_ext {A : Type} (f g : A -> Q) (l : list A) :
  (forall x, f x == g x) -> sumQ (map f l) == sumQ (map g l).
Proof.
  intros H; induction l as [|x t IH]; simpl; [reflexivity|].
  rewrite H, IH; reflexivity.
Qed.

Lemma sumQ_ones {A : Type} (l : list A) :
  sumQ (map (fun _ => 1) l) == Qnat (length l).
Proof.
  induction l as [|x t IH]; simpl; [reflexivity|].
  rewrite IH. unfold Qnat. rewrite Nat2Z.inj_succ, <- Z.add_1_l, inject_Z_plus.
  reflexivity.
Qed.

Lemma Qnat_pos (n : nat) : (0 < n)%nat -> ~ Qnat n == 0.
Proof.
  intros Hn H. unfold Qnat in H.
  apply (inject_Z_injective (Z.of_nat n) 0%Z) in H. lia.
Qed.

Lemma lstsq_poly_order0 (pts : list (nat * Q)) :
  pts <> [] ->
  exists c, lstsq_poly 0 pts = [c] /\ c == qmean (map snd pts).
Proof.
  intros Hne.
  unfold lstsq_poly, solve_normal. simpl seq.
  cbn [map gauss_jordan app].
  set (S0 := sumQ (map _ (map _ pts))).
  set (T0 := sumQ (map (fun ry : list Q * Q => nth 0 (fst ry) 0 * snd ry) _)).
  assert (HS : S0 == Qnat (length pts)).
  { unfold S0. rewrite map_map. rewrite (sumQ_ext _ (fun _ => 1)).
    - rewrite sumQ_ones. reflexivity.
    - intros x. simpl. reflexivity. }
  assert (HT : T0 == sumQ (map snd pts)).
  { unfold T0. rewrite map_map. apply sumQ_ext. intros x. simpl. ring. }
  assert (Hlen : (0 < length pts)%nat) by (destruct pts; [congruence | simpl; lia]).
  cbn [find_pivot nth].
  destruct (Qeq_bool S0 0) eqn:E.
  - apply Qeq_bool_eq in E. exfalso. apply (Qnat_pos _ Hlen). rewrite <- HS. exact E.
  - cbn. eexists; split; [reflexivity|].
    unfold qmean. rewrite length_map, <- HS, <- HT. reflexivity.
Qed.

Lemma seg_points_all_gen (l : list mq) (k N : nat) :
  (k + length l <= N)%nat ->
  map snd (map (fun ie => (fst ie, mval (snd ie)))
       (filter (fun ie => in_seg 0 N (fst ie) && negb (mmask (snd ie)))
          (combine (seq k (length l)) l)))
  = unmasked l.
Proof.
  revert k. induction l as [|e t IH]; intros k Hk; simpl; [reflexivity|].
  unfold in_seg at 1. simpl in Hk.
  replace (k <? N)%nat with true by (symmetry; apply Nat.ltb_lt; lia).
  destruct (mmask e) eqn:Em; simpl; rewrite IH by lia;
    unfold unmasked; simpl; rewrite Em; reflexivity.
Qed.

Lemma seg_points_all (ys : list mq) :
  map snd (seg_points ys 0 (length ys)) = unmasked ys.
Proof. apply seg_points_all_gen. lia. Qed.

Lemma forall2_enum_gen (R : mq -> mq -> Prop) (g : nat * mq -> mq)
    (l : list mq) (k : nat) :
  (forall i e, (k <= i < k + length l)%nat -> R e (g (i, e))) ->
  Forall2 R l (map g (combine (seq k (length l)) l)).
Proof.
  revert k. induction l as [|e t IH]; intros k H; simpl; constructor.
  - apply H. simpl. lia.
  - apply IH. intros i e' Hi. apply H. simpl. lia.
Qed.

(** C6: on a series with at least one unmasked point, [detrend] with
    order 0 and no breakpoints succeeds and returns, at every position
    (masked ones included), the value minus the mean of the unmasked
    values, keeping the mask. *)
Theorem detrend_order0_subtracts_mean (ys : list mq) :
  (0 < count ys)%nat ->
  exists d, detrend ys 0 [] None = Ok d /\
    Forall2 (fun e e' => mval e' == mval e - qmean (unmasked ys)
                         /\ mmask e' = mmask e) ys d.
Proof.
  intros Hc.
  unfold detrend, edges_of. simpl app. cbn [tl combine fold_left bind].
  unfold detrend_segment.
  pose proof (seg_points_all ys) as Hsp.
  assert (Hne : seg_points ys 0 (length ys) <> []).
  { intros E. rewrite E in Hsp. unfold count in Hc. rewrite <- Hsp in Hc.
    simpl in Hc. lia. }
  destruct (Nat.eqb (length (seg_points ys 0 (length ys))) 0) eqn:E0.
  { apply Nat.eqb_eq, length_zero_iff_nil in E0. contradiction. }
  rewrite Nat.ltb_irrefl.
  destruct (lstsq_poly_order0 _ Hne) as [c [Hc1 Hc2]].
  rewrite Hc1. eexists; split; [reflexivity|].
  unfold enum. apply forall2_enum_gen. intros i e Hi.
  unfold in_seg. cbn [fst snd Nat.leb andb].
  replace (i <? length ys)%nat with true by (symmetry; apply Nat.ltb_lt; lia).
  cbn [mval mmask]. split; [|reflexivity].
  unfold poly_eval, poly_row, sumQ. cbn [seq map fold_right qpow zipw].
  rewrite Hc2, Hsp. ring.
Qed.

Lemma detrend_order0_subtracts_mean_witness :
  let ys := [MQ 1 false; MQ 2 true; MQ 6 false; MQ 4 false] in
  (0 < count ys)%nat /\
  exists d, detrend ys 0 [] None = Ok d /\
    Forall2 (fun e e' => mval e' == mval e - qmean (unmasked ys)
                         /\ mmask e' = mmask e) ys d.
Proof.
  cbv zeta. split; [vm_compute; lia|].
  apply detrend_order0_subtracts_mean. vm_compute. lia.
Defined.


Lemma masks_map_enum_gen (g : nat * mq -> mq) (l : list mq) (k : nat) :
  (forall ie, mmask (g ie) = mmask (snd ie)) ->
  masks (map g (combine (seq k (length l)) l)) = masks l.
Proof.
  intros Hg. revert k. induction l as [|e t IH]; intros k; simpl; [reflexivity|].
  unfold masks in *. simpl. rewrite Hg, IH. reflexivity.
Qed.

Lemma detrend_segment_masks (ys : list mq) (order : nat) (d d' : list mq) seg :
  detrend_segment ys order d seg = Ok d' -> masks d' = masks d.
Proof.
  destruct seg as [start stop]. unfold detrend_segment.
  destruct (Nat.eqb _ 0); [intros H; injection H; intros <-; reflexivity|].
  destruct (length ys <? stop)%nat; [discriminate|].
  intros H; injection H; intros <-.
  unfold enum. apply masks_map_enum_gen.
  intros [i e]. simpl. destruct (in_seg start stop i); reflexivity.
Qed.

Lemma detrend_masks (ys : list mq) order bp np (d : list mq) :
  detrend ys order bp np = Ok d -> masks d = masks ys.
Proof.
  unfold detrend.
  generalize (combine (edges_of (length ys) bp np) (tl (edges_of (length ys) bp np))).
  intros segs.
  assert (Hgen : forall acc, (forall a, acc = Ok a -> masks a = masks ys) ->
            fold_left (fun acc seg => d <- acc ;; detrend_segment ys order d seg) segs acc = Ok d ->
            masks d = masks ys).
  { induction segs as [|sg t IH]; intros acc Hacc; simpl.
    - apply Hacc.
    - apply IH. intros a Ha. destruct acc as [a0|e]; simpl in Ha; [|discriminate].
      rewrite (detrend_segment_masks _ _ _ _ _ Ha). apply Hacc. reflexivity. }
  apply Hgen. intros a Ha. injection Ha; intros <-; reflexivity.
Qed.

Lemma mask_outliers_incl (thresh : Q) (d : list mq) :
  mask_incl (masks d) (masks (mask_outliers thresh d)).
Proof.
  unfold mask_outliers, masks. rewrite map_map.
  generalize (ma_median d) (ma_mad d). intros med mad.
  induction d as [|e t IH]; simpl; constructor; [|exact IH].
  intros H. rewrite H. reflexivity.
Qed.

Lemma itd_step_incl thresh order bp np (ym d : list mq) :
  itd_step thresh order bp np ym = Ok d -> mask_incl (masks ym) (masks d).
Proof.
  unfold itd_step. destruct (detrend ym order bp np) as [d0|e] eqn:E; simpl;
    [|discriminate].
  intros H; injection H; intros <-.
  rewrite <- (detrend_masks _ _ _ _ _ E). apply mask_outliers_incl.
Qed.


Lemma itd_mask_history_head thresh order bp np fuel (ym : list mq) :
  nth_error (itd_mask_history thresh order bp np fuel ym) 0 = Some (masks ym).
Proof. destruct fuel; reflexivity. Qed.

(** The mask history is what the loop computes: its last entry is the
    mask of the array the loop returns. *)
Lemma itd_loop_last_mask thresh order bp np fuel (ym r : list mq) :
  itd_loop thresh order bp np fuel ym = Ok r ->
  last (itd_mask_history thresh order bp np fuel ym) [] = masks r.
Proof.
  revert ym. induction fuel as [|f IH]; intros ym H; simpl in *.
  - injection H; intros <-; reflexivity.
  - destruct (Nat.eqb (count ym) 0); [injection H; intros <-; reflexivity|].
    destruct (itd_step thresh order bp np ym) as [d|e]; simpl in H; [|discriminate].
    destruct (list_eq_dec bool_dec (masks d) (masks ym)).
    + injection H; intros <-; reflexivity.
    + specialize (IH d H).
      destruct f; simpl in *; [exact IH|].
      destruct (Nat.eqb (count d) 0); [exact IH|].
      destruct (itd_step thresh order bp np d); [|exact IH].
      destruct (list_eq_dec bool_dec _ _); exact IH.
Qed.

Lemma length_map_enum_gen (g : nat * mq -> mq) (l : list mq) (k : nat) :
  length (map g (combine (seq k (length l)) l)) = length l.
Proof.
  rewrite length_map, length_combine, length_seq. apply Nat.min_id.
Qed.

Lemma detrend_length (ys : list mq) order bp np (d : list mq) :
  detrend ys order bp np = Ok d -> length d = length ys.
Proof.
  unfold detrend.
  generalize (combine (edges_of (length ys) bp np) (tl (edges_of (length ys) bp np))).
  intros segs.
  assert (Hgen : forall acc, (forall a, acc = Ok a -> length a = length ys) ->
            fold_left (fun acc seg => d <- acc ;; detrend_segment ys order d seg) segs acc = Ok d ->
            length d = length ys).
  { induction segs as [|[start stop] t IH]; intros acc Hacc; simpl.
    - apply Hacc.
    - apply IH. intros a Ha. destruct acc as [a0|e]; simpl in Ha; [|discriminate].
      unfold detrend_segment in Ha.
      destruct (Nat.eqb _ 0); [injection Ha; intros <-; apply Hacc; reflexivity|].
      destruct (length ys <? stop)%nat; [discriminate|].
      injection Ha; intros <-. unfold enum. rewrite length_map_enum_gen.
      apply Hacc. reflexivity. }
  apply Hgen. intros a Ha. injection Ha; intros <-; reflexivity.
Qed.

Lemma itd_loop_length thresh order bp np fuel (ym r : list mq) :
  itd_loop thresh order bp np fuel ym = Ok r -> length r = length ym.
Proof.
  revert ym. induction fuel as [|f IH]; intros ym H; simpl in H.
  - injection H; intros <-; reflexivity.
  - destruct (Nat.eqb (count ym) 0); [injection H; intros <-; reflexivity|].
    unfold itd_step in H.
    destruct (detrend ym order bp np) as [d|e] eqn:E; simpl in H; [|discriminate].
    assert (Hl : length (mask_outliers thresh d) = length ym).
    { unfold mask_outliers. rewrite length_map. apply (detrend_length _ _ _ _ _ E). }
    destruct (list_eq_dec bool_dec _ _).
    + injection H; intros <-. exact Hl.
    + rewrite <- Hl. apply IH. exact H.
Qed.

Lemma masks_set_masks (r : list mq) (m : list bool) :
  length r = length m -> masks (set_masks r m) = m.
Proof.
  revert m. induction r as [|e t IH]; intros [|b m] H; simpl in *;
    try discriminate; [reflexivity|].
  unfold masks in *. simpl. f_equal. apply IH. lia.
Qed.

(** C8: along the passes of the [iterative_detrend] loop, the mask of
    each pass contains the mask of the pass before (no masked position is
    ever unmasked), and with [reset_mask] true the mask of the returned
    series is the input mask. *)
Theorem iterative_detrend_mask_grows_then_reset (thresh : Q) (order : nat)
    (bp : list nat) (numpieces : option nat) (ys : list mq) :
  (forall fuel k m1 m2,
     nth_error (itd_mask_history thresh order bp numpieces fuel ys) k = Some m1 ->
     nth_error (itd_mask_history thresh order bp numpieces fuel ys) (S k) = Some m2 ->
     mask_incl m1 m2)
  /\ (forall r, iterative_detrend_gen thresh order bp numpieces true ys = Ok r ->
        masks r = masks ys).
Proof.
  split.
  - intros fuel. generalize ys. clear ys.
    induction fuel as [|f IH]; intros ym k m1 m2 H1 H2; simpl in H1, H2.
    + destruct k; simpl in H2; [discriminate|destruct k; discriminate].
    + destruct (Nat.eqb (count ym) 0).
      { destruct k; simpl in H2; [discriminate|destruct k; discriminate]. }
      destruct (itd_step thresh order bp numpieces ym) as [d|e] eqn:E.
      2: { destruct k; simpl in H2; [discriminate|destruct k; discriminate]. }
      destruct (list_eq_dec bool_dec (masks d) (masks ym)).
      * destruct k as [|[|k]]; simpl in H1, H2; try discriminate.
        injection H1; injection H2; intros <- <-.
        apply (itd_step_incl _ _ _ _ _ _ E).
      * destruct k as [|k]; simpl in H1, H2.
        -- injection H1; intros <-.
           change (nth_error (itd_mask_history thresh order bp numpieces f d) 0 = Some m2) in H2.
           rewrite itd_mask_history_head in H2. injection H2; intros <-.
           apply (itd_step_incl _ _ _ _ _ _ E).
        -- apply (IH d k); assumption.
  - intros r. unfold iterative_detrend_gen.
    destruct (Nat.eqb (count ys) 0).
    + intros H; injection H; intros <-; reflexivity.
    + destruct (itd_loop thresh order bp numpieces (S (length ys)) ys) as [r0|e] eqn:E;
        simpl; [|discriminate].
      intros H; injection H; intros <-.
      apply masks_set_masks. unfold masks. rewrite length_map.
      apply (itd_loop_length _ _ _ _ _ _ _ E).
Qed.

Lemma iterative_detrend_mask_grows_then_reset_witness :
  let ys := [MQ 0 false; MQ 1 false; MQ 0 true; MQ 1 false; MQ 40 false; MQ 1 false] in
  (forall fuel k m1 m2,
     nth_error (itd_mask_history 1 0 [] None fuel ys) k = Some m1 ->
     nth_error (itd_mask_history 1 0 [] None fuel ys) (S k) = Some m2 ->
     mask_incl m1 m2)
  /\ (forall r, iterative_detrend_gen 1 0 [] None true ys = Ok r ->
        masks r = masks ys).
Proof.
  cbv zeta. apply iterative_detrend_mask_grows_then_reset.
Defined.

(** * Hot bins *)

Lemma unmasked_plain (l : list Q) : unmasked (plain l) = l.
Proof.
  induction l as [|x t IH]; [reflexivity|].
  unfold unmasked in *; simpl. now rewrite IH.
Qed.

Lemma count_plain (l : list Q) : count (plain l) = length l.
Proof. unfold count. now rewrite unmasked_plain. Qed.

Lemma Qltb_false (a b : Q) : ~ a < b -> Qltb a b = false.
Proof.
  intros H. unfold Qltb. apply negb_false_iff, Qle_bool_iff.
  now apply Qnot_lt_le.
Qed.








(** C3: with a cap [max_num_hot] set, as soon as the loop passes the
    threshold test on a non-empty profile (the statistic is at or above
    [normstat_thresh]) the cap check evaluates [len(hot_bins)] on a name
    that is never bound, and the call raises [NameError] instead of
    returning the masked bins with status 2. *)
Theorem get_hot_bins_cap_raises_name_error (normaltest : list Q -> Q)
    (np_median : list mq -> Q) (normstat_thresh : Q) (cap : nat)
    (only_decreasing : bool) (data : list Q) :
  data <> [] -> ~ normaltest data < normstat_thresh ->
  fst (get_hot_bins normaltest np_median normstat_thresh (Some cap)
         only_decreasing data) = Err NameError.
Proof.
  intros Hne Hst. unfold get_hot_bins. rewrite unmasked_plain.
  simpl hot_loop. rewrite count_plain.
  destruct data as [|x t]; [congruence|]. simpl Nat.eqb. cbv iota.
  rewrite (Qltb_false _ _ Hst). reflexivity.
Qed.

Lemma get_hot_bins_cap_raises_name_error_witness :
  [0; 1; 2; 3; 4; 5; 6; 7; 8; 9] <> [] /\ ~ (fun _ : list Q => 10) [0; 1; 2; 3; 4; 5; 6; 7; 8; 9] < -1 /\
  fst (get_hot_bins (fun _ => 10) (fun _ => 0) (-1) (Some 0%nat) true
         [0; 1; 2; 3; 4; 5; 6; 7; 8; 9]) = Err NameError.
Proof.
  split; [discriminate|]. split; [intros H; discriminate H|].
  apply get_hot_bins_cap_raises_name_error; [discriminate|intros H; discriminate H].
Defined.



(** * Profile removal *)

Lemma cell_mem_In (L : list (nat * nat)) (i j : nat) :
  existsb (fun ij => Nat.eqb (fst ij) i && Nat.eqb (snd ij) j) L = true <-> In (i, j) L.
Proof.
  rewrite existsb_exists. split.
  - intros [[a b] [H1 H2]]. apply andb_true_iff in H2 as [H2 H3].
    apply Nat.eqb_eq in H2, H3. simpl in H2, H3. now subst.
  - intros H. exists (i, j). split; [exact H|]. simpl. now rewrite !Nat.eqb_refl.
Qed.

Lemma In_ndindex (n m i j : nat) :
  In (i, j) (ndindex n m) <-> (i < n)%nat /\ (j < m)%nat.
Proof.
  unfold ndindex. rewrite in_flat_map. split.
  - intros [i' [Hi Hj]]. apply in_map_iff in Hj as [j' [Hj Hj']].
    injection Hj as <- <-. apply in_seq in Hi, Hj'. lia.
  - intros [Hi Hj]. exists i. split; [apply in_seq; lia|].
    apply in_map_iff. exists j. split; [reflexivity|apply in_seq; lia].
Qed.

Lemma NoDup_map_pair (k a m : nat) : NoDup (map (fun j => (k, j)) (seq a m)).
Proof.
  revert a. induction m as [|m IH]; intros a; simpl; constructor; [|apply IH].
  intros H. apply in_map_iff in H as [j [Hj Hin]]. injection Hj as ->.
  apply in_seq in Hin. lia.
Qed.

Lemma NoDup_ndindex (n m : nat) : NoDup (ndindex n m).
Proof.
  unfold ndindex.
  enough (H : forall k, NoDup (flat_map (fun i => map (fun j => (i, j)) (seq 0 m)) (seq k n)))
    by apply H.
  induction n as [|n IH]; intros k; simpl.
  - constructor.
  - apply NoDup_app; [apply NoDup_map_pair|apply IH|].
    intros [a b] H1 H2. apply in_map_iff in H1 as [j [Hj _]]. injection Hj as <- <-.
    apply in_flat_map in H2 as [i' [Hi H2]]. apply in_map_iff in H2 as [j' [Hj' _]].
    injection Hj' as <- _. apply in_seq in Hi. lia.
Qed.

(** Writing back a list of results, each carrying its own cell index. *)
Lemma fold_results_pointwise {A : Type} (g : nat * nat -> (nat * nat) * A)
    (Hg : forall ij, fst (g ij) = ij) :
  forall (L : list (nat * nat)) (d0 : nat -> nat -> A) (i j : nat),
  fold_left (fun d r => upd_cell d (fst (fst r)) (snd (fst r)) (snd r)) (map g L) d0 i j
  = if existsb (fun ij => Nat.eqb (fst ij) i && Nat.eqb (snd ij) j) L
    then snd (g (i, j)) else d0 i j.
Proof.
  induction L as [|x L IH]; intros d0 i j; simpl; [reflexivity|].
  rewrite IH. rewrite (Hg x). destruct x as [a b]. simpl.
  destruct (existsb _ L); [destruct (_ && _); reflexivity|].
  unfold upd_cell. rewrite orb_false_r.
  destruct (Nat.eqb a i) eqn:E1, (Nat.eqb b j) eqn:E2; simpl;
    rewrite ?(Nat.eqb_sym i a), ?(Nat.eqb_sym j b), ?E1, ?E2; simpl; try reflexivity.
  apply Nat.eqb_eq in E1, E2. now subst.
Qed.

(** Updating each cell of a duplicate-free list from its own current
    value. *)
Lemma fold_serial_pointwise {A : Type} (F : A -> nat -> nat -> A) :
  forall (L : list (nat * nat)) (d0 : nat -> nat -> A) (i j : nat),
  NoDup L ->
  fold_left (fun d ij => upd_cell d (fst ij) (snd ij) (F (d (fst ij) (snd ij)) (fst ij) (snd ij))) L d0 i j
  = if existsb (fun ij => Nat.eqb (fst ij) i && Nat.eqb (snd ij) j) L
    then F (d0 i j) i j else d0 i j.
Proof.
  induction L as [|x L IH]; intros d0 i j Hnd; simpl; [reflexivity|].
  inversion Hnd as [|? ? Hx Hnd']; subst.
  rewrite (IH _ i j Hnd'). destruct x as [a b]. simpl.
  destruct (existsb _ L) eqn:Em.
  - rewrite orb_true_r. apply cell_mem_In in Em. unfold upd_cell. simpl.
    destruct (Nat.eqb i a && Nat.eqb j b) eqn:E; [|reflexivity].
    apply andb_true_iff in E as [E1 E2]. apply Nat.eqb_eq in E1, E2. subst.
    contradiction.
  - rewrite orb_false_r. unfold upd_cell. simpl.
    destruct (Nat.eqb a i) eqn:E1, (Nat.eqb b j) eqn:E2; simpl;
      rewrite ?(Nat.eqb_sym i a), ?(Nat.eqb_sym j b), ?E1, ?E2; simpl; try reflexivity.
    apply Nat.eqb_eq in E1, E2. now subst.
Qed.

Lemma remove_profile1d_index leastsq prof isub ichan template :
  fst (remove_profile1d leastsq prof isub ichan template) = (isub, ichan).
Proof.
  unfold remove_profile1d. destruct (leastsq prof template) as [a s].
  now destruct (fit_ok s).
Qed.

(** Both branches of [remove_profile] replace each cell of the cube by the
    result of [remove_profile1d] on that cell's profile. *)
Lemma remove_profile_serial_cell leastsq data nsubs nchans template i j :
  remove_profile_serial leastsq data nsubs nchans template i j
  = if (i <? nsubs)%nat && (j <? nchans)%nat
    then snd (remove_profile1d leastsq (data i j) i j template) else data i j.
Proof.
  unfold remove_profile_serial.
  rewrite (fold_serial_pointwise (fun v a b => snd (remove_profile1d leastsq v a b template)))
    by apply NoDup_ndindex.
  destruct (existsb _ _) eqn:E.
  - apply cell_mem_In, In_ndindex in E as [E1 E2].
    apply Nat.ltb_lt in E1, E2. now rewrite E1, E2.
  - destruct ((i <? nsubs)%nat && (j <? nchans)%nat) eqn:E'; [|reflexivity].
    apply andb_true_iff in E' as [E1 E2]. apply Nat.ltb_lt in E1, E2.
    assert (H : In (i, j) (ndindex nsubs nchans)) by now apply In_ndindex.
    apply cell_mem_In in H. congruence.
Qed.

Lemma remove_profile_pool_cell leastsq data nsubs nchans template i j :
  remove_profile_pool leastsq data nsubs nchans template i j
  = if (i <? nsubs)%nat && (j <? nchans)%nat
    then snd (remove_profile1d leastsq (data i j) i j template) else data i j.
Proof.
  unfold remove_profile_pool.
  rewrite (fold_results_pointwise
             (fun ij => remove_profile1d leastsq (data (fst ij) (snd ij)) (fst ij) (snd ij) template))
    by (intros [a b]; apply remove_profile1d_index).
  destruct (existsb _ _) eqn:E.
  - apply cell_mem_In, In_ndindex in E as [E1 E2].
    apply Nat.ltb_lt in E1, E2. now rewrite E1, E2.
  - destruct ((i <? nsubs)%nat && (j <? nchans)%nat) eqn:E'; [|reflexivity].
    apply andb_true_iff in E' as [E1 E2]. apply Nat.ltb_lt in E1, E2.
    assert (H : In (i, j) (ndindex nsubs nchans)) by now apply In_ndindex.
    apply cell_mem_In in H. congruence.
Qed.

Lemma remove_profile1d_failed leastsq prof isub ichan template :
  fit_ok (snd (leastsq prof template)) = false ->
  snd (remove_profile1d leastsq prof isub ichan template) = map (fun _ => 0) prof.
Proof.
  unfold remove_profile1d. destruct (leastsq prof template) as [a s]. simpl.
  intros H. now rewrite H.
Qed.

Lemma zipw_length_same {A B C : Type} (f : A -> B -> C) :
  forall (l1 : list A) (l2 : list B),
  length l1 = length l2 -> length (zipw f l1 l2) = length l2.
Proof.
  induction l1 as [|x l1 IH]; intros [|y l2] H; simpl in *; try reflexivity; try discriminate.
  f_equal. apply IH. now injection H.
Qed.

Lemma remove_profile1d_length leastsq p isub ichan template :
  length template = length p ->
  length (snd (remove_profile1d leastsq p isub ichan template)) = length p.
Proof.
  intros Hl. unfold remove_profile1d. destruct (leastsq p template) as [a s].
  destruct (fit_ok s); simpl.
  - now apply zipw_length_same.
  - now rewrite length_map.
Qed.

(** On a profile of the template's length, the task of a cell is the one
    of copy mode. *)
Lemma remove_profile1d_nd_vec leastsq (p template : list Q) isub ichan :
  length template = length p ->
  remove_profile1d_nd leastsq (Vec p) isub ichan template
  = Ok ((isub, ichan), Vec (snd (remove_profile1d leastsq p isub ichan template))).
Proof.
  intros Hl. unfold remove_profile1d_nd, remove_profile1d, broadcast2.
  rewrite Hl, Nat.eqb_refl. simpl. destruct (leastsq p template) as [a s].
  now destruct (fit_ok s).
Qed.

Lemma remove_profile1d_nd_index leastsq prof isub ichan template r :
  remove_profile1d_nd leastsq prof isub ichan template = Ok r -> fst r = (isub, ichan).
Proof.
  unfold remove_profile1d_nd. destruct (broadcast2 template prof) as [tp|e]; simpl.
  - destruct (leastsq (snd tp) (fst tp)) as [a s].
    destruct (fit_ok s); intros H; injection H as <-; reflexivity.
  - discriminate.
Qed.

(** With at least two sub-integrations, channels and bins, [squeeze()]
    keeps the three axes and [data[isub, ichan]] is the cell's profile. *)
Lemma squeezed_index_full (ar : archive1) (i j : nat) :
  (2 <= ar_nsubint ar)%nat -> (2 <= ar_nchan ar)%nat -> (2 <= ar_nbin ar)%nat ->
  (i < ar_nsubint ar)%nat -> (j < ar_nchan ar)%nat ->
  squeezed_index ar i j = Ok (Vec (ar_amps ar i j)).
Proof.
  intros H1 H2 H3 Hi Hj. unfold squeezed_index.
  replace (Nat.eqb (ar_nsubint ar) 1) with false by (symmetry; apply Nat.eqb_neq; lia).
  replace (Nat.eqb (ar_nchan ar) 1) with false by (symmetry; apply Nat.eqb_neq; lia).
  replace (Nat.eqb (ar_nbin ar) 1) with false by (symmetry; apply Nat.eqb_neq; lia).
  replace (Nat.ltb i (ar_nsubint ar)) with true by (symmetry; apply Nat.ltb_lt; lia).
  replace (Nat.ltb j (ar_nchan ar)) with true by (symmetry; apply Nat.ltb_lt; lia).
  reflexivity.
Qed.

(** The serial branch is the write-back loop over the tasks' results. *)
Lemma remove_profile_inplace_serial leastsq ar template :
  remove_profile_inplace leastsq ar template 1
  = fold_left write_result
      (map (inplace_cell leastsq ar template) (ndindex (ar_nsubint ar) (ar_nchan ar)))
      (Ok tt, ar).
Proof.
  unfold remove_profile_inplace. simpl (Nat.eqb 1 1). cbv iota.
  generalize (Ok tt : res unit, ar) as st.
  induction (ndindex (ar_nsubint ar) (ar_nchan ar)) as [|x L IH]; intros st; simpl;
    [reflexivity|].
  rewrite <- IH. f_equal.
  destruct st as [[u|e] a]; simpl; [|reflexivity].
  destruct (inplace_cell leastsq ar template x) as [r|e] eqn:E; [|reflexivity].
  unfold inplace_cell in E. destruct (squeezed_index ar (fst x) (snd x)); [|discriminate].
  simpl in E. apply remove_profile1d_nd_index in E. destruct x as [i j].
  now rewrite E.
Qed.

Lemma mapM_all_ok {A B : Type} (f : A -> res B) (g : A -> B) :
  forall (L : list A), (forall x, In x L -> f x = Ok (g x)) -> mapM f L = Ok (map g L).
Proof.
  induction L as [|x L IH]; intros H; simpl; [reflexivity|].
  rewrite (H x (or_introl eq_refl)). simpl.
  rewrite IH by (intros y Hy; apply H; now right). reflexivity.
Qed.

Lemma zipw_map_same {A B C : Type} (f : A -> B -> C) (h : A -> B) :
  forall (L : list A), zipw f L (map h L) = map (fun x => f x (h x)) L.
Proof. induction L as [|x L IH]; simpl; [reflexivity|]. now rewrite IH. Qed.

(** Writing back results that all succeed, with amplitudes of [nbin]
    values. *)
Lemma write_results_ok (V : nat * nat -> list Q) :
  forall (L : list (nat * nat)) (a : archive1),
  (forall ij, In ij L -> length (V ij) = ar_nbin a) ->
  fold_left write_result (map (fun ij => Ok (ij, Vec (V ij))) L) (Ok tt, a)
  = (Ok tt, Archive1 (ar_nsubint a) (ar_nchan a) (ar_nbin a)
                     (fold_left (fun d r => upd_cell d (fst (fst r)) (snd (fst r)) (snd r))
                                (map (fun ij => (ij, V ij)) L) (ar_amps a))
                     (ar_weight a)).
Proof.
  induction L as [|x L IH]; intros a H; simpl; [now destruct a|].
  unfold apply_amps, assign_amps.
  rewrite (H x (or_introl eq_refl)), Nat.eqb_refl.
  rewrite IH; [reflexivity|]. intros y Hy. simpl. apply H. now right.
Qed.

(** When every cell's profile has the template's length and the shape
    keeps its three axes, [remove_profile_inplace] with [nthreads >= 1]
    completes, writes each cell's copy-mode result, and no weight. *)
Lemma remove_profile_inplace_ok leastsq (ar : archive1) (template : list Q) (nthreads : nat) :
  (2 <= ar_nsubint ar)%nat -> (2 <= ar_nchan ar)%nat -> (2 <= ar_nbin ar)%nat ->
  length template = ar_nbin ar ->
  (forall i j, (i < ar_nsubint ar)%nat -> (j < ar_nchan ar)%nat ->
               length (ar_amps ar i j) = ar_nbin ar) ->
  (0 < nthreads)%nat ->
  let V := fun ij : nat * nat =>
             snd (remove_profile1d leastsq (ar_amps ar (fst ij) (snd ij)) (fst ij) (snd ij) template) in
  remove_profile_inplace leastsq ar template nthreads
  = (Ok tt, Archive1 (ar_nsubint ar) (ar_nchan ar) (ar_nbin ar)
                     (fold_left (fun d r => upd_cell d (fst (fst r)) (snd (fst r)) (snd r))
                                (map (fun ij => (ij, V ij)) (ndindex (ar_nsubint ar) (ar_nchan ar)))
                                (ar_amps ar))
                     (ar_weight ar)).
Proof.
  intros H1 H2 H3 Ht Hp Hn V.
  set (cells := ndindex (ar_nsubint ar) (ar_nchan ar)).
  assert (Hsq : forall ij, In ij cells ->
                squeezed_index ar (fst ij) (snd ij) = Ok (Vec (ar_amps ar (fst ij) (snd ij)))).
  { intros [i j] Hij. apply In_ndindex in Hij as [Hi Hj]. now apply squeezed_index_full. }
  assert (Hlen : forall ij, In ij cells -> length (V ij) = ar_nbin ar).
  { intros [i j] Hij. apply In_ndindex in Hij as [Hi Hj]. unfold V. simpl.
    rewrite remove_profile1d_length; [now apply Hp|]. rewrite Ht. symmetry. now apply Hp. }
  assert (Hres : forall ij, In ij cells ->
                 remove_profile1d_nd leastsq (Vec (ar_amps ar (fst ij) (snd ij))) (fst ij) (snd ij) template
                 = Ok (ij, Vec (V ij))).
  { intros [i j] Hij. apply In_ndindex in Hij as [Hi Hj]. simpl.
    apply remove_profile1d_nd_vec. rewrite Ht. symmetry. now apply Hp. }
  assert (Hmap : forall f, (forall ij, In ij cells -> f ij = Ok (ij, Vec (V ij))) ->
                 fold_left write_result (map f cells) (Ok tt, ar)
                 = (Ok tt, Archive1 (ar_nsubint ar) (ar_nchan ar) (ar_nbin ar)
                      (fold_left (fun d r => upd_cell d (fst (fst r)) (snd (fst r)) (snd r))
                                 (map (fun ij => (ij, V ij)) cells) (ar_amps ar))
                      (ar_weight ar))).
  { intros f Hf. rewrite (map_ext_in f (fun ij => Ok (ij, Vec (V ij))) cells Hf).
    now apply write_results_ok. }
  destruct (Nat.eqb nthreads 1) eqn:E1.
  - apply Nat.eqb_eq in E1. subst nthreads.
    rewrite remove_profile_inplace_serial. fold cells. apply Hmap.
    intros ij Hij. unfold inplace_cell. rewrite (Hsq ij Hij). simpl. now apply Hres.
  - unfold remove_profile_inplace. rewrite E1.
    replace (Nat.eqb nthreads 0) with false by (symmetry; apply Nat.eqb_neq; lia).
    fold cells.
    rewrite (mapM_all_ok _ (fun ij => Vec (ar_amps ar (fst ij) (snd ij))) cells Hsq).
    rewrite zipw_map_same. apply Hmap. exact Hres.
Qed.

(** C4: for a cell whose fit reports a status outside {1,2,3,4}, copy mode
    ([remove_profile], either branch, with [nthreads >= 1]) sets the
    cell's residual to zeros; in-place mode ([remove_profile_inplace])
    completes without setting the weight to 0: the weight is left as it
    was and the cell's amplitudes are overwritten with zeros.  The archive
    has at least two sub-integrations, channels and bins, and its profiles
    the template's length, so that [data[isub, ichan]] is the profile. *)
Theorem remove_profile_failed_fit_cell (leastsq : list Q -> list Q -> Q * Z)
    (ar : archive1) (template : list Q) (nthreads i j : nat) :
  (2 <= ar_nsubint ar)%nat -> (2 <= ar_nchan ar)%nat -> (2 <= ar_nbin ar)%nat ->
  length template = ar_nbin ar ->
  (forall i' j', (i' < ar_nsubint ar)%nat -> (j' < ar_nchan ar)%nat ->
                 length (ar_amps ar i' j') = ar_nbin ar) ->
  (0 < nthreads)%nat ->
  (i < ar_nsubint ar)%nat -> (j < ar_nchan ar)%nat ->
  fit_ok (snd (leastsq (ar_amps ar i j) template)) = false ->
  (exists d, remove_profile_call leastsq (ar_amps ar) (ar_nsubint ar) (ar_nchan ar) template nthreads
             = Ok d /\ d i j = map (fun _ => 0) (ar_amps ar i j)) /\
  (exists a, remove_profile_inplace leastsq ar template nthreads = (Ok tt, a) /\
             ar_weight a i j = ar_weight ar i j /\
             ar_amps a i j = map (fun _ => 0) (ar_amps ar i j)).
Proof.
  intros H1 H2 H3 Ht Hp Hn Hi Hj Hf.
  assert (Hin : ((i <? ar_nsubint ar)%nat && (j <? ar_nchan ar)%nat) = true)
    by (apply andb_true_iff; split; apply Nat.ltb_lt; assumption).
  split.
  - eexists. split.
    + unfold remove_profile_call.
      replace (Nat.eqb nthreads 0) with false by (symmetry; apply Nat.eqb_neq; lia).
      reflexivity.
    + unfold remove_profile. destruct (Nat.eqb nthreads 1);
        [rewrite remove_profile_serial_cell|rewrite remove_profile_pool_cell];
        rewrite Hin; now apply remove_profile1d_failed.
  - rewrite (remove_profile_inplace_ok leastsq ar template nthreads H1 H2 H3 Ht Hp Hn).
    eexists. split; [reflexivity|]. simpl. split; [reflexivity|].
    rewrite (fold_results_pointwise
               (fun ij => (ij, snd (remove_profile1d leastsq (ar_amps ar (fst ij) (snd ij))
                                                     (fst ij) (snd ij) template)))
               (fun ij => eq_refl)).
    replace (existsb _ _) with true.
    + simpl. now apply remove_profile1d_failed.
    + symmetry. apply cell_mem_In. now apply In_ndindex.
Qed.

Lemma remove_profile_failed_fit_cell_witness :
  let ar := Archive1 2 2 2 (fun _ _ => [1; 2]) (fun _ _ => 1) in
  let leastsq := fun _ _ : list Q => (0, 5%Z) in
  ((2 <= ar_nsubint ar)%nat /\ (2 <= ar_nchan ar)%nat /\ (2 <= ar_nbin ar)%nat /\
   length ([1; 1] : list Q) = ar_nbin ar /\
   (forall i' j', (i' < ar_nsubint ar)%nat -> (j' < ar_nchan ar)%nat ->
                  length (ar_amps ar i' j') = ar_nbin ar) /\
   (0 < 1)%nat /\ (1 < ar_nsubint ar)%nat /\ (0 < ar_nchan ar)%nat /\
   fit_ok (snd (leastsq (ar_amps ar 1%nat 0%nat) [1; 1])) = false) /\
  ((exists d, remove_profile_call leastsq (ar_amps ar) (ar_nsubint ar) (ar_nchan ar) [1; 1] 1
              = Ok d /\ d 1%nat 0%nat = map (fun _ => 0) (ar_amps ar 1%nat 0%nat)) /\
   (exists a, remove_profile_inplace leastsq ar [1; 1] 1 = (Ok tt, a) /\
              ar_weight a 1%nat 0%nat = ar_weight ar 1%nat 0%nat /\
              ar_amps a 1%nat 0%nat = map (fun _ => 0) (ar_amps ar 1%nat 0%nat))).
Proof.
  cbv zeta. split.
  - repeat split; try (intros; reflexivity); simpl; lia.
  - apply remove_profile_failed_fit_cell; try (intros; reflexivity); simpl; lia.
Defined.

(** C9: [remove_profile] with [nthreads = 1] (serial loop updating the
    cube in place) and with any [nthreads > 1] (pool of tasks on the
    submitted cells) give the same profile in every cell. *)
Theorem remove_profile_serial_eq_pool (leastsq : list Q -> list Q -> Q * Z)
    (data : cube) (nsubs nchans : nat) (template : list Q) (nthreads : nat) :
  (1 < nthreads)%nat ->
  forall i j,
  remove_profile leastsq data nsubs nchans template 1 i j
  = remove_profile leastsq data nsubs nchans template nthreads i j.
Proof.
  intros Hn i j. unfold remove_profile.
  replace (Nat.eqb nthreads 1) with false by (symmetry; apply Nat.eqb_neq; lia).
  rewrite (Nat.eqb_refl 1).
  now rewrite remove_profile_serial_cell, remove_profile_pool_cell.
Qed.

Lemma remove_profile_serial_eq_pool_witness :
  (1 < 4)%nat /\
  remove_profile (fun _ _ => (2, 1%Z)) (fun i j => [Qnat i; Qnat j]) 2 3 [1; 1] 1 1%nat 2%nat
  = remove_profile (fun _ _ => (2, 1%Z)) (fun i j => [Qnat i; Qnat j]) 2 3 [1; 1] 4 1%nat 2%nat.
Proof.
  split; [lia|]. apply remove_profile_serial_eq_pool. lia.
Defined.

(** * [clean_subint] *)

Lemma set_nth_length (i : nat) (v : Q) (l : list Q) : length (set_nth i v l) = length l.
Proof.
  revert i. induction l as [|x t IH]; intros [|i]; simpl; try reflexivity. now rewrite IH.
Qed.

Lemma set_nth_other (i b : nat) (v : Q) (l : list Q) :
  i <> b -> nth_error (set_nth i v l) b = nth_error l b.
Proof.
  revert i b. induction l as [|x t IH]; intros [|i] [|b] H; simpl; try reflexivity; try lia.
  apply IH. lia.
Qed.

Lemma write_bins_length (a : list Q) (bins : list nat) (noise : list Q) :
  length (write_bins a bins noise) = length a.
Proof.
  unfold write_bins. generalize (combine bins noise). intros L. revert a.
  induction L as [|iv L IH]; intros a; simpl; [reflexivity|].
  now rewrite IH, set_nth_length.
Qed.

Lemma write_bins_other (a : list Q) (bins : list nat) (noise : list Q) (b : nat) :
  ~ In b bins -> nth_error (write_bins a bins noise) b = nth_error a b.
Proof.
  intros Hb. unfold write_bins.
  assert (HL : forall iv, In iv (combine bins noise) -> fst iv <> b).
  { intros [i v] Hin. simpl. apply in_combine_l in Hin. congruence. }
  revert HL. generalize (combine bins noise). intros L. revert a.
  induction L as [|iv L IH]; intros a HL; simpl; [reflexivity|].
  rewrite IH by (intros; apply HL; now right).
  apply set_nth_other, HL. now left.
Qed.

Lemma profile_frame_refl isub s bins pr : profile_frame isub s bins pr pr.
Proof. repeat split; auto. Qed.

Lemma clean_profile_frame rng norm_rvs fsqrt mask bins pr (g : rng) pr' g' :
  clean_profile rng norm_rvs fsqrt mask bins pr g = (Ok pr', g') ->
  weight pr' = weight pr /\ length (amps pr') = length (amps pr) /\
  (weight pr == 0 -> amps pr' = amps pr) /\
  (forall b, ~ In b bins -> nth_error (amps pr') b = nth_error (amps pr) b).
Proof.
  unfold clean_profile. destruct (Qeq_bool (weight pr) 0) eqn:Ew.
  - intros H. injection H as <- _. auto.
  - destruct (negb _); [discriminate|].
    destruct (norm_rvs _ _ _ _) as [noise g1]. intros H. injection H as <- _.
    simpl. split; [reflexivity|]. split; [apply write_bins_length|]. split.
    + intros Hw. apply Qeq_bool_iff in Hw. congruence.
    + intros b Hb. now apply write_bins_other.
Qed.

Lemma clean_subint_fold_frame rng norm_rvs fsqrt (ar : archive) isub bins mask :
  forall (L : list (nat * nat)) (st : res unit * (archive * rng)),
  archive_frame isub bins ar (fst (snd st)) ->
  archive_frame isub bins ar
    (fst (snd (fold_left
       (fun st cp =>
          match st with
          | (Err e, s) => (Err e, s)
          | (Ok _, (a, g0)) =>
              let '(ichan, ipol) := cp in
              match clean_profile rng norm_rvs fsqrt mask bins (prof_at a isub ichan ipol) g0 with
              | (Ok pr', g1) => (Ok tt, (set_prof a isub ichan ipol pr', g1))
              | (Err e, g1) => (Err e, (a, g1))
              end
          end) L st))).
Proof.
  induction L as [|[c0 p0] L IH]; intros [r [a g0]] Hst; simpl; [exact Hst|].
  apply IH. destruct r as [u|e]; simpl; [|exact Hst].
  destruct (clean_profile rng norm_rvs fsqrt mask bins (prof_at a isub c0 p0) g0)
    as [[pr'|e] g1] eqn:Ec; simpl; [|exact Hst].
  apply clean_profile_frame in Ec as (Hw & Hl & Hz & Hb).
  destruct Hst as (H1 & H2 & H3 & H4 & H5). simpl in H1, H2, H3, H4, H5.
  split; [exact H1|]. split; [exact H2|]. split; [exact H3|]. split; [exact H4|].
  - intros s c p. simpl.
    destruct (Nat.eqb s isub && Nat.eqb c c0 && Nat.eqb p p0) eqn:E; [|apply H5].
    apply andb_true_iff in E as [E E3]. apply andb_true_iff in E as [E1 E2].
    apply Nat.eqb_eq in E1, E2, E3. subst.
    destruct (H5 isub c0 p0) as (W & L' & Z & B).
    split; [|split; [|split]].
    + congruence.
    + congruence.
    + intros [Hs|Hs]; [congruence|]. rewrite Hz; [apply Z; now right|]. rewrite W. exact Hs.
    + intros b Hnb. rewrite Hb by exact Hnb. now apply B.
Qed.

Lemma archive_frame_refl isub bins ar : archive_frame isub bins ar ar.
Proof.
  repeat split; intros; try reflexivity; apply profile_frame_refl.
Qed.

(** C10: whatever [clean_subint] returns, including when it stops on an
    exception, the archive it leaves behind has the same dimensions and
    the same weight in every profile; a profile of another
    sub-observation or of zero weight keeps all its amplitudes; and every
    profile keeps its length and its amplitudes at the bins not listed. *)
Theorem clean_subint_changes_only_listed_bins (rng : Type)
    (norm_rvs : rng -> Q -> Q -> nat -> list Q * rng) (fsqrt : Q -> Q)
    (ar : archive) (isub : nat) (bins : list nat) (g : rng) :
  let ar' := fst (snd (clean_subint rng norm_rvs fsqrt ar isub bins g)) in
  nsubint ar' = nsubint ar /\ nchan ar' = nchan ar /\ npol ar' = npol ar /\
  nbin ar' = nbin ar /\
  forall s c p,
    weight (prof_at ar' s c p) = weight (prof_at ar s c p) /\
    length (amps (prof_at ar' s c p)) = length (amps (prof_at ar s c p)) /\
    ((s <> isub \/ weight (prof_at ar s c p) == 0) ->
       amps (prof_at ar' s c p) = amps (prof_at ar s c p)) /\
    (forall b, ~ In b bins ->
       nth_error (amps (prof_at ar' s c p)) b = nth_error (amps (prof_at ar s c p)) b).
Proof.
  intros ar'. change (archive_frame isub bins ar ar'). unfold ar', clean_subint.
  destruct (bin_mask (nbin ar) bins) as [mask|e]; [|apply archive_frame_refl].
  destruct (nsubint ar <=? isub)%nat; [apply archive_frame_refl|].
  apply clean_subint_fold_frame. apply archive_frame_refl.
Qed.

Lemma clean_subint_changes_only_listed_bins_witness :
  let ar := Archive 2 1 1 3 (fun s _ _ => Prof (Qnat s) [1; 2; 3]) in
  let rvs := fun (g : unit) (_ _ : Q) (k : nat) => (repeat 7 k, g) in
  let ar' := fst (snd (clean_subint unit rvs (fun x => x) ar 1 [0%nat; 2%nat] tt)) in
  (nsubint ar' = nsubint ar /\ nchan ar' = nchan ar /\ npol ar' = npol ar /\
   nbin ar' = nbin ar /\
   forall s c p,
     weight (prof_at ar' s c p) = weight (prof_at ar s c p) /\
     length (amps (prof_at ar' s c p)) = length (amps (prof_at ar s c p)) /\
     ((s <> 1%nat \/ weight (prof_at ar s c p) == 0) ->
        amps (prof_at ar' s c p) = amps (prof_at ar s c p)) /\
     (forall b, ~ In b [0%nat; 2%nat] ->
        nth_error (amps (prof_at ar' s c p)) b = nth_error (amps (prof_at ar s c p)) b)) /\
  amps (prof_at ar' 1 0 0) = [7; 2; 7].
Proof.
  cbv zeta. split.
  - apply clean_subint_changes_only_listed_bins.
  - vm_compute. reflexivity.
Defined.

(** * Axis scalers *)

(** [channel_scaler] chains as the spec says. *)
Lemma channel_chain_from (chain : list detrend_cfg) :
  forall acc : res (list mq),
  fold_left (fun acc c => detrended <- acc ;; itd_cfg c detrended) chain acc
  = (d <- acc ;; chain_successive chain d).
Proof.
  induction chain as [|c cs IH]; intros acc; simpl.
  - now destruct acc.
  - rewrite IH. destruct acc as [a|e]; reflexivity.
Qed.

Lemma channel_chain_successive (chain : list detrend_cfg) (s : list mq) :
  channel_chain chain s = chain_successive chain s.
Proof. unfold channel_chain. now rewrite channel_chain_from. Qed.

(** In [subint_scaler] only the last entry of the chain decides the
    output (the earlier calls matter only through their exceptions). *)
Lemma subint_chain_snoc (chain : list detrend_cfg) (c : detrend_cfg) (s : list mq) :
  subint_chain (chain ++ [c]) s = (_ <- subint_chain chain s ;; itd_cfg c s).
Proof. unfold subint_chain. now rewrite fold_left_app. Qed.

(** C1: on the chain [(order 1, no breakpoints); (order 0, no
    breakpoints)] and the one-row matrix [[0 1 2 3 4 6]], [subint_scaler]
    does not give the scaled result of the successive chain: each call
    restarts from the raw row, so the order-1 detrend is lost. *)
Theorem subint_scaler_not_successive :
  subint_scaler [DCfg 1 [] None; DCfg 0 [] None] [[0; 1; 2; 3; 4; 6]]
  <> mapM (scale_along_axis_spec [DCfg 1 [] None; DCfg 0 [] None]) [[0; 1; 2; 3; 4; 6]].
Proof.
  intros H.
  apply (f_equal (fun r : res (list (list Q)) =>
                    match r with
                    | Ok m => Ok (map (map Qred) m)
                    | Err e => Err e
                    end)) in H.
  vm_compute in H. discriminate H.
Qed.

(** * [comprehensive_stats] *)

Lemma mulmod_complement (n k j : nat) :
  (0 < k < n)%nat ->
  (j * (n - k)) mod n = if Nat.eqb ((j * k) mod n) 0 then 0%nat else (n - (j * k) mod n)%nat.
Proof.
  intros Hk.
  assert (Hn : n <> 0%nat) by lia.
  pose proof (Nat.div_mod (j * k) n Hn) as Hd.
  pose proof (Nat.mod_upper_bound (j * k) n Hn) as Hb.
  set (q := ((j * k) / n)%nat) in *. set (a := ((j * k) mod n)%nat) in *.
  assert (Hq : (q <= j)%nat) by nia.
  destruct (Nat.eqb a 0) eqn:Ea.
  - apply Nat.eqb_eq in Ea. symmetry.
    apply (Nat.mod_unique _ _ (j - q) 0); [lia|].
    rewrite Nat.mul_sub_distr_l. rewrite Nat.mul_sub_distr_l. nia.
  - apply Nat.eqb_neq in Ea. symmetry.
    assert (Hq' : (q < j)%nat) by nia.
    apply (Nat.mod_unique _ _ (j - q - 1) (n - a)); [lia|].
    rewrite Nat.mul_sub_distr_l. rewrite !Nat.mul_sub_distr_l. nia.
Qed.

(** [np.max] of a list is not changed by appending values equal to
    elements already in it. *)
Lemma Qmax_left_eq (x y : Q) : y <= x -> Qmax x y = x.
Proof.
  intros H. unfold Qmax, GenericMinMax.gmax.
  destruct (Qcompare x y) eqn:E; try reflexivity.
  apply Qlt_alt in E. exfalso. now apply (Qlt_not_le x y).
Qed.

Lemma fold_Qmax_ge (l : list Q) :
  forall acc, acc <= fold_left Qmax l acc /\ (forall x, In x l -> x <= fold_left Qmax l acc).
Proof.
  induction l as [|y t IH]; intros acc; simpl.
  - split; [apply Qle_refl|tauto].
  - destruct (IH (Qmax acc y)) as [H1 H2]. split.
    + eapply Qle_trans; [apply Q.le_max_l|exact H1].
    + intros x [<-|Hx]; [|now apply H2].
      eapply Qle_trans; [apply Q.le_max_r|exact H1].
Qed.

Lemma fold_Qmax_id (l : list Q) :
  forall acc, (forall y, In y l -> y <= acc) -> fold_left Qmax l acc = acc.
Proof.
  induction l as [|y t IH]; intros acc H; simpl; [reflexivity|].
  rewrite Qmax_left_eq by (apply H; now left). apply IH. intros z Hz. apply H. now right.
Qed.

Lemma max_list_app_dup (l1 l2 : list Q) :
  l1 <> [] -> (forall y, In y l2 -> exists x, In x l1 /\ y == x) ->
  max_list (l1 ++ l2) = max_list l1.
Proof.
  destruct l1 as [|a t]; [congruence|]. intros _ H.
  unfold max_list. simpl. rewrite fold_left_app. apply fold_Qmax_id.
  intros y Hy. destruct (H y Hy) as [x [Hx Hyx]]. rewrite Hyx.
  destruct (fold_Qmax_ge t a) as [G1 G2].
  destruct Hx as [<-|Hx]; [exact G1|now apply G2].
Qed.

Section DftSymmetry.

Variable fsqrt : Q -> Q.
Variable tw_cos tw_sin : nat -> nat -> Q.
Hypothesis fsqrt_proper : forall a b, a == b -> fsqrt a == fsqrt b.
Hypothesis tw_cos_sym : forall n m : nat, (0 < m < n)%nat -> tw_cos n (n - m)%nat == tw_cos n m.
Hypothesis tw_sin_sym : forall n m : nat, (0 < m < n)%nat -> tw_sin n (n - m)%nat == - tw_sin n m.
Hypothesis tw_sin_0 : forall n : nat, tw_sin n 0%nat == 0.

Lemma dft_mag_conj (x : list Q) (k : nat) :
  (0 < k < length x)%nat ->
  dft_mag fsqrt tw_cos tw_sin x (length x - k) == dft_mag fsqrt tw_cos tw_sin x k.
Proof.
  intros Hk. unfold dft_mag, dft_coeff. apply fsqrt_proper.
  set (n := length x) in *.
  assert (Hc : forall jv : nat * Q,
             snd jv * tw_cos n ((fst jv * (n - k)) mod n) == snd jv * tw_cos n ((fst jv * k) mod n)).
  { intros [j v]. simpl. rewrite mulmod_complement by lia.
    destruct (Nat.eqb ((j * k) mod n) 0) eqn:E.
    - apply Nat.eqb_eq in E. now rewrite E.
    - apply Nat.eqb_neq in E. rewrite tw_cos_sym; [reflexivity|].
      pose proof (Nat.mod_upper_bound (j * k) n ltac:(lia)). lia. }
  assert (Hs : forall jv : nat * Q,
             snd jv * tw_sin n ((fst jv * (n - k)) mod n) == - (snd jv * tw_sin n ((fst jv * k) mod n))).
  { intros [j v]. simpl. rewrite mulmod_complement by lia.
    destruct (Nat.eqb ((j * k) mod n) 0) eqn:E.
    - apply Nat.eqb_eq in E. rewrite E, tw_sin_0. ring.
    - apply Nat.eqb_neq in E. rewrite tw_sin_sym; [ring|].
      pose proof (Nat.mod_upper_bound (j * k) n ltac:(lia)). lia. }
  rewrite (sumQ_ext _ _ _ Hc), (sumQ_ext _ _ _ Hs).
  assert (Hneg : forall l : list (nat * Q), forall f : nat * Q -> Q,
             sumQ (map (fun jv => - f jv) l) == - sumQ (map f l)).
  { intros l f. induction l as [|y t IH]; simpl; [reflexivity|]. rewrite IH. ring. }
  rewrite Hneg. ring.
Qed.

(** For a non-empty slice, the largest magnitude of [rfft] (coefficients
    [0 .. n//2]) is the largest magnitude over the whole DFT. *)
Lemma rfft_absmax_full (x : list Q) :
  (0 < length x)%nat ->
  rfft_absmax fsqrt tw_cos tw_sin x = dft_absmax_full fsqrt tw_cos tw_sin x.
Proof.
  intros Hn. unfold rfft_absmax, dft_absmax_full.
  set (n := length x) in *.
  set (h := (n / 2 + 1)%nat).
  pose proof (Nat.div_mod n 2 ltac:(lia)) as Hd.
  pose proof (Nat.mod_upper_bound n 2 ltac:(lia)) as Hb.
  assert (Hh : (h <= n)%nat) by (unfold h; lia).
  replace (seq 0 n) with (seq 0 h ++ seq h (n - h))
    by (rewrite <- seq_app; f_equal; lia).
  rewrite map_app. symmetry. apply max_list_app_dup.
  - unfold h. rewrite Nat.add_1_r. simpl. discriminate.
  - intros y Hy. apply in_map_iff in Hy as [k [<- Hk]]. apply in_seq in Hk.
    exists (dft_mag fsqrt tw_cos tw_sin x (n - k)). split.
    + apply in_map. apply in_seq. unfold h in *. lia.
    + rewrite <- (dft_mag_conj x (n - k)) by (fold n; lia).
      fold n. replace (n - (n - k))%nat with k by lia. reflexivity.
Qed.

End DftSymmetry.

Lemma insertQ_length (x : Q) (l : list Q) : length (insertQ x l) = S (length l).
Proof.
  induction l as [|y t IH]; simpl; [reflexivity|].
  destruct (Qle_bool x y); simpl; [reflexivity|]. now rewrite IH.
Qed.

Lemma sortQ_length (l : list Q) : length (sortQ l) = length l.
Proof.
  induction l as [|x t IH]; simpl; [reflexivity|].
  unfold sortQ in *; simpl. now rewrite insertQ_length, IH.
Qed.

(** [np.median] of four values is the mean of the two middle ones. *)
Lemma median_list_four (l : list Q) :
  length l = 4%nat -> median_list l = median_of_four l.
Proof.
  intros H. unfold median_list, median_of_four. rewrite sortQ_length, H. reflexivity.
Qed.

Lemma mapM_length {A B : Type} (f : A -> res B) (l : list A) (r : list B) :
  mapM f l = Ok r -> length r = length l.
Proof.
  revert r. induction l as [|x t IH]; intros r H; simpl in H.
  - now injection H as <-.
  - destruct (f x) as [y|e]; [|discriminate]. simpl in H.
    destruct (mapM f t) as [ys|e] eqn:E; [|discriminate]. simpl in H.
    injection H as <-. simpl. now rewrite (IH ys).
Qed.

Lemma mapM_map {A B C : Type} (g : B -> res C) (f : A -> B) (l : list A) :
  mapM g (map f l) = mapM (fun x => g (f x)) l.
Proof. induction l as [|x t IH]; simpl; [reflexivity|]. now rewrite IH. Qed.

Lemma mapM_Forall2 {A A' B : Type} (f : A -> res B) (g : A' -> res B) (l : list A) (l' : list A') :
  Forall2 (fun x y => f x = g y) l l' -> mapM f l = mapM g l'.
Proof. induction 1 as [|x y t t' Hxy _ IH]; simpl; [reflexivity|]. now rewrite Hxy, IH. Qed.

Lemma bind_ext {A B : Type} (m1 m2 : res A) (k1 k2 : A -> res B) :
  m1 = m2 -> (forall a, m1 = Ok a -> k1 a = k2 a) -> bind m1 k1 = bind m2 k2.
Proof. intros <- H. destruct m1 as [a|e]; simpl; [now apply H|reflexivity]. Qed.

Lemma has_empty_slice_false (data : list (list (list Q))) (row : list (list Q)) (x : list Q) :
  has_empty_slice data = false -> In row data -> In x row -> (0 < length x)%nat.
Proof.
  intros H Hr Hx. destruct (length x) eqn:E; [|lia]. exfalso.
  assert (Ht : has_empty_slice data = true).
  { apply existsb_exists. exists row. split; [exact Hr|].
    apply existsb_exists. exists x. split; [exact Hx|]. now rewrite E. }
  congruence.
Qed.


(** * Parameter strings *)

Lemma all_chars_app (p : ascii -> bool) (a b : string) :
  all_chars p (String.append a b) = all_chars p a && all_chars p b.
Proof. induction a as [|c t IH]; simpl; [reflexivity|]. rewrite IH. apply andb_assoc. Qed.

Lemma all_chars_impl (p q : ascii -> bool) (s : string) :
  (forall c, p c = true -> q c = true) -> all_chars p s = true -> all_chars q s = true.
Proof.
  intros H. induction s as [|c t IH]; simpl; [reflexivity|].
  intros E. apply andb_true_iff in E as [E1 E2]. rewrite (H c E1). now apply IH.
Qed.

Lemma blank_app (a b : string) : blank (String.append a b) = blank a && blank b.
Proof. induction a as [|c t IH]; simpl; [reflexivity|]. rewrite IH. apply andb_assoc. Qed.

Lemma string_length_app (a b : string) :
  String.length (String.append a b) = (String.length a + String.length b)%nat.
Proof. induction a as [|c t IH]; simpl; [reflexivity|]. now rewrite IH. Qed.


Lemma string_of_uint_chars (d : Decimal.uint) :
  all_chars is_digit (NilEmpty.string_of_uint d) = true.
Proof. induction d; simpl; auto. Qed.

Lemma fmt_d_chars (z : Z) : all_chars fmt_char (fmt_d z) = true.
Proof.
  assert (Hu : forall d, all_chars fmt_char (NilZero.string_of_uint d) = true).
  { intros d. unfold NilZero.string_of_uint.
    assert (Hd : all_chars fmt_char (NilEmpty.string_of_uint d) = true).
    { apply (all_chars_impl is_digit); [|apply string_of_uint_chars].
      intros c H. unfold fmt_char. now rewrite H. }
    destruct d; first [reflexivity | exact Hd]. }
  unfold fmt_d, NilZero.string_of_int. destruct (Z.to_int z) as [d|d]; [apply Hu|].
  simpl. apply Hu.
Qed.

Ltac ascii_cases c := destruct c as [[] [] [] [] [] [] [] []].

Lemma fmt_char_norm (c : ascii) : fmt_char c = true -> norm_char c = true.
Proof. intros H. unfold norm_char. now rewrite H. Qed.

Lemma fmt_char_not_space (c : ascii) : fmt_char c = true -> is_space c = false.
Proof. ascii_cases c; vm_compute; congruence. Qed.

Lemma fmt_char_not_semi (c : ascii) : fmt_char c = true -> negb (Ascii.eqb c ";"%char) = true.
Proof. ascii_cases c; vm_compute; congruence. Qed.

Lemma fmt_char_not_colon (c : ascii) : fmt_char c = true -> negb (Ascii.eqb c ":"%char) = true.
Proof. ascii_cases c; vm_compute; congruence. Qed.

Lemma norm_char_lower (c : ascii) : norm_char c = true -> lower_char c = c.
Proof. ascii_cases c; vm_compute; congruence. Qed.

Lemma py_lower_norm (s : string) : all_chars norm_char s = true -> py_lower s = s.
Proof.
  induction s as [|c t IH]; simpl; [reflexivity|].
  intros H. apply andb_true_iff in H as [H1 H2]. now rewrite norm_char_lower, IH.
Qed.

Lemma norm_not_none (s : string) : all_chars norm_char s = true -> py_lower s <> "none"%string.
Proof. intros H. rewrite (py_lower_norm s H). intros ->. discriminate H. Qed.

Lemma fmt_d_head (z : Z) : exists c t, fmt_d z = String c t /\ fmt_char c = true.
Proof.
  unfold fmt_d, NilZero.string_of_int. destruct (Z.to_int z) as [d|d].
  - unfold NilZero.string_of_uint. destruct d; simpl; eexists _, _; split; reflexivity.
  - simpl. eexists _, _; split; reflexivity.
Qed.

Lemma fmt_d_not_blank (z : Z) : blank (fmt_d z) = false.
Proof.
  destruct (fmt_d_head z) as (c & t & E & H). rewrite E. simpl.
  now rewrite (fmt_char_not_space c H).
Qed.

Lemma fmt_d_norm (z : Z) : all_chars norm_char (fmt_d z) = true.
Proof. apply (all_chars_impl fmt_char); [exact fmt_char_norm | apply fmt_d_chars]. Qed.

Lemma fmt_d_nosemi (z : Z) : all_chars (fun x => negb (Ascii.eqb x ";"%char)) (fmt_d z) = true.
Proof. apply (all_chars_impl fmt_char); [exact fmt_char_not_semi | apply fmt_d_chars]. Qed.

Lemma fmt_d_nocolon (z : Z) : all_chars (fun x => negb (Ascii.eqb x ":"%char)) (fmt_d z) = true.
Proof. apply (all_chars_impl fmt_char); [exact fmt_char_not_colon | apply fmt_d_chars]. Qed.

Lemma append_empty_r (s : string) : String.append s EmptyString = s.
Proof. induction s as [|c t IH]; simpl; [reflexivity|]. now rewrite IH. Qed.

Lemma all_chars_concat (p : ascii -> bool) (sep : string) (ws : list string) :
  all_chars p sep = true -> Forall (fun w => all_chars p w = true) ws ->
  all_chars p (String.concat sep ws) = true.
Proof.
  intros Hs Hw. induction Hw as [|w ws Hw1 Hw2 IH]; [reflexivity|].
  destruct ws as [|w2 ws']; [exact Hw1|].
  change (all_chars p (String.append w (String.append sep (String.concat sep (w2 :: ws')))) = true).
  now rewrite !all_chars_app, Hw1, Hs, IH.
Qed.

Lemma blank_concat (sep : string) (ws : list string) (w : string) :
  In w ws -> blank w = false -> blank (String.concat sep ws) = false.
Proof.
  intros Hin Hb. induction ws as [|w1 ws IH]; [destruct Hin|].
  destruct Hin as [->|Hin].
  - destruct ws as [|w2 ws']; [exact Hb|].
    change (blank (String.append w (String.append sep (String.concat sep (w2 :: ws')))) = false).
    now rewrite blank_app, Hb.
  - destruct ws as [|w2 ws']; [destruct Hin|].
    change (blank (String.append w1 (String.append sep (String.concat sep (w2 :: ws')))) = false).
    rewrite !blank_app, (IH Hin). now rewrite !andb_false_r.
Qed.

Lemma py_split_nonempty (sep : ascii) (s : string) : py_split sep s <> [].
Proof.
  induction s as [|c t IH]; simpl; [discriminate|].
  destruct (py_split sep t); [contradiction|]. destruct (Ascii.eqb c sep); discriminate.
Qed.

Lemma py_split_app_nosep (sep : ascii) (w r : string) :
  all_chars (fun x => negb (Ascii.eqb x sep)) w = true ->
  py_split sep (String.append w r) =
  match py_split sep r with [] => [] | v :: vs => String.append w v :: vs end.
Proof.
  induction w as [|c t IH]; simpl; intros H.
  - destruct (py_split sep r); reflexivity.
  - apply andb_true_iff in H as [H1 H2]. apply negb_true_iff in H1.
    rewrite (IH H2). destruct (py_split sep r); [reflexivity|]. now rewrite H1.
Qed.

Lemma py_split_concat (sep : ascii) (ws : list string) :
  ws <> [] -> Forall (fun w => all_chars (fun x => negb (Ascii.eqb x sep)) w = true) ws ->
  py_split sep (String.concat (String sep EmptyString) ws) = ws.
Proof.
  intros Hne Hw. induction Hw as [|w ws Hw1 Hw2 IH]; [contradiction|].
  destruct ws as [|w2 ws'].
  - simpl String.concat. rewrite <- (append_empty_r w) at 1.
    rewrite (py_split_app_nosep sep w EmptyString Hw1). simpl. now rewrite append_empty_r.
  - change (py_split sep (String.append w (String sep (String.concat (String sep EmptyString) (w2 :: ws'))))
            = w :: w2 :: ws').
    rewrite (py_split_app_nosep sep w _ Hw1). cbn [py_split].
    rewrite (IH ltac:(discriminate)), Ascii.eqb_refl. simpl. now rewrite append_empty_r.
Qed.

Lemma mapM_inverse {A B : Type} (f : A -> res B) (g : B -> A) (l : list B) :
  (forall x, In x l -> f (g x) = Ok x) -> mapM f (map g l) = Ok l.
Proof.
  induction l as [|x t IH]; simpl; intros H; [reflexivity|].
  rewrite (H x (or_introl eq_refl)). simpl.
  rewrite IH by (intros y Hy; apply H; now right). reflexivity.
Qed.

Lemma fmt_ints_cons (z : Z) (t : list Z) :
  exists x, fmt_ints (z :: t) = String.append (fmt_d z) x.
Proof.
  destruct t as [|z2 t'].
  - exists EmptyString. unfold fmt_ints. simpl. now rewrite append_empty_r.
  - eexists. reflexivity.
Qed.

Lemma fmt_ints_not_blank (l : list Z) : l <> [] -> blank (fmt_ints l) = false.
Proof.
  destruct l as [|z t]; [contradiction|]. intros _.
  destruct (fmt_ints_cons z t) as [x ->]. now rewrite blank_app, fmt_d_not_blank.
Qed.

Lemma fmt_ints_norm (l : list Z) : all_chars norm_char (fmt_ints l) = true.
Proof.
  apply all_chars_concat; [reflexivity|].
  apply Forall_forall. intros w Hw. apply in_map_iff in Hw as (z & <- & _). apply fmt_d_norm.
Qed.

Lemma str_to_intlist_fmt (py_int : string -> option Z) (l : list Z) :
  (forall z, In z l -> py_int (fmt_d z) = Some z) ->
  str_to_intlist py_int (fmt_ints l) = Ok l.
Proof.
  intros H. unfold str_to_intlist.
  destruct l as [|z t]; [reflexivity|].
  rewrite (fmt_ints_not_blank (z :: t) ltac:(discriminate)).
  unfold fmt_ints. rewrite py_split_concat.
  - apply mapM_inverse. intros x Hx. unfold int_of. now rewrite H.
  - discriminate.
  - apply Forall_forall. intros w Hw. apply in_map_iff in Hw as (x & <- & _). apply fmt_d_nosemi.
Qed.

Lemma no_dsemi_app_nosemi (a r : string) :
  all_chars (fun x => negb (Ascii.eqb x ";"%char)) a = true ->
  no_dsemi (String.append a r) = no_dsemi r.
Proof.
  induction a as [|c t IH]; simpl; intros H; [reflexivity|].
  apply andb_true_iff in H as [H1 H2]. apply negb_true_iff in H1.
  rewrite H1, (IH H2). reflexivity.
Qed.

Lemma no_dsemi_fmt_ints (l : list Z) : no_dsemi (fmt_ints l) = true.
Proof.
  induction l as [|z t IH]; [reflexivity|].
  destruct t as [|z2 t'].
  - unfold fmt_ints. simpl String.concat. rewrite <- (append_empty_r (fmt_d z)).
    now rewrite no_dsemi_app_nosemi by apply fmt_d_nosemi.
  - change (no_dsemi (String.append (fmt_d z) (String ";" (fmt_ints (z2 :: t')))) = true).
    rewrite no_dsemi_app_nosemi by apply fmt_d_nosemi.
    destruct (fmt_ints_cons z2 t') as [x Ex].
    destruct (fmt_d_head z2) as (c & u & Ec & Hc).
    cbn [no_dsemi]. rewrite IH, Ex, Ec. simpl.
    now rewrite (fmt_char_not_semi c Hc).
Qed.

Lemma partition_dsemi_step (c c' : ascii) (u : string) :
  partition_dsemi (String c (String c' u)) =
  if Ascii.eqb c ";"%char && Ascii.eqb c' ";"%char then (EmptyString, ";;"%string, u)
  else let '(a, m, b) := partition_dsemi (String c' u) in (String c a, m, b).
Proof. reflexivity. Qed.

Lemma partition_dsemi_app (a r : string) :
  no_dsemi a = true ->
  partition_dsemi (String.append a (String ";" (String ";" r))) = (a, ";;"%string, r).
Proof.
  induction a as [|c t IH]; intros H; [reflexivity|].
  cbn [no_dsemi] in H. apply andb_true_iff in H as [H1 H2].
  destruct t as [|c' t'].
  - destruct (Ascii.eqb c ";"%char) eqn:Ec; [discriminate|].
    simpl. rewrite Ec. reflexivity.
  - change (partition_dsemi (String c (String c' (String.append t' (String ";" (String ";" r)))))
            = (String c (String c' t'), ";;"%string, r)).
    rewrite partition_dsemi_step.
    replace (Ascii.eqb c ";"%char && Ascii.eqb c' ";"%char) with false.
    + change (String c' (String.append t' (String ";" (String ";" r))))
        with (String.append (String c' t') (String ";" (String ";" r))).
      now rewrite (IH H2).
    + destruct (Ascii.eqb c ";"%char); [|reflexivity].
      apply negb_true_iff in H1. now rewrite H1.
Qed.

Lemma partition_dsemi_none (a : string) :
  no_dsemi a = true -> partition_dsemi a = (a, EmptyString, EmptyString).
Proof.
  induction a as [|c t IH]; intros H; [reflexivity|].
  cbn [no_dsemi] in H. apply andb_true_iff in H as [H1 H2].
  destruct t as [|c' t']; [reflexivity|].
  rewrite partition_dsemi_step.
  replace (Ascii.eqb c ";"%char && Ascii.eqb c' ";"%char) with false.
  + rewrite (IH H2). reflexivity.
  + destruct (Ascii.eqb c ";"%char); [|reflexivity].
    apply negb_true_iff in H1. now rewrite H1.
Qed.

Lemma eqb_append_nonempty (a : string) (c : ascii) (r : string) :
  String.eqb (String.append a (String c r)) EmptyString = false.
Proof. destruct a; reflexivity. Qed.

Lemma intlistlist_loop_concat (py_int : string -> option Z) (xs : list string) :
  Forall (fun x => no_dsemi x = true) xs ->
  (xs <> [] -> last xs EmptyString <> EmptyString) ->
  forall fuel, (length xs <= fuel)%nat ->
  intlistlist_loop py_int fuel (String.concat ";;" xs) = mapM (str_to_intlist py_int) xs.
Proof.
  intros Hf. induction Hf as [|x xs Hx Hxs IH]; intros Hlast fuel Hlen.
  - destruct fuel; reflexivity.
  - destruct fuel as [|f]; [simpl in Hlen; lia|].
    destruct xs as [|y ys].
    + simpl String.concat. simpl in Hlast.
      assert (Hne : x <> EmptyString) by (apply Hlast; discriminate).
      cbn [intlistlist_loop]. rewrite (proj2 (String.eqb_neq x EmptyString) Hne).
      rewrite (partition_dsemi_none x Hx).
      assert (E0 : intlistlist_loop py_int f EmptyString = Ok []) by (destruct f; reflexivity).
      simpl. rewrite E0. reflexivity.
    + change (String.concat ";;" (x :: y :: ys))
        with (String.append x (String ";" (String ";" (String.concat ";;" (y :: ys))))).
      cbn [intlistlist_loop]. rewrite eqb_append_nonempty, (partition_dsemi_app x _ Hx).
      simpl in Hlen. rewrite IH.
      * reflexivity.
      * intros _. apply Hlast. discriminate.
      * simpl. lia.
Qed.

Lemma length_concat_dsemi (xs : list string) :
  (length xs <= S (String.length (String.concat ";;" xs)))%nat.
Proof.
  induction xs as [|x xs IH]; [simpl; lia|].
  destruct xs as [|y ys]; [simpl; lia|].
  change (String.concat ";;" (x :: y :: ys))
    with (String.append x (String.append ";;" (String.concat ";;" (y :: ys)))).
  rewrite !string_length_app. simpl in *. lia.
Qed.

Lemma mapM_err_valueerror {A B : Type} (f : A -> res B) (l : list A) (x : A) :
  (forall y e, f y = Err e -> e = ValueError) -> In x l -> f x = Err ValueError ->
  mapM f l = Err ValueError.
Proof.
  intros Hf Hin Hx. induction l as [|a t IH]; [destruct Hin|]. simpl.
  destruct (f a) as [b|e] eqn:Ea.
  - destruct Hin as [->|Hin]; [congruence|]. simpl. now rewrite (IH Hin).
  - simpl. now rewrite (Hf a e Ea).
Qed.

Lemma to_int_pair_err (py_int : string -> option Z) (s : string) (e : pyexc) :
  to_int_pair py_int s = Err e -> e = ValueError.
Proof.
  unfold to_int_pair, int_of.
  destruct (py_split ":" s) as [|a [|b [|c r]]]; simpl; try congruence.
  destruct (py_int a); destruct (py_int b); simpl; congruence.
Qed.

Lemma fmt_pair_split (p : Z * Z) :
  py_split ":" (fmt_pair p) = [fmt_d (fst p); fmt_d (snd p)].
Proof.
  change (fmt_pair p) with (String.concat ":" [fmt_d (fst p); fmt_d (snd p)]).
  apply py_split_concat; [discriminate|].
  repeat constructor; apply fmt_d_nocolon.
Qed.

Lemma fmt_pair_nosemi (p : Z * Z) :
  all_chars (fun x => negb (Ascii.eqb x ";"%char)) (fmt_pair p) = true.
Proof. unfold fmt_pair. rewrite !all_chars_app, !fmt_d_nosemi. reflexivity. Qed.

Lemma fmt_pair_norm (p : Z * Z) : all_chars norm_char (fmt_pair p) = true.
Proof. unfold fmt_pair. rewrite !all_chars_app, !fmt_d_norm. reflexivity. Qed.

Lemma fmt_pair_not_blank (p : Z * Z) : blank (fmt_pair p) = false.
Proof. unfold fmt_pair. now rewrite blank_app, fmt_d_not_blank. Qed.

Lemma last_map_gen {A B : Type} (f : A -> B) (l : list A) (d : A) :
  last (map f l) (f d) = f (last l d).
Proof.
  induction l as [|a t IH]; [reflexivity|].
  destruct t as [|b u]; [reflexivity|]. exact IH.
Qed.

Lemma partition_dsemi_rest_le (s : string) :
  (String.length (snd (partition_dsemi s)) <= String.length s)%nat.
Proof.
  induction s as [|c t IH]; [simpl; lia|].
  destruct t as [|c' t']; [simpl; lia|].
  rewrite partition_dsemi_step.
  destruct (Ascii.eqb c ";"%char && Ascii.eqb c' ";"%char); [simpl; lia|].
  destruct (partition_dsemi (String c' t')) as [[a m] b]. simpl in *. lia.
Qed.

Lemma partition_dsemi_rest_lt (c : ascii) (t : string) :
  (String.length (snd (partition_dsemi (String c t))) < String.length (String c t))%nat.
Proof.
  destruct t as [|c' t']; [simpl; lia|].
  rewrite partition_dsemi_step.
  destruct (Ascii.eqb c ";"%char && Ascii.eqb c' ";"%char); [simpl; lia|].
  pose proof (partition_dsemi_rest_le (String c' t')) as H.
  destruct (partition_dsemi (String c' t')) as [[a m] b]. simpl in *. lia.
Qed.

(** The fuel of [intlistlist_loop] never runs out before the [while] loop
    ends: any fuel above the length of the remainder gives the same
    result. *)
Lemma intlistlist_loop_fuel (py_int : string -> option Z) (f : nat) :
  forall r g, (String.length r < f)%nat -> (f <= g)%nat ->
  intlistlist_loop py_int g r = intlistlist_loop py_int f r.
Proof.
  induction f as [|f IH]; intros r g Hr Hg; [lia|].
  destruct g as [|g]; [lia|]. cbn [intlistlist_loop].
  destruct (String.eqb r "") eqn:Er; [reflexivity|].
  destruct r as [|c t]; [discriminate|].
  pose proof (partition_dsemi_rest_lt c t) as Hlt.
  destruct (partition_dsemi (String c t)) as [[a m] b]. simpl in Hlt.
  rewrite (IH b g) by (simpl in Hr; lia). reflexivity.
Qed.

(** ** Properties of the configuration types *)

(** [BoolVal.normalize_param_string] gives ["True"] or ["False"]; that
    string parses to the same boolean, and normalizing it again returns it
    unchanged. *)
Theorem boolval_normalize_stable (s t : string) :
  boolval_normalize s = Ok t ->
  boolval_get t = boolval_get s /\ boolval_normalize t = Ok t.
Proof.
  unfold boolval_normalize. destruct (boolval_get s) as [b|e] eqn:E; simpl; intros H;
    [|discriminate].
  injection H as <-. destruct b; split; reflexivity.
Qed.

Lemma boolval_normalize_stable_witness :
  boolval_normalize "YES"%string = Ok "True"%string /\
  boolval_get "True"%string = boolval_get "YES"%string /\
  boolval_normalize "True"%string = Ok "True"%string.
Proof.
  split; [reflexivity|]. apply boolval_normalize_stable. reflexivity.
Defined.

(** [_str_to_intlist] inverts the [";".join(["%d" % ii ...])] formatting:
    for every integer list, provided [int] reads back what ["%d"] writes. *)
Theorem str_to_intlist_roundtrip (py_int : string -> option Z) (l : list Z) :
  (forall z, In z l -> py_int (fmt_d z) = Some z) ->
  str_to_intlist py_int (fmt_ints l) = Ok l.
Proof. apply str_to_intlist_fmt. Qed.

Lemma str_to_intlist_roundtrip_witness :
  (forall z, In z [3; -12; 0]%Z -> py_int_dec (fmt_d z) = Some z) /\
  str_to_intlist py_int_dec (fmt_ints [3; -12; 0]%Z) = Ok [3; -12; 0]%Z.
Proof.
  assert (H : forall z, In z [3; -12; 0]%Z -> py_int_dec (fmt_d z) = Some z).
  { intros z Hz. simpl in Hz. intuition subst; reflexivity. }
  split; [exact H|]. exact (str_to_intlist_roundtrip py_int_dec [3; -12; 0]%Z H).
Defined.

(** [IntList.normalize_param_string] keeps the value: when a string parses,
    its normal form parses to the same value ([None] or the same list). *)
Theorem intlist_normalize_keeps_value (py_int : string -> option Z) (s : string)
    (v : option (list Z)) :
  intlist_get py_int s = Ok v ->
  (forall l z, v = Some l -> In z l -> py_int (fmt_d z) = Some z) ->
  exists t, intlist_normalize py_int s = Ok t /\ intlist_get py_int t = Ok v.
Proof.
  intros Hg Hz. unfold intlist_normalize. rewrite Hg. simpl.
  destruct v as [l|]; [|exists "None"%string; split; reflexivity].
  eexists; split; [reflexivity|]. unfold intlist_get.
  rewrite (proj2 (String.eqb_neq _ _) (norm_not_none _ (fmt_ints_norm l))).
  rewrite (str_to_intlist_fmt py_int l (fun z Hin => Hz l z eq_refl Hin)). reflexivity.
Qed.

Lemma intlist_normalize_keeps_value_witness :
  intlist_get py_int_dec "7;-2;10"%string = Ok (Some [7; -2; 10]%Z) /\
  exists t, intlist_normalize py_int_dec "7;-2;10"%string = Ok t /\
            intlist_get py_int_dec t = Ok (Some [7; -2; 10]%Z).
Proof.
  split; [reflexivity|]. apply intlist_normalize_keeps_value; [reflexivity|].
  intros l z E Hz. injection E as <-. simpl in Hz. intuition subst; reflexivity.
Defined.

(** [IntListList.normalize_param_string] keeps the value of a string that
    parses, provided the last inner list of the value is not empty (the
    normal form of a value ending in an empty list ends in [";;"], which
    [partition] drops). *)
Theorem intlistlist_normalize_keeps_value (py_int : string -> option Z) (s : string)
    (v : option (list (list Z))) :
  intlistlist_get py_int s = Ok v ->
  (forall ls, v = Some ls -> ls <> [] -> last ls [] <> []) ->
  (forall ls l z, v = Some ls -> In l ls -> In z l -> py_int (fmt_d z) = Some z) ->
  exists t, intlistlist_normalize py_int s = Ok t /\ intlistlist_get py_int t = Ok v.
Proof.
  intros Hg Hlast Hz. unfold intlistlist_normalize. rewrite Hg. simpl.
  destruct v as [ls|]; [|exists "None"%string; split; reflexivity].
  eexists; split; [reflexivity|]. unfold intlistlist_get.
  assert (Hn : all_chars norm_char (String.concat ";;" (map fmt_ints ls)) = true).
  { apply all_chars_concat; [reflexivity|]. apply Forall_forall.
    intros w Hw. apply in_map_iff in Hw as (l & <- & _). apply fmt_ints_norm. }
  rewrite (proj2 (String.eqb_neq _ _) (norm_not_none _ Hn)).
  destruct ls as [|l0 ls'] eqn:Els; [reflexivity|].
  rewrite <- Els in *.
  assert (Hne : ls <> []) by (rewrite Els; discriminate).
  specialize (Hlast ls eq_refl Hne).
  assert (Hlm : last (map fmt_ints ls) EmptyString = fmt_ints (last ls [])).
  { change EmptyString with (fmt_ints []). apply last_map_gen. }
  assert (Hin : In (last ls []) ls).
  { rewrite (app_removelast_last [] Hne) at 2. apply in_or_app. right. now left. }
  rewrite (blank_concat ";;" (map fmt_ints ls) (fmt_ints (last ls [])) (in_map _ _ _ Hin)
             (fmt_ints_not_blank _ Hlast)).
  rewrite intlistlist_loop_concat.
  - rewrite (mapM_map (str_to_intlist py_int) fmt_ints).
    rewrite <- (mapM_map (str_to_intlist py_int) fmt_ints).
    rewrite mapM_inverse; [reflexivity|].
    intros l Hl. apply str_to_intlist_fmt. intros z Hzl. exact (Hz ls l z eq_refl Hl Hzl).
  - apply Forall_forall. intros w Hw. apply in_map_iff in Hw as (l & <- & _).
    apply no_dsemi_fmt_ints.
  - intros _. rewrite Hlm. intros E. apply (f_equal blank) in E.
    rewrite fmt_ints_not_blank in E by exact Hlast. discriminate.
  - apply length_concat_dsemi.
Qed.

Lemma intlistlist_normalize_keeps_value_witness :
  intlistlist_get py_int_dec "1;2;;;;-3"%string = Ok (Some [[1; 2]; []; [-3]]%Z) /\
  exists t, intlistlist_normalize py_int_dec "1;2;;;;-3"%string = Ok t /\
            intlistlist_get py_int_dec t = Ok (Some [[1; 2]; []; [-3]]%Z).
Proof.
  split; [reflexivity|]. apply intlistlist_normalize_keeps_value; [reflexivity| |].
  - intros ls E _. injection E as <-. discriminate.
  - intros ls l z E Hl Hz. injection E as <-. simpl in Hl.
    intuition subst; simpl in Hz; intuition subst; reflexivity.
Defined.

(** [IntPairList.normalize_param_string] keeps the value: when a string
    parses to a list of pairs, its normal form parses to the same list. *)
Theorem intpairlist_normalize_keeps_value (py_int : string -> option Z) (s : string)
    (ps : list (Z * Z)) :
  intpairlist_get py_int s = Ok ps ->
  (forall p, In p ps ->
     py_int (fmt_d (fst p)) = Some (fst p) /\ py_int (fmt_d (snd p)) = Some (snd p)) ->
  exists t, intpairlist_normalize py_int s = Ok t /\ intpairlist_get py_int t = Ok ps.
Proof.
  intros Hg Hz. unfold intpairlist_normalize. rewrite Hg. simpl.
  eexists; split; [reflexivity|]. unfold intpairlist_get.
  destruct ps as [|p0 ps']; [reflexivity|].
  rewrite (blank_concat ";" (map fmt_pair (p0 :: ps')) (fmt_pair p0) (or_introl eq_refl)
             (fmt_pair_not_blank p0)).
  rewrite py_split_concat.
  - apply mapM_inverse. intros p Hp. unfold to_int_pair. rewrite fmt_pair_split.
    destruct (Hz p Hp) as [H1 H2]. unfold int_of. rewrite H1, H2. now destruct p.
  - discriminate.
  - apply Forall_forall. intros w Hw. apply in_map_iff in Hw as (p & <- & _).
    apply fmt_pair_nosemi.
Qed.

Lemma intpairlist_normalize_keeps_value_witness :
  intpairlist_get py_int_dec "1:2;-3:40"%string = Ok [(1, 2); (-3, 40)]%Z /\
  exists t, intpairlist_normalize py_int_dec "1:2;-3:40"%string = Ok t /\
            intpairlist_get py_int_dec t = Ok [(1, 2); (-3, 40)]%Z.
Proof.
  split; [reflexivity|]. apply intpairlist_normalize_keeps_value; [reflexivity|].
  intros p Hp. simpl in Hp. intuition subst; split; reflexivity.
Defined.

(** In [IntPairList.get_param_value], one [';']-separated piece of a
    non-blank string that does not split on [':'] into exactly two parts
    makes the whole parse raise [ValueError], wherever the piece stands. *)
Theorem intpairlist_bad_piece_raises (py_int : string -> option Z) (s piece : string) :
  blank s = false ->
  In piece (py_split ";" s) ->
  length (py_split ":" piece) <> 2%nat ->
  intpairlist_get py_int s = Err ValueError.
Proof.
  intros Hb Hin Hlen. unfold intpairlist_get. rewrite Hb.
  apply (mapM_err_valueerror _ _ piece); [apply to_int_pair_err | exact Hin |].
  unfold to_int_pair. destruct (py_split ":" piece) as [|a [|b [|c r]]];
    [reflexivity | reflexivity | simpl in Hlen; lia | reflexivity].
Qed.

Lemma intpairlist_bad_piece_raises_witness :
  blank "1:2;3;4:5"%string = false /\
  In "3"%string (py_split ";" "1:2;3;4:5"%string) /\
  length (py_split ":" "3"%string) <> 2%nat /\
  intpairlist_get py_int_dec "1:2;3;4:5"%string = Err ValueError.
Proof.
  assert (H1 : blank "1:2;3;4:5"%string = false) by reflexivity.
  assert (H2 : In "3"%string (py_split ";" "1:2;3;4:5"%string)) by (simpl; auto).
  assert (H3 : length (py_split ":" "3"%string) <> 2%nat) by (simpl; lia).
  split; [exact H1|]. split; [exact H2|]. split; [exact H3|].
  exact (intpairlist_bad_piece_raises py_int_dec _ _ H1 H2 H3).
Defined.

(** * Medians under affine maps *)

Section MedianAffine.

Variables (k c : Q).
Hypothesis Hk : 0 < k.

Lemma aff_le_bool (x y : Q) : Qle_bool (aff k c x) (aff k c y) = Qle_bool x y.
Proof.
  unfold aff. destruct (Qle_bool x y) eqn:E.
  - apply Qle_bool_iff in E. apply Qle_bool_iff.
    apply Qplus_le_l. now apply Qmult_le_l.
  - apply not_true_iff_false. intros H. apply Qle_bool_iff in H.
    apply Qplus_le_l, Qmult_le_l in H; [|exact Hk].
    apply Qle_bool_iff in H. congruence.
Qed.

Lemma insertQ_aff (x : Q) (l : list Q) : insertQ (aff k c x) (map (aff k c) l) = map (aff k c) (insertQ x l).
Proof.
  induction l as [|y t IH]; simpl; [reflexivity|].
  rewrite aff_le_bool. destruct (Qle_bool x y); simpl; [reflexivity|]. now rewrite IH.
Qed.

Lemma sortQ_aff (l : list Q) : sortQ (map (aff k c) l) = map (aff k c) (sortQ l).
Proof.
  induction l as [|x t IH]; [reflexivity|].
  change (insertQ (aff k c x) (sortQ (map (aff k c) t)) = map (aff k c) (insertQ x (sortQ t))).
  now rewrite IH, insertQ_aff.
Qed.

Lemma median_list_aff (l : list Q) : l <> [] -> median_list (map (aff k c) l) == k * median_list l + c.
Proof.
  intros Hne. unfold median_list. rewrite sortQ_aff, length_map.
  assert (Hn : (0 < length (sortQ l))%nat).
  { rewrite sortQ_length. destruct l; [contradiction|simpl; lia]. }
  set (s := sortQ l) in *. set (n := length s) in *.
  assert (Hnth : forall i, (i < n)%nat -> nth i (map (aff k c) s) 0 = aff k c (nth i s 0)).
  { intros i Hi. rewrite (nth_indep _ 0 (aff k c 0)) by (rewrite length_map; exact Hi).
    apply map_nth. }
  assert (H1 : (n / 2 < n)%nat) by (apply Nat.div_lt; lia).
  destruct (Nat.even n).
  - rewrite !Hnth by lia. unfold aff. field.
  - rewrite Hnth by lia. reflexivity.
Qed.

End MedianAffine.

Lemma insertQ_Qeq (x x' : Q) (l l' : list Q) :
  x == x' -> Forall2 Qeq l l' -> Forall2 Qeq (insertQ x l) (insertQ x' l').
Proof.
  intros Hx Hl. induction Hl as [|y y' t t' Hy Ht IH]; simpl.
  - now repeat constructor.
  - replace (Qle_bool x' y') with (Qle_bool x y).
    + destruct (Qle_bool x y); now repeat constructor.
    + destruct (Qle_bool x y) eqn:E1, (Qle_bool x' y') eqn:E2; try reflexivity.
      * apply Qle_bool_iff in E1. rewrite Hx, Hy in E1. apply Qle_bool_iff in E1. congruence.
      * apply Qle_bool_iff in E2. rewrite <- Hx, <- Hy in E2. apply Qle_bool_iff in E2. congruence.
Qed.

Lemma sortQ_Qeq (l l' : list Q) : Forall2 Qeq l l' -> Forall2 Qeq (sortQ l) (sortQ l').
Proof.
  intros H. induction H as [|x x' t t' Hx Ht IH]; simpl; [constructor|].
  now apply insertQ_Qeq.
Qed.

Lemma Forall2_nth_Qeq (l l' : list Q) (i : nat) :
  Forall2 Qeq l l' -> nth i l 0 == nth i l' 0.
Proof.
  intros H. revert i. induction H as [|x x' t t' Hx Ht IH]; intros i.
  - destruct i; reflexivity.
  - destruct i; simpl; [exact Hx | apply IH].
Qed.

Lemma median_list_Qeq (l l' : list Q) : Forall2 Qeq l l' -> median_list l == median_list l'.
Proof.
  intros H. pose proof (sortQ_Qeq l l' H) as Hs. unfold median_list.
  rewrite (Forall2_length Hs).
  destruct (Nat.even (length (sortQ l'))).
  - now rewrite (Forall2_nth_Qeq _ _ (length (sortQ l') / 2 - 1) Hs),
                (Forall2_nth_Qeq _ _ (length (sortQ l') / 2) Hs).
  - apply Forall2_nth_Qeq. exact Hs.
Qed.

Lemma Forall2_map_same {A B C : Type} (R : B -> C -> Prop) (f : A -> B) (g : A -> C) (l : list A) :
  (forall x, In x l -> R (f x) (g x)) -> Forall2 R (map f l) (map g l).
Proof.
  induction l as [|x t IH]; simpl; intros H; constructor.
  - apply H. now left.
  - apply IH. intros y Hy. apply H. now right.
Qed.

(** The median absolute deviation around [med], for a positive affine map
    of the data and a centre that moves with it. *)
Lemma mad_aff (k c : Q) (Hk : 0 < k) (l : list Q) (med med' : Q) :
  l <> [] -> med' == k * med + c ->
  median_list (map (fun v => Qabs (v - med')) (map (aff k c) l))
  == k * median_list (map (fun v => Qabs (v - med)) l).
Proof.
  intros Hne Hm.
  rewrite (median_list_Qeq _ (map (aff k 0) (map (fun v => Qabs (v - med)) l))).
  - rewrite (median_list_aff k 0 Hk) by (destruct l; [contradiction|discriminate]). ring.
  - rewrite !map_map. apply Forall2_map_same. intros x _. unfold aff.
    rewrite Hm. setoid_replace (k * x + c - (k * med + c)) with (k * (x - med)) by ring.
    rewrite Qabs_Qmult, (Qabs_pos k) by (apply Qlt_le_weak; exact Hk). ring.
Qed.

(** * [get_robust_std] and [scale_subints] *)

Lemma weighted_map (f : Q -> Q) (d : list Q) (w : list bool) :
  weighted (map f d) w = map f (weighted d w).
Proof.
  unfold weighted. revert w. induction d as [|x t IH]; intros [|b w]; simpl; try reflexivity.
  destruct b; simpl; [now rewrite IH | apply IH].
Qed.

Lemma np_median_opt_ne (l : list Q) : l <> [] -> np_median_opt l = Some (median_list l).
Proof. destruct l; [contradiction|reflexivity]. Qed.

Lemma map_ne {A B : Type} (f : A -> B) (l : list A) : l <> [] -> map f l <> [].
Proof. destruct l; [contradiction|discriminate]. Qed.

Lemma In_sortQ (x : Q) (l : list Q) : In x (sortQ l) -> In x l.
Proof.
  assert (Hi : forall y t, In x (insertQ y t) -> y = x \/ In x t).
  { intros y t. induction t as [|z u IH]; simpl; [tauto|].
    destruct (Qle_bool y z); simpl; [tauto|]. intuition. }
  induction l as [|y t IH]; simpl; [tauto|].
  intros H. apply Hi in H as [->|H]; [now left|right; now apply IH].
Qed.

Lemma median_list_nonneg (l : list Q) : (forall x, In x l -> 0 <= x) -> 0 <= median_list l.
Proof.
  intros H.
  assert (Hn : forall i, 0 <= nth i (sortQ l) 0).
  { intros i. destruct (nth_in_or_default i (sortQ l) 0) as [Hin | ->].
    - apply H, In_sortQ, Hin.
    - apply Qle_refl. }
  unfold median_list. destruct (Nat.even _).
  - apply Qle_shift_div_l; [reflexivity|]. rewrite Qmult_0_l.
    apply (Qplus_le_compat 0 _ 0); apply Hn.
  - apply Hn.
Qed.

Lemma py_slice_map {A B : Type} (f : A -> B) (l : list A) (lo hi : option nat) :
  py_slice (map f l) lo hi = map f (py_slice l lo hi).
Proof. unfold py_slice. destruct hi; now rewrite ?skipn_map, ?firstn_map. Qed.

Lemma py_slice_length {A B : Type} (l : list A) (l' : list B) (lo hi : option nat) :
  length l = length l' -> length (py_slice l lo hi) = length (py_slice l' lo hi).
Proof.
  intros E. unfold py_slice. destruct hi; rewrite ?length_firstn, !length_skipn, ?length_firstn, E;
    reflexivity.
Qed.

Lemma nth_map_aff (k c : Q) (l : list Q) (i : nat) :
  (i < length l)%nat -> nth i (map (aff k c) l) 0 = aff k c (nth i l 0).
Proof.
  intros Hi. rewrite (nth_indep _ 0 (aff k c 0)) by (rewrite length_map; exact Hi).
  apply map_nth.
Qed.

Lemma mapM_Forall2_ok {A B C : Type} (f : A -> res B) (g : A -> res C) (R : B -> C -> Prop)
    (l : list A) (lb : list B) :
  (forall x b, In x l -> f x = Ok b -> exists c, g x = Ok c /\ R b c) ->
  mapM f l = Ok lb -> exists lc, mapM g l = Ok lc /\ Forall2 R lb lc.
Proof.
  revert lb. induction l as [|x t IH]; simpl; intros lb H E.
  - injection E as <-. exists []. split; constructor.
  - destruct (f x) as [b|e] eqn:Ef; [|discriminate]. simpl in E.
    destruct (mapM f t) as [bs|e] eqn:Et; [|discriminate]. simpl in E. injection E as <-.
    destruct (H x b (or_introl eq_refl) Ef) as (c0 & Hg & Hr).
    destruct (IH bs (fun y b' Hy => H y b' (or_intror Hy)) eq_refl) as (cs & Hgs & Hrs).
    exists (c0 :: cs). rewrite Hg, Hgs. split; [reflexivity|]. now constructor.
Qed.

Lemma mapM_ok_Forall {A B : Type} (f : A -> res B) (P : B -> Prop) (l : list A) :
  (forall x, In x l -> exists b, f x = Ok b /\ P b) ->
  exists lb, mapM f l = Ok lb /\ Forall P lb /\ length lb = length l.
Proof.
  induction l as [|x t IH]; simpl; intros H.
  - exists []. repeat split; constructor.
  - destruct (H x (or_introl eq_refl)) as (b & Hb & Pb). rewrite Hb. simpl.
    destruct IH as (bs & Hbs & Pbs & Lbs); [intros y Hy; apply H; now right|].
    rewrite Hbs. exists (b :: bs). simpl. repeat split; [now constructor|now rewrite Lbs].
Qed.

Lemma In_firstn_l {A : Type} (x : A) (n : nat) (l : list A) : In x (firstn n l) -> In x l.
Proof. intros H. rewrite <- (firstn_skipn n l). apply in_or_app. now left. Qed.

Lemma In_skipn_l {A : Type} (x : A) (n : nat) (l : list A) : In x (skipn n l) -> In x l.
Proof. intros H. rewrite <- (firstn_skipn n l). apply in_or_app. now right. Qed.

Lemma In_py_slice {A : Type} (x : A) (l : list A) (lo hi : option nat) :
  In x (py_slice l lo hi) -> In x l.
Proof.
  unfold py_slice. destruct hi; intros H; [apply In_firstn_l in H|]; now apply In_skipn_l in H.
Qed.

Lemma weighted_all_true (s : list Q) (w : list bool) :
  length s = length w -> (forall b, In b w -> b = true) -> weighted s w = s.
Proof.
  unfold weighted. revert w. induction s as [|x t IH]; intros [|b w] E H; try discriminate;
    [reflexivity|].
  rewrite (H b (or_introl eq_refl)). simpl. f_equal.
  apply IH; [now injection E | intros b' Hb'; apply H; now right].
Qed.

Lemma ok_some_inj {A : Type} (a b : A) : Ok (Some a) = Ok (Some b) -> a = b.
Proof. congruence. Qed.

(** [get_robust_std] follows a positive affine change of the data: the
    robust standard deviation of [k * data + c] (with [k > 0]) is [k] times
    that of [data], with the same weights. *)
Theorem get_robust_std_affine (k c : Q) (data : list Q) (weights : list bool) (r : Q) :
  0 < k ->
  get_robust_std data weights = Ok (Some r) ->
  exists r', get_robust_std (map (aff k c) data) weights = Ok (Some r') /\ r' == k * r.
Proof.
  intros Hk H. unfold get_robust_std in *. rewrite length_map.
  destruct (Nat.eqb (length data) (length weights)); [|discriminate].
  rewrite weighted_map.
  destruct (weighted data weights) as [|x t] eqn:Ew; [discriminate|].
  set (u := x :: t) in *. assert (Hne : u <> []) by discriminate. clearbody u.
  rewrite np_median_opt_ne in H |- * by (try apply map_ne; exact Hne).
  rewrite np_median_opt_ne in H |- * by (repeat apply map_ne; exact Hne).
  apply ok_some_inj in H. subst r. eexists; split; [reflexivity|].
  rewrite (mad_aff k c Hk u (median_list u)); [ring | exact Hne |].
  apply median_list_aff; assumption.
Qed.

Lemma get_robust_std_affine_witness :
  0 < 2 /\
  get_robust_std [1; 5; 2; 8; 3] [true; true; true; false; true] = Ok (Some (118608 # 80000)) /\
  exists r', get_robust_std (map (aff 2 7) [1; 5; 2; 8; 3]) [true; true; true; false; true]
             = Ok (Some r') /\ r' == 2 * (118608 # 80000).
Proof.
  assert (Hk : 0 < 2) by reflexivity.
  assert (H : get_robust_std [1; 5; 2; 8; 3] [true; true; true; false; true]
              = Ok (Some (118608 # 80000))) by (vm_compute; reflexivity).
  split; [exact Hk|]. split; [exact H|].
  exact (get_robust_std_affine 2 7 _ _ _ Hk H).
Defined.

(** [get_robust_std] never returns a negative number: it is [1.4826]
    times a median of absolute values. *)
Theorem get_robust_std_nonneg (data : list Q) (weights : list bool) (r : Q) :
  get_robust_std data weights = Ok (Some r) -> 0 <= r.
Proof.
  unfold get_robust_std. destruct (Nat.eqb _ _); [|discriminate].
  destruct (np_median_opt (weighted data weights)) as [med|]; [|discriminate].
  destruct (np_median_opt _) as [mad|] eqn:Em; [|discriminate].
  intros H. injection H as <-.
  destruct (map (fun v => Qabs (v - med)) (weighted data weights)) as [|y t] eqn:El;
    [discriminate|].
  injection Em as <-. rewrite <- El.
  apply (Qmult_le_0_compat (14826 # 10000)); [discriminate|].
  apply median_list_nonneg. intros x Hx. apply in_map_iff in Hx as (v & <- & _).
  apply Qabs_nonneg.
Qed.

Lemma get_robust_std_nonneg_witness :
  get_robust_std [4; -1; 3] [true; true; false] = Ok (Some (296520 # 80000)) /\
  0 <= 296520 # 80000.
Proof.
  assert (H : get_robust_std [4; -1; 3] [true; true; false] = Ok (Some (296520 # 80000)))
    by (vm_compute; reflexivity).
  split; [exact H|]. exact (get_robust_std_nonneg _ _ _ H).
Defined.

Lemma scale_subint_at_aff (k c : Q) (Hk : 0 < k) (data : list Q) (w : list bool)
    (half ii : nat) (r : option Q) :
  (ii < length data)%nat ->
  scale_subint_at data w half ii = Ok r ->
  exists r', scale_subint_at (map (aff k c) data) w half ii = Ok r' /\ opt_scaled k r r'.
Proof.
  intros Hi H. unfold scale_subint_at in *. rewrite length_map, py_slice_map, length_map.
  destruct (Nat.eqb _ _); [|discriminate].
  rewrite weighted_map. injection H as <-. eexists; split; [reflexivity|].
  destruct (weighted _ _) as [|x t] eqn:Ew; [exact I|].
  set (u := x :: t) in *. assert (Hne : u <> []) by discriminate. clearbody u.
  rewrite !np_median_opt_ne by (try apply map_ne; exact Hne). simpl.
  rewrite nth_map_aff by exact Hi. rewrite (median_list_aff k c Hk u Hne). unfold aff. ring.
Qed.

(** [scale_subints] follows a positive affine change of the data: for
    [k > 0], scaling [k * data + c] gives [k] times the result for [data],
    with [nan] in the same places. *)
Theorem scale_subints_affine (k c : Q) (data : list Q) (kernel_size : nat)
    (subintweights : option (list bool)) (out : list (option Q)) :
  0 < k ->
  scale_subints data kernel_size subintweights = Ok out ->
  exists out', scale_subints (map (aff k c) data) kernel_size subintweights = Ok out' /\
               Forall2 (opt_scaled k) out out'.
Proof.
  intros Hk H. unfold scale_subints in *. rewrite length_map.
  revert H. apply mapM_Forall2_ok. intros ii r Hin Hr.
  apply in_seq in Hin. apply (scale_subint_at_aff k c Hk data _ _ ii r); [lia | exact Hr].
Qed.

Lemma scale_subints_affine_witness :
  0 < 3 /\
  scale_subints [1; 5; 2; 8; 3] 3 (Some [false; false; true; true; true])
    = Ok [None; Some 3; Some (-6 # 2); Some 5; Some (-5 # 2)] /\
  exists out', scale_subints (map (aff 3 (-1)) [1; 5; 2; 8; 3]) 3
                 (Some [false; false; true; true; true]) = Ok out' /\
               Forall2 (opt_scaled 3) [None; Some 3; Some (-6 # 2); Some 5; Some (-5 # 2)] out'.
Proof.
  assert (Hk : 0 < 3) by reflexivity.
  assert (H : scale_subints [1; 5; 2; 8; 3] 3 (Some [false; false; true; true; true])
              = Ok [None; Some 3; Some (-6 # 2); Some 5; Some (-5 # 2)]) by (vm_compute; reflexivity).
  split; [exact Hk|]. split; [exact H|].
  exact (scale_subints_affine 3 (-1) _ _ _ _ Hk H).
Defined.

(** Without weights, [scale_subints] never raises and never gives [nan]:
    the window of every subint holds at least that subint. *)
Theorem scale_subints_unweighted_no_nan (data : list Q) (kernel_size : nat) :
  exists out, scale_subints data kernel_size None = Ok out /\
              length out = length data /\ Forall (fun o => o <> None) out.
Proof.
  unfold scale_subints. simpl weights_or_ones.
  destruct (mapM_ok_Forall (scale_subint_at data (repeat true (length data)) (kernel_size / 2))
              (fun o => o <> None) (seq 0 (length data))) as (out & Hm & Hf & Hl).
  - intros ii Hin. apply in_seq in Hin. unfold scale_subint_at.
    set (lobin := if (ii <? kernel_size / 2)%nat then None else Some (ii - kernel_size / 2)%nat).
    set (hibin := if (length data <? ii + kernel_size / 2 + 1)%nat then None
                  else Some (ii + kernel_size / 2 + 1)%nat).
    rewrite <- (py_slice_length data (repeat true (length data)) lobin hibin)
      by (rewrite repeat_length; reflexivity).
    rewrite Nat.eqb_refl.
    rewrite weighted_all_true.
    + assert (Hlen : (0 < length (py_slice data lobin hibin))%nat).
      { unfold py_slice, lobin, hibin.
        destruct (Nat.ltb_spec ii (kernel_size / 2));
          destruct (Nat.ltb_spec (length data) (ii + kernel_size / 2 + 1));
          rewrite ?length_firstn, ?length_skipn; lia. }
      destruct (py_slice data lobin hibin) as [|x t]; [simpl in Hlen; lia|].
      eexists; split; [reflexivity|]. discriminate.
    + apply py_slice_length. now rewrite repeat_length.
    + intros b Hb. apply In_py_slice in Hb. now apply repeat_spec in Hb.
  - exists out. rewrite length_seq in Hl. now repeat split.
Qed.

(** * [scale_chans] *)

Lemma length_zipw {A B C : Type} (f : A -> B -> C) (l1 : list A) (l2 : list B) :
  length (zipw f l1 l2) = Nat.min (length l1) (length l2).
Proof.
  revert l2. induction l1 as [|a t IH]; intros [|b u]; simpl; try reflexivity. now rewrite IH.
Qed.

Lemma nth_zipw {A B C : Type} (f : A -> B -> C) (l1 : list A) (l2 : list B) (i : nat)
    (d1 : A) (d2 : B) (d : C) :
  (i < length l1)%nat -> (i < length l2)%nat ->
  nth i (zipw f l1 l2) d = f (nth i l1 d1) (nth i l2 d2).
Proof.
  revert l2 i. induction l1 as [|a t IH]; intros [|b u] i H1 H2; simpl in *; try lia.
  destruct i; [reflexivity|]. apply IH; lia.
Qed.

Lemma length_write_slice {A : Type} (l : list A) (lo : nat) (vals : list A) :
  (lo + length vals <= length l)%nat -> length (write_slice l lo vals) = length l.
Proof.
  intros H. unfold write_slice. rewrite !length_app, length_firstn, length_skipn. lia.
Qed.

Lemma nth_write_slice {A : Type} (l : list A) (lo : nat) (vals : list A) (i : nat) (d : A) :
  (lo + length vals <= length l)%nat ->
  nth i (write_slice l lo vals) d =
  if (i <? lo)%nat then nth i l d
  else if (i <? lo + length vals)%nat then nth (i - lo) vals d else nth i l d.
Proof.
  intros H. unfold write_slice.
  assert (Hf : length (firstn lo l) = lo) by (rewrite length_firstn; lia).
  destruct (Nat.ltb_spec i lo).
  - rewrite app_nth1 by lia. rewrite nth_firstn. now destruct (Nat.ltb_spec i lo); [|lia].
  - rewrite app_nth2 by lia. rewrite Hf. destruct (Nat.ltb_spec i (lo + length vals)).
    + rewrite app_nth1 by lia. reflexivity.
    + rewrite app_nth2 by lia. rewrite nth_skipn. f_equal. lia.
Qed.

Lemma nth_firstn_skipn {A : Type} (l : list A) (n lo k : nat) (d : A) :
  (k < n)%nat -> nth k (firstn n (skipn lo l)) d = nth (lo + k) l d.
Proof.
  intros H. rewrite nth_firstn. destruct (Nat.ltb_spec k n); [|lia]. apply nth_skipn.
Qed.

Lemma weighted_nonempty (s : list Q) (w : list bool) (k : nat) :
  (k < length s)%nat -> (k < length w)%nat -> nth k w false = true -> weighted s w <> [].
Proof.
  unfold weighted. revert w k. induction s as [|x t IH]; intros [|b u] k H1 H2 H3;
    simpl in *; try lia.
  destruct k as [|k].
  - subst b. simpl. discriminate.
  - destruct b; simpl; [discriminate|]. apply (IH u k); lia || exact H3.
Qed.

Lemma Forall2_nth_intro {A B : Type} (R : A -> B -> Prop) (l : list A) (l' : list B)
    (d : A) (d' : B) :
  length l = length l' -> (forall i, (i < length l)%nat -> R (nth i l d) (nth i l' d')) ->
  Forall2 R l l'.
Proof.
  revert l'. induction l as [|x t IH]; intros [|y u] E H; simpl in *; try discriminate.
  - constructor.
  - constructor; [apply (H 0%nat); lia|].
    apply IH; [lia|]. intros i Hi. apply (H (S i)). lia.
Qed.

Section ScaleChans.

Variables (data0 : list Q) (w : list bool) (n : nat).
Hypothesis Hn : (0 < n)%nat.
Hypothesis Hw : length w = length data0.

Let N := length data0.

Let spec (i : nat) : Q :=
  if nth i w false then nth i data0 0 - subband_median data0 w n (i / n) else 0.

Lemma scale_chans_loop_spec (f : nat) :
  forall j data scaled,
  length data = N -> length scaled = N ->
  (forall i, (j * n <= i)%nat -> nth i data 0 = nth i data0 0) ->
  (forall i, (i < j * n)%nat -> (i < N)%nat ->
     nth i data 0 = spec i /\ nth i scaled None = Some (spec i)) ->
  (N <= j * n + f * n)%nat ->
  exists d' s', scale_chans_loop f n (j * n) w data scaled = Ok (d', s') /\
    length d' = N /\ length s' = N /\
    forall i, (i < N)%nat -> nth i d' 0 = spec i /\ nth i s' None = Some (spec i).
Proof.
  induction f as [|f IH]; intros j data scaled Hd Hs Hrest Hdone Hfuel.
  - exists data, scaled. split; [reflexivity|]. split; [exact Hd|]. split; [exact Hs|].
    intros i Hi. apply Hdone; lia.
  - cbn [scale_chans_loop]. rewrite Hd.
    destruct (Nat.ltb_spec (j * n) N) as [Hlt|Hge].
    2:{ exists data, scaled. split; [reflexivity|]. split; [exact Hd|]. split; [exact Hs|].
        intros i Hi. apply Hdone; lia. }
    set (lo := (j * n)%nat) in *.
    set (L := Nat.min n (N - lo)).
    assert (Hsub : firstn n (skipn lo data) = firstn n (skipn lo data0)).
    { apply (nth_ext _ _ 0 0).
      - rewrite !length_firstn, !length_skipn, Hd. reflexivity.
      - intros k Hk. rewrite length_firstn, length_skipn, Hd in Hk.
        rewrite !nth_firstn_skipn by lia. apply Hrest. lia. }
    assert (HL1 : length (firstn n (skipn lo data0)) = L)
      by (rewrite length_firstn, length_skipn; reflexivity).
    assert (HL2 : length (firstn n (skipn lo w)) = L)
      by (rewrite length_firstn, length_skipn, Hw; reflexivity).
    unfold scale_block. rewrite Hsub, HL1, HL2, Nat.eqb_refl. simpl bind.
    set (med := median_list (weighted (firstn n (skipn lo data0)) (firstn n (skipn lo w)))).
    set (sub' := zipw (fun (x : Q) (b : bool) => if b then x - med else 0)
                   (firstn n (skipn lo data0)) (firstn n (skipn lo w))).
    assert (Hlen' : length sub' = L) by (unfold sub'; rewrite length_zipw, HL1, HL2; lia).
    assert (Hmed : med = subband_median data0 w n j) by reflexivity.
    assert (Hval : forall i, (lo <= i)%nat -> (i < lo + L)%nat -> nth (i - lo) sub' 0 = spec i).
    { intros i H1 H2. unfold sub'.
      rewrite (nth_zipw _ _ _ _ 0 false) by lia.
      rewrite !nth_firstn_skipn by lia. replace (lo + (i - lo))%nat with i by lia.
      unfold spec. replace (i / n)%nat with j.
      - rewrite Hmed. reflexivity.
      - apply (Nat.div_unique i n j (i - lo)); unfold lo in *; lia. }
    replace (lo + n)%nat with (S j * n)%nat by (unfold lo; simpl; lia).
    apply IH.
    + rewrite length_write_slice; [exact Hd | lia].
    + rewrite length_write_slice; [exact Hs | rewrite length_map; lia].
    + intros i Hi. rewrite nth_write_slice by lia.
      destruct (Nat.ltb_spec i lo); [simpl in Hi; lia|].
      destruct (Nat.ltb_spec i (lo + length sub')); [simpl in Hi; lia|].
      apply Hrest. lia.
    + intros i Hi HiN. rewrite !nth_write_slice by (rewrite ?length_map; lia).
      rewrite length_map.
      destruct (Nat.ltb_spec i lo); [now apply Hdone|].
      destruct (Nat.ltb_spec i (lo + length sub')); [|simpl in Hi; lia].
      rewrite Hlen' in *. split; [now apply Hval|].
      rewrite (nth_indep _ None (Some 0)) by (rewrite length_map; lia).
      rewrite map_nth. f_equal. now apply Hval.
    + simpl in Hfuel |- *. lia.
Qed.

End ScaleChans.

Lemma scale_chans_loop_short (n : nat) (w : list bool) (Hn : (0 < n)%nat) (N : nat)
    (HwN : (length w < N)%nat) (f : nat) :
  forall lo data scaled,
  length data = N -> (lo <= length w)%nat -> (N <= lo + f * n)%nat ->
  scale_chans_loop f n lo w data scaled = Err IndexError.
Proof.
  induction f as [|f IH]; intros lo data scaled Hd Hlo Hfuel; [simpl in Hfuel; lia|].
  cbn [scale_chans_loop]. rewrite Hd. destruct (Nat.ltb_spec lo N); [|lia].
  unfold scale_block. rewrite !length_firstn, !length_skipn, Hd.
  destruct (Nat.eqb_spec (Nat.min n (N - lo)) (Nat.min n (length w - lo))) as [E|E];
    [|reflexivity].
  simpl bind. apply IH.
  - rewrite length_write_slice; [exact Hd|].
    rewrite length_zipw, !length_firstn, !length_skipn. lia.
  - lia.
  - simpl in Hfuel. lia.
Qed.

(** [scale_chans] with [nchans > 0] and weights as long as the data (or
    none): it returns, for each channel, its value minus the median of the
    weighted channels of its subband of [nchans] channels if the channel
    is weighted, and [0] otherwise; every entry of the returned array is
    written, and the input array is overwritten with the same values. *)
Theorem scale_chans_subband_median (data : list Q) (nchans : nat)
    (chanweights : option (list bool)) :
  (0 < nchans)%nat ->
  length (weights_or_ones chanweights (length data)) = length data ->
  let w := weights_or_ones chanweights (length data) in
  exists out, scale_chans data nchans chanweights = Ok (out, map Some out) /\
    length out = length data /\
    forall i, (i < length data)%nat ->
      nth i out 0 = if nth i w false
                    then nth i data 0 - subband_median data w nchans (i / nchans)
                    else 0.
Proof.
  intros Hn Hw w.
  destruct (scale_chans_loop_spec data w nchans Hn Hw (length data) 0 data
              (repeat None (length data))) as (d' & s' & Hl & Hd' & Hs' & Hv).
  - reflexivity.
  - apply repeat_length.
  - intros i _. reflexivity.
  - intros i Hi. simpl in Hi. lia.
  - simpl. nia.
  - exists d'. unfold scale_chans.
    destruct (Nat.eqb_spec nchans 0); [lia|]. simpl in Hl. unfold w in Hl. cbv zeta.
    rewrite Hl.
    replace s' with (map Some d').
    + split; [reflexivity|]. split; [exact Hd'|]. intros i Hi. apply Hv, Hi.
    + apply (nth_ext _ _ None None); [rewrite length_map; congruence|].
      intros i Hi. rewrite length_map, Hd' in Hi.
      rewrite (nth_indep _ None (Some 0)) by (rewrite length_map; lia).
      rewrite map_nth. rewrite (proj2 (Hv i Hi)), (proj1 (Hv i Hi)). reflexivity.
Qed.

Lemma scale_chans_subband_median_witness :
  (0 < 3)%nat /\
  length (weights_or_ones (Some [true; false; true; true; true; true; false]) 7) = 7%nat /\
  exists out, scale_chans [1; 2; 3; 10; 20; 30; 5] 3
                (Some [true; false; true; true; true; true; false]) = Ok (out, map Some out) /\
    length out = 7%nat /\
    forall i, (i < 7)%nat ->
      nth i out 0 = if nth i [true; false; true; true; true; true; false] false
                    then nth i [1; 2; 3; 10; 20; 30; 5] 0
                         - subband_median [1; 2; 3; 10; 20; 30; 5]
                             [true; false; true; true; true; true; false] 3 (i / 3)
                    else 0.
Proof.
  split; [lia|]. split; [reflexivity|].
  exact (scale_chans_subband_median [1; 2; 3; 10; 20; 30; 5] 3
           (Some [true; false; true; true; true; true; false]) ltac:(lia) eq_refl).
Defined.

(** [scale_chans] follows a positive affine change of the data: with
    [nchans > 0] and weights as long as the data, scaling [k * data + c]
    ([k > 0]) gives [k] times the result for [data]. *)
Theorem scale_chans_affine (k c : Q) (data : list Q) (nchans : nat)
    (chanweights : option (list bool)) :
  0 < k -> (0 < nchans)%nat ->
  length (weights_or_ones chanweights (length data)) = length data ->
  exists out out',
    scale_chans data nchans chanweights = Ok (out, map Some out) /\
    scale_chans (map (aff k c) data) nchans chanweights = Ok (out', map Some out') /\
    Forall2 (fun a b => b == k * a) out out'.
Proof.
  intros Hk Hn Hw.
  destruct (scale_chans_subband_median data nchans chanweights Hn Hw) as (out & E1 & L1 & V1).
  assert (Hw' : length (weights_or_ones chanweights (length (map (aff k c) data)))
                = length (map (aff k c) data)) by (rewrite length_map; exact Hw).
  destruct (scale_chans_subband_median (map (aff k c) data) nchans chanweights Hn Hw')
    as (out' & E2 & L2 & V2).
  exists out, out'. split; [exact E1|]. split; [exact E2|].
  rewrite length_map in L2, V2.
  apply (Forall2_nth_intro _ _ _ 0 0); [congruence|].
  intros i Hi. rewrite L1 in Hi. rewrite (V1 i Hi), (V2 i Hi).
  set (w := weights_or_ones chanweights (length data)) in *.
  destruct (nth i w false) eqn:Ewi; [|ring].
  set (j := (i / nchans)%nat).
  assert (Hj : (j * nchans <= i < j * nchans + nchans)%nat).
  { unfold j. pose proof (Nat.div_mod i nchans ltac:(lia)).
    pose proof (Nat.mod_upper_bound i nchans ltac:(lia)). nia. }
  unfold subband_median. rewrite skipn_map, firstn_map, weighted_map.
  rewrite nth_map_aff by exact Hi.
  rewrite median_list_aff by (try exact Hk; apply (weighted_nonempty _ _ (i - j * nchans));
    rewrite ?length_firstn, ?length_skipn, ?Hw; try lia;
    rewrite nth_firstn_skipn by lia; replace (j * nchans + (i - j * nchans))%nat with i by lia;
    exact Ewi).
  unfold aff. ring.
Qed.

Lemma scale_chans_affine_witness :
  0 < 2 /\ (0 < 2)%nat /\ length (weights_or_ones None 5) = 5%nat /\
  exists out out',
    scale_chans [4; 1; 3; 3; 9] 2 None = Ok (out, map Some out) /\
    scale_chans (map (aff 2 5) [4; 1; 3; 3; 9]) 2 None = Ok (out', map Some out') /\
    Forall2 (fun a b => b == 2 * a) out out'.
Proof.
  assert (H1 : 0 < 2) by reflexivity.
  assert (H2 : (0 < 2)%nat) by lia.
  assert (H3 : length (weights_or_ones None 5) = 5%nat) by reflexivity.
  split; [exact H1|]. split; [exact H2|]. split; [exact H3|].
  exact (scale_chans_affine 2 5 [4; 1; 3; 3; 9] 2 None H1 H2 H3).
Defined.

(** [scale_chans] with a weight array shorter than the data raises
    [IndexError]: the loop reaches a subband whose weights do not cover
    all its channels. *)
Theorem scale_chans_short_weights_raise (data : list Q) (nchans : nat) (w : list bool) :
  (0 < nchans)%nat -> (length w < length data)%nat ->
  scale_chans data nchans (Some w) = Err IndexError.
Proof.
  intros Hn Hl. unfold scale_chans. destruct (Nat.eqb_spec nchans 0); [lia|].
  apply (scale_chans_loop_short nchans w Hn (length data) Hl); [reflexivity | lia | nia].
Qed.

Lemma scale_chans_short_weights_raise_witness :
  (0 < 4)%nat /\ Nat.lt (length [true; true; false; true; true]) (length [1; 2; 3; 4; 5; 6]) /\
  scale_chans [1; 2; 3; 4; 5; 6] 4 (Some [true; true; false; true; true]) = Err IndexError.
Proof.
  assert (H1 : (0 < 4)%nat) by lia.
  assert (H2 : Nat.lt (length [true; true; false; true; true]) (length [1; 2; 3; 4; 5; 6]))
    by (simpl; lia).
  split; [exact H1|]. split; [exact H2|].
  exact (scale_chans_short_weights_raise _ _ _ H1 H2).
Defined.

(** * Hot bins, detrending and the scalers *)

Lemma length_set_mask_at (j : nat) (b : bool) (s : list mq) :
  length (set_mask_at j b s) = length s.
Proof.
  revert j. induction s as [|e t IH]; intros [|j]; simpl; try reflexivity. now rewrite IH.
Qed.

Lemma flatnonzero_gen (s : list mq) (k : nat) :
  let l := map fst (filter (fun ie => mmask (snd ie)) (combine (seq k (length s)) s)) in
  StronglySorted lt l /\ Forall (fun b => (k <= b < k + length s)%nat) l.
Proof.
  revert k. induction s as [|e t IH]; intros k; simpl.
  - split; constructor.
  - destruct (IH (S k)) as [H1 H2].
    destruct (mmask e); simpl.
    + split.
      * constructor; [exact H1|]. eapply Forall_impl; [|exact H2]. simpl. lia.
      * constructor; [lia|]. eapply Forall_impl; [|exact H2]. simpl. lia.
    + split; [exact H1|]. eapply Forall_impl; [|exact H2]. simpl. lia.
Qed.

Lemma flatnonzero_valid (s : list mq) :
  StronglySorted lt (flatnonzero_mask s) /\
  Forall (fun b => (b < length s)%nat) (flatnonzero_mask s).
Proof.
  destruct (flatnonzero_gen s 0) as [H1 H2]. unfold flatnonzero_mask, enum.
  split; [exact H1|]. eapply Forall_impl; [|exact H2]. simpl. lia.
Qed.

Lemma hot_loop_bins (normaltest : list Q -> Q) (np_median : list mq -> Q) (thr : Q)
    (mnh : option nat) (od : bool) (fuel : nat) :
  forall md prev bins st,
  fst (hot_loop normaltest np_median thr mnh od fuel md prev) = Ok (HotBins bins st) ->
  exists md', length md' = length md /\ bins = flatnonzero_mask md'.
Proof.
  induction fuel as [|f IH]; intros md prev bins st H; [discriminate|].
  simpl in H. destruct (Nat.eqb (count md) 0); [discriminate|].
  destruct (Qltb prev thr); [injection H as <- _; now exists md|].
  destruct mnh; [discriminate|].
  match type of H with
  | context [if ?b then _ else _] => destruct b
  end; [injection H as <- _; now exists md|].
  match type of H with
  | context [hot_loop ?a ?b ?c ?d ?e f ?m ?p] =>
      pose proof (IH m p) as IHm; destruct (hot_loop a b c d e f m p) as [r t] eqn:E
  end.
  simpl in H. subst r.
  destruct (IHm bins st) as (md' & Hl & Hb); [reflexivity|].
  exists md'. split; [rewrite Hl; apply length_set_mask_at | exact Hb].
Qed.

Lemma get_hot_bins_valid (normaltest : list Q -> Q) (np_median : list mq -> Q) (thr : Q)
    (mnh : option nat) (od : bool) (data : list Q) (bins : list nat) (st : nat) :
  fst (get_hot_bins normaltest np_median thr mnh od data) = Ok (HotBins bins st) ->
  StronglySorted lt bins /\ Forall (fun b => (b < length data)%nat) bins.
Proof.
  unfold get_hot_bins.
  destruct (hot_loop normaltest np_median thr mnh od (S (length data)) (plain data)
              (normaltest (unmasked (plain data)))) as [r t] eqn:E.
  simpl. intros Hr. subst r.
  destruct (hot_loop_bins normaltest np_median thr mnh od _ _ _ bins st
              (f_equal fst E)) as (md' & Hl & ->).
  unfold plain in Hl. rewrite length_map in Hl. rewrite <- Hl. apply flatnonzero_valid.
Qed.

(** [get_hot_bins] returns its hot bins in increasing order, each an
    index of the profile, so that [mask[bins] = 1] in [clean_subint]
    accepts them. *)
Theorem get_hot_bins_bins_sorted_in_range (normaltest : list Q -> Q) (np_median : list mq -> Q)
    (thr : Q) (mnh : option nat) (od : bool) (data : list Q) (bins : list nat) (st : nat) :
  fst (get_hot_bins normaltest np_median thr mnh od data) = Ok (HotBins bins st) ->
  StronglySorted lt bins /\ Forall (fun b => (b < length data)%nat) bins /\
  exists m, bin_mask (length data) bins = Ok m.
Proof.
  intros H. destruct (get_hot_bins_valid _ _ _ _ _ _ _ _ H) as [Hs Hb].
  split; [exact Hs|]. split; [exact Hb|].
  unfold bin_mask.
  rewrite (proj2 (forallb_forall _ _)); [eexists; reflexivity|].
  intros x Hx. apply Nat.ltb_lt. rewrite Forall_forall in Hb. auto.
Qed.

Lemma get_hot_bins_bins_sorted_in_range_witness :
  fst (get_hot_bins (fun l => Qnat (length l)) (fun _ => 0) 4 None true [1;2;3;4;5])
    = Ok (HotBins [3;4]%nat 0) /\
  StronglySorted lt [3;4]%nat /\ Forall (fun b => Nat.lt b (length ([1;2;3;4;5] : list Q))) [3;4]%nat /\
  exists m, bin_mask (length ([1;2;3;4;5] : list Q)) [3;4]%nat = Ok m.
Proof.
  assert (H : fst (get_hot_bins (fun l => Qnat (length l)) (fun _ => 0) 4 None true [1;2;3;4;5])
                = Ok (HotBins [3;4]%nat 0)) by (vm_compute; reflexivity).
  split; [exact H|].
  exact (get_hot_bins_bins_sorted_in_range (fun l => Qnat (length l)) (fun _ => 0) 4 None true
           [1;2;3;4;5] [3;4]%nat 0 H).
Defined.

Lemma clean_profile_err (rng : Type) (norm_rvs : rng -> Q -> Q -> nat -> list Q * rng)
    (fsqrt : Q -> Q) mask bins pr (g : rng) e g' :
  clean_profile rng norm_rvs fsqrt mask bins pr g = (Err e, g') -> e = ValueError.
Proof.
  unfold clean_profile.
  destruct (Qeq_bool (weight pr) 0); [discriminate|].
  destruct (negb _); [intros H; injection H; intros _ <-; reflexivity|].
  destruct (norm_rvs _ _ _ _). discriminate.
Qed.

(** [clean_hot_bins] feeds the bins found by [get_hot_bins] on a
    sub-integration's data (one value per phase bin) to [clean_subint]
    for that sub-integration: that call never raises [IndexError]. *)
Theorem get_hot_bins_then_clean_subint_no_index_error (normaltest : list Q -> Q)
    (np_median : list mq -> Q) (thr : Q) (mnh : option nat) (od : bool)
    (rng : Type) (norm_rvs : rng -> Q -> Q -> nat -> list Q * rng) (fsqrt : Q -> Q)
    (ar : archive) (isub : nat) (data : list Q) (bins : list nat) (st : nat) (g : rng) :
  fst (get_hot_bins normaltest np_median thr mnh od data) = Ok (HotBins bins st) ->
  length data = nbin ar ->
  (isub < nsubint ar)%nat ->
  fst (clean_subint rng norm_rvs fsqrt ar isub bins g) <> Err IndexError.
Proof.
  intros Hh Hl Hi. destruct (get_hot_bins_valid _ _ _ _ _ _ _ _ Hh) as [_ Hb].
  unfold clean_subint, bin_mask. rewrite <- Hl.
  rewrite (proj2 (forallb_forall _ _)).
  2: { intros x Hx. apply Nat.ltb_lt. rewrite Forall_forall in Hb. auto. }
  destruct (nsubint ar <=? isub)%nat eqn:E; [apply Nat.leb_le in E; lia|].
  match goal with
  | |- fst (fold_left ?F ?l ?s0) <> _ =>
      assert (Hgen : forall cps st0, fst st0 <> Err IndexError ->
                       fst (fold_left F cps st0) <> Err IndexError);
      [|apply Hgen; discriminate]
  end.
  induction cps as [|[ichan ipol] t IH]; intros [r [a g0]] H; simpl; [exact H|].
  apply IH. destruct r as [u|e]; simpl; [|exact H].
  match goal with
  | |- fst (match ?m with _ => _ end) <> _ => destruct m as [[pr'|e'] g1] eqn:Ec
  end; simpl; [discriminate|].
  apply clean_profile_err in Ec. subst e'. discriminate.
Qed.

Lemma get_hot_bins_then_clean_subint_no_index_error_witness :
  fst (get_hot_bins (fun l => Qnat (length l)) (fun _ => 0) 4 None true [1;2;3;4;5])
    = Ok (HotBins [3;4]%nat 0) /\
  length ([1;2;3;4;5] : list Q) = nbin (Archive 1 1 1 5 (fun _ _ _ => Prof 1 [1;2;3;4;5])) /\
  Nat.lt 0 (nsubint (Archive 1 1 1 5 (fun _ _ _ => Prof 1 [1;2;3;4;5]))) /\
  fst (clean_subint unit (fun g m _ k => (repeat m k, g)) (fun x => x)
         (Archive 1 1 1 5 (fun _ _ _ => Prof 1 [1;2;3;4;5])) 0 [3;4]%nat tt)
    <> Err IndexError.
Proof.
  assert (H : fst (get_hot_bins (fun l => Qnat (length l)) (fun _ => 0) 4 None true [1;2;3;4;5])
                = Ok (HotBins [3;4]%nat 0)) by (vm_compute; reflexivity).
  split; [exact H|]. split; [reflexivity|]. split; [simpl; lia|].
  apply (get_hot_bins_then_clean_subint_no_index_error (fun l => Qnat (length l)) (fun _ => 0)
           4 None true unit (fun g m _ k => (repeat m k, g)) (fun x => x)
           (Archive 1 1 1 5 (fun _ _ _ => Prof 1 [1;2;3;4;5])) 0 [1;2;3;4;5] [3;4]%nat 0 tt H);
    [reflexivity | simpl; lia].
Defined.

(** * Outlier masking, [detrend] and [iterative_detrend] *)

Lemma Qltb_Qeq (a a' b b' : Q) : a == a' -> b == b' -> Qltb a b = Qltb a' b'.
Proof.
  intros Ha Hb. unfold Qltb.
  destruct (Qle_bool b a) eqn:E1, (Qle_bool b' a') eqn:E2; try reflexivity.
  - apply Qle_bool_iff in E1. rewrite Ha, Hb in E1. apply Qle_bool_iff in E1. congruence.
  - apply Qle_bool_iff in E2. rewrite <- Ha, <- Hb in E2. apply Qle_bool_iff in E2. congruence.
Qed.

Lemma Qltb_aff (k c : Q) (Hk : 0 < k) (x y : Q) : Qltb (aff k c x) (aff k c y) = Qltb x y.
Proof. unfold Qltb. now rewrite (aff_le_bool k c Hk). Qed.

Lemma unmasked_aff (k c : Q) (d : list mq) :
  unmasked (map (fun e => MQ (aff k c (mval e)) (mmask e)) d) = map (aff k c) (unmasked d).
Proof.
  unfold unmasked. induction d as [|e t IH]; simpl; [reflexivity|].
  destruct (mmask e); simpl; [exact IH|]. f_equal. exact IH.
Qed.

(** The outlier masking of [iterative_detrend] ([median +- thresh*mad]
    of the unmasked values) masks the same positions after any
    increasing affine change of the values ([k > 0]): a change of unit
    or of zero level of the data does not change which points are
    outliers. *)
Theorem mask_outliers_affine_invariant (thresh k c : Q) (d : list mq) :
  0 < k ->
  masks (mask_outliers thresh (map (fun e => MQ (aff k c (mval e)) (mmask e)) d))
  = masks (mask_outliers thresh d).
Proof.
  intros Hk. unfold mask_outliers, masks. rewrite !map_map.
  set (d' := map (fun e => MQ (aff k c (mval e)) (mmask e)) d).
  apply map_ext_in. intros e He. cbn [mmask mval].
  destruct (mmask e) eqn:Em; [reflexivity|]. cbn [orb].
  assert (Hne : unmasked d <> []).
  { unfold unmasked. intros H. apply map_eq_nil in H.
    assert (Hin : In e (filter (fun e => negb (mmask e)) d))
      by (apply filter_In; split; [exact He | rewrite Em; reflexivity]).
    rewrite H in Hin. contradiction. }
  assert (Hmed : ma_median d' == k * ma_median d + c).
  { unfold ma_median, d'. rewrite unmasked_aff. apply median_list_aff; assumption. }
  assert (Hmad : ma_mad d' == k * ma_mad d).
  { unfold ma_mad. fold (ma_median d'). unfold d' at 2. rewrite unmasked_aff.
    apply mad_aff; assumption. }
  rewrite (Qltb_Qeq (aff k c (mval e)) (aff k c (mval e))
             (ma_median d' - thresh * ma_mad d') (aff k c (ma_median d - thresh * ma_mad d)))
    by (try reflexivity; unfold aff; rewrite Hmed, Hmad; ring).
  rewrite (Qltb_Qeq (ma_median d' + thresh * ma_mad d') (aff k c (ma_median d + thresh * ma_mad d))
             (aff k c (mval e)) (aff k c (mval e)))
    by (try reflexivity; unfold aff; rewrite Hmed, Hmad; ring).
  rewrite !Qltb_aff by exact Hk. reflexivity.
Qed.

Lemma mask_outliers_affine_invariant_witness :
  Qlt 0 2 /\
  masks (mask_outliers 5 (map (fun e => MQ (aff 2 7 (mval e)) (mmask e))
                            [MQ 0 false; MQ 1 false; MQ 0 false; MQ 40 false; MQ 3 true]))
  = masks (mask_outliers 5 [MQ 0 false; MQ 1 false; MQ 0 false; MQ 40 false; MQ 3 true]).
Proof.
  split; [reflexivity|].
  apply mask_outliers_affine_invariant. reflexivity.
Defined.

Lemma mask_incl_refl (m : list bool) : mask_incl m m.
Proof. induction m; constructor; auto. Qed.

Lemma mask_incl_trans (a b c : list bool) : mask_incl a b -> mask_incl b c -> mask_incl a c.
Proof.
  unfold mask_incl. intros H1. revert c. induction H1 as [|x y l l' Hxy _ IH]; intros c H2;
    inversion H2; subst; constructor; auto.
Qed.

Lemma itd_loop_incl thresh order bp np fuel (ym r : list mq) :
  itd_loop thresh order bp np fuel ym = Ok r -> mask_incl (masks ym) (masks r).
Proof.
  revert ym. induction fuel as [|f IH]; intros ym H; simpl in H.
  - injection H; intros <-. apply mask_incl_refl.
  - destruct (Nat.eqb (count ym) 0); [injection H; intros <-; apply mask_incl_refl|].
    destruct (itd_step thresh order bp np ym) as [d|e] eqn:E; simpl in H; [|discriminate].
    apply itd_step_incl in E.
    destruct (list_eq_dec bool_dec _ _).
    + injection H; intros <-. exact E.
    + exact (mask_incl_trans _ _ _ E (IH d H)).
Qed.

(** With [reset_mask=False], [iterative_detrend] returns a series of the
    input's length whose mask contains the input mask: every point masked
    on input is still masked, and the outliers found stay masked. *)
Theorem iterative_detrend_no_reset_keeps_mask (thresh : Q) (order : nat) (bp : list nat)
    (np : option nat) (ys r : list mq) :
  iterative_detrend_gen thresh order bp np false ys = Ok r ->
  mask_incl (masks ys) (masks r) /\ length r = length ys.
Proof.
  unfold iterative_detrend_gen.
  destruct (Nat.eqb (count ys) 0).
  - intros H; injection H; intros <-. split; [apply mask_incl_refl | reflexivity].
  - destruct (itd_loop thresh order bp np (S (length ys)) ys) as [r0|e] eqn:E;
      simpl; [|discriminate].
    intros H; injection H; intros <-. split.
    + exact (itd_loop_incl _ _ _ _ _ _ _ E).
    + exact (itd_loop_length _ _ _ _ _ _ _ E).
Qed.

Lemma iterative_detrend_no_reset_keeps_mask_witness :
  exists r,
    iterative_detrend_gen 5 0 [] None false (plain [0;0;0;0;100]) = Ok r /\
    mask_incl (masks (plain [0;0;0;0;100])) (masks r) /\ length r = length (plain [0;0;0;0;100]).
Proof.
  destruct (iterative_detrend_gen 5 0 [] None false (plain [0;0;0;0;100])) as [r|e] eqn:E;
    [|vm_compute in E; discriminate].
  exists r. split; [reflexivity|].
  exact (iterative_detrend_no_reset_keeps_mask 5 0 [] None (plain [0;0;0;0;100]) r E).
Defined.

(** [detrend] keeps the shape and the mask of its input: only data
    values change. *)
Theorem detrend_keeps_mask_and_length (ys : list mq) (order : nat) (bp : list nat)
    (np : option nat) (d : list mq) :
  detrend ys order bp np = Ok d -> masks d = masks ys /\ length d = length ys.
Proof.
  intros H. split; [exact (detrend_masks _ _ _ _ _ H) | exact (detrend_length _ _ _ _ _ H)].
Qed.

Lemma detrend_keeps_mask_and_length_witness :
  exists d,
    detrend [MQ 1 false; MQ 5 true; MQ 3 false; MQ 4 false] 1 [2%nat] None = Ok d /\
    masks d = masks [MQ 1 false; MQ 5 true; MQ 3 false; MQ 4 false] /\
    length d = length [MQ 1 false; MQ 5 true; MQ 3 false; MQ 4 false].
Proof.
  destruct (detrend [MQ 1 false; MQ 5 true; MQ 3 false; MQ 4 false] 1 [2%nat] None) as [d|e] eqn:E;
    [|vm_compute in E; discriminate].
  exists d. split; [reflexivity|].
  exact (detrend_keeps_mask_and_length _ 1 [2%nat] None d E).
Defined.

Lemma round_div_le (k n p : nat) : (k <= p)%nat -> (round_div (k * n) p <= n)%nat.
Proof.
  intros Hkp. destruct p as [|p].
  - assert (k = 0%nat) by lia. subst k.
    replace (round_div (0 * n) 0) with 0%nat by reflexivity. lia.
  - unfold round_div.
    set (P := S p) in *.
    set (q := (k * n / P)%nat). set (r := ((k * n) mod P)%nat).
    assert (Hd : (k * n = P * q + r)%nat) by (apply Nat.div_mod; unfold P; lia).
    assert (Hr : (r < P)%nat) by (apply Nat.mod_upper_bound; unfold P; lia).
    assert (Hkn : (k * n <= P * n)%nat) by (apply Nat.mul_le_mono_r; exact Hkp).
    assert (Hq : (q <= n)%nat) by nia.
    destruct (2 * r <? P)%nat eqn:E1; [exact Hq|].
    apply Nat.ltb_ge in E1.
    assert (Hq' : (q < n)%nat) by nia.
    destruct (P <? 2 * r)%nat; [lia|]. destruct (Nat.even q); lia.
Qed.

Lemma edges_numpieces_le (n : nat) (bp : list nat) (p e : nat) :
  In e (edges_of n bp (Some p)) -> (e <= n)%nat.
Proof.
  unfold edges_of. intros H. apply in_map_iff in H. destruct H as (k & <- & Hk).
  apply in_seq in Hk. apply round_div_le. lia.
Qed.

Lemma In_tl {A : Type} (x : A) (l : list A) : In x (tl l) -> In x l.
Proof. destruct l; simpl; [contradiction | now right]. Qed.

Lemma detrend_fold_ok (ys : list mq) (order : nat) (segs : list (nat * nat)) :
  (forall seg, In seg segs -> (snd seg <= length ys)%nat) ->
  forall d0, exists d,
    fold_left (fun acc seg => d <- acc ;; detrend_segment ys order d seg) segs (Ok d0) = Ok d.
Proof.
  induction segs as [|[start stop] t IH]; intros Hs d0; simpl; [eexists; reflexivity|].
  unfold detrend_segment at 1.
  destruct (Nat.eqb _ 0); [apply IH; intros sg Hsg; apply Hs; now right|].
  destruct (length ys <? stop)%nat eqn:E.
  - apply Nat.ltb_lt in E. specialize (Hs (start, stop) (or_introl eq_refl)). simpl in Hs. lia.
  - apply IH. intros sg Hsg. apply Hs. now right.
Qed.

Lemma detrend_edges_ok (ys : list mq) (order : nat) (bp : list nat) (np : option nat) :
  (forall e, In e (edges_of (length ys) bp np) -> (e <= length ys)%nat) ->
  exists d, detrend ys order bp np = Ok d.
Proof.
  intros He. unfold detrend. apply detrend_fold_ok.
  intros [a b] H. apply in_combine_r, In_tl in H. simpl. apply He. exact H.
Qed.

(** With [numpieces] given, the edges [np.round(np.linspace(0, len, numpieces+1))]
    all lie within the series, so [detrend] never raises, whatever the
    data, the order and the number of pieces. *)
Theorem detrend_numpieces_never_raises (ys : list mq) (order : nat) (bp : list nat) (p : nat) :
  exists d, detrend ys order bp (Some p) = Ok d.
Proof.
  apply detrend_edges_ok. intros e. apply edges_numpieces_le.
Qed.

(** With explicit breakpoints that all lie within the series, [detrend]
    never raises. *)
Theorem detrend_breakpoints_in_range_never_raise (ys : list mq) (order : nat) (bp : list nat) :
  Forall (fun b => (b <= length ys)%nat) bp ->
  exists d, detrend ys order bp None = Ok d.
Proof.
  intros Hb. apply detrend_edges_ok. simpl. intros e [<- | He]; [lia|].
  apply in_app_or in He. destruct He as [He | [<- | []]]; [|lia].
  rewrite Forall_forall in Hb. auto.
Qed.

Lemma detrend_breakpoints_in_range_never_raise_witness :
  Forall (fun b => Nat.le b (length (plain [1;2;3;4;5]))) [2;3]%nat /\
  exists d, detrend (plain [1;2;3;4;5]) 1 [2;3]%nat None = Ok d.
Proof.
  assert (H : Forall (fun b => Nat.le b (length (plain [1;2;3;4;5]))) [2;3]%nat)
    by (repeat constructor; simpl; lia).
  split; [exact H|]. exact (detrend_breakpoints_in_range_never_raise _ 1 _ H).
Defined.

Lemma detrend_fold_err (ys : list mq) (order : nat) (segs : list (nat * nat)) (e : pyexc) :
  fold_left (fun acc seg => d <- acc ;; detrend_segment ys order d seg) segs (Err e) = Err e.
Proof. induction segs; simpl; auto. Qed.

(** A first breakpoint past the end of a series with an unmasked point
    makes [detrend] raise [ValueError]: the first segment holds every
    unmasked point, and the reshape of its [xdata] slice fails. *)
Theorem detrend_breakpoint_past_end_raises (ys : list mq) (order : nat) (b : nat) (bp : list nat) :
  (length ys < b)%nat -> (0 < count ys)%nat ->
  detrend ys order (b :: bp) None = Err ValueError.
Proof.
  intros Hb Hc. unfold detrend. simpl.
  unfold detrend_segment at 1.
  assert (Hl : length (seg_points ys 0 b) = count ys).
  { unfold count. rewrite <- (seg_points_all_gen ys 0 b) by lia.
    unfold seg_points, enum. rewrite !length_map. reflexivity. }
  rewrite Hl. destruct (Nat.eqb (count ys) 0) eqn:E; [apply Nat.eqb_eq in E; lia|].
  replace (length ys <? b)%nat with true by (symmetry; apply Nat.ltb_lt; exact Hb).
  apply detrend_fold_err.
Qed.

Lemma detrend_breakpoint_past_end_raises_witness :
  Nat.lt (length (plain [1;2;3])) 7 /\ Nat.lt 0 (count (plain [1;2;3])) /\
  detrend (plain [1;2;3]) 1 [7%nat] None = Err ValueError.
Proof.
  split; [simpl; lia|]. split; [vm_compute; lia|].
  apply detrend_breakpoint_past_end_raises; [simpl; lia | vm_compute; lia].
Defined.

(** * [subint_scaler] *)

(** [subint_scaler] restarts every [iterative_detrend] call of its loop
    from the raw row: when it succeeds, its output is the output of the
    last configuration of the chain alone. *)
Theorem subint_scaler_uses_last_config (chain : list detrend_cfg) (c : detrend_cfg)
    (m out : list (list Q)) :
  subint_scaler (chain ++ [c]) m = Ok out -> subint_scaler [c] m = Ok out.
Proof.
  unfold subint_scaler. revert out.
  induction m as [|row t IH]; intros out H; simpl in *; [exact H|].
  rewrite subint_chain_snoc in H.
  destruct (subint_chain chain (plain row)) as [s|e]; simpl in H; [|discriminate].
  unfold subint_chain at 1. simpl.
  destruct (itd_cfg c (plain row)) as [d|e]; simpl in H |- *; [|discriminate].
  destruct (mapM _ t) as [ys|e] eqn:Et; simpl in H; [|discriminate].
  rewrite (IH ys eq_refl). exact H.
Qed.

Lemma subint_scaler_uses_last_config_witness :
  exists out,
    subint_scaler [DCfg 1 [] None; DCfg 0 [] None] [[0;1;2;3;4;6]] = Ok out /\
    subint_scaler [DCfg 0 [] None] [[0;1;2;3;4;6]] = Ok out.
Proof.
  destruct (subint_scaler [DCfg 1 [] None; DCfg 0 [] None] [[0;1;2;3;4;6]]) as [out|e] eqn:E;
    [|vm_compute in E; discriminate].
  exists out. split; [reflexivity|].
  exact (subint_scaler_uses_last_config [DCfg 1 [] None] (DCfg 0 [] None) _ out E).
Defined.

(** * numpy's division by a zero MAD *)

Lemma median_list_single (y : Q) : median_list [y] = y.
Proof. reflexivity. Qed.

Lemma Qeq_bool_true (a b : Q) : a == b -> Qeq_bool a b = true.
Proof. intros H. now apply Qeq_bool_iff. Qed.

(** A slice of one value has MAD 0: the plain float division gives
    [0/0 = nan]. *)
Lemma scale_slice_fl_single (y : Q) : scale_slice_fl (plain [y]) = [NaN].
Proof.
  unfold scale_slice_fl, ma_mad, ma_median. rewrite unmasked_plain, median_list_single.
  cbn [map plain mval]. rewrite median_list_single.
  unfold fdiv.
  assert (E : y - y == 0) by ring.
  rewrite (Qeq_bool_true (Qabs (y - y)) 0) by (rewrite E; reflexivity).
  now rewrite (Qeq_bool_true (y - y) 0 E).
Qed.

Lemma insertQ_repeat (c : Q) (k : nat) : insertQ c (repeat c k) = repeat c (S k).
Proof.
  destruct k as [|k]; simpl; [reflexivity|].
  replace (Qle_bool c c) with true by (symmetry; apply Qle_bool_iff, Qle_refl).
  reflexivity.
Qed.

Lemma sortQ_repeat (c : Q) (k : nat) : sortQ (repeat c k) = repeat c k.
Proof.
  induction k as [|k IH]; [reflexivity|].
  unfold sortQ in *. simpl. rewrite IH. apply insertQ_repeat.
Qed.

Lemma nth_repeat_lt {A : Type} (c d : A) (k i : nat) :
  (i < k)%nat -> nth i (repeat c k) d = c.
Proof.
  intros H. rewrite (nth_indep _ d c) by (rewrite repeat_length; exact H).
  apply nth_repeat.
Qed.

(** The median of a non-empty list of values all equal to [c] is [c]. *)
Lemma median_list_const (l : list Q) (c : Q) :
  l <> [] -> Forall (fun v => v == c) l -> median_list l == c.
Proof.
  intros Hne H.
  rewrite (median_list_Qeq l (repeat c (length l))).
  - unfold median_list. rewrite sortQ_repeat, repeat_length.
    destruct (length l) as [|k] eqn:Ek; [destruct l; [contradiction|discriminate]|].
    pose proof (Nat.div_mod (S k) 2 ltac:(lia)) as Hd.
    pose proof (Nat.mod_upper_bound (S k) 2 ltac:(lia)) as Hb.
    destruct (Nat.even (S k)).
    + rewrite !nth_repeat_lt by lia. field.
    + rewrite nth_repeat_lt by lia. reflexivity.
  - induction H as [|x t Hx _ IH]; simpl; constructor; [exact Hx|].
    destruct t as [|y t']; [constructor|]. apply IH. discriminate.
Qed.

Lemma subint_chain_nil (s : list mq) : subint_chain [] s = Ok s.
Proof. reflexivity. Qed.

Lemma channel_chain_nil (s : list mq) : channel_chain [] s = Ok s.
Proof. reflexivity. Qed.

(** C5: a row of a plain array whose values are all equal has MAD 0, and
    [subint_scaler] (no detrending) scales it to [nan] at every position:
    [(value - median) / mad] is [0/0]. *)
Theorem subint_scaler_constant_row_nan (m : list (list Q)) (isub : nat)
    (row : list Q) (c : Q) :
  nth_error m isub = Some row -> row <> [] -> Forall (fun v => v == c) row ->
  exists rows, subint_scaler_np false [] m = Ok (Plain2 rows) /\
               nth_error rows isub = Some (repeat NaN (length row)).
Proof.
  intros Hr Hne Hc.
  exists (map (fun r => scale_slice_fl (plain r)) m). split.
  - unfold subint_scaler_np.
    rewrite (mapM_all_ok _ (fun r => scale_slice_fl (plain r)) m); [reflexivity|].
    intros r _. reflexivity.
  - rewrite nth_error_map, Hr. simpl. f_equal.
    unfold scale_slice_fl, ma_mad, ma_median. rewrite unmasked_plain.
    set (med := median_list row).
    assert (Hmed : med == c) by (now apply median_list_const).
    assert (Hmad : median_list (map (fun v => Qabs (v - med)) row) == 0).
    { apply median_list_const.
      - destruct row; [contradiction|discriminate].
      - apply Forall_map. eapply Forall_impl; [|exact Hc]. intros v Hv. cbv beta.
        rewrite Hv, Hmed. setoid_replace (c - c) with 0 by ring. reflexivity. }
    unfold plain. rewrite map_map, <- (map_const NaN row).
    apply map_ext_in. intros v Hv. cbn [mval]. unfold fdiv.
    rewrite (Qeq_bool_true _ _ Hmad).
    rewrite (Qeq_bool_true (v - med) 0); [reflexivity|].
    rewrite Forall_forall in Hc. rewrite (Hc v Hv), Hmed. ring.
Qed.

Lemma subint_scaler_constant_row_nan_witness :
  (nth_error [[2; 2; 2]] 0 = Some [2; 2; 2] /\ [2; 2; 2] <> [] /\
   Forall (fun v => v == 2) [2; 2; 2]) /\
  exists rows, subint_scaler_np false [] [[2; 2; 2]] = Ok (Plain2 rows) /\
               nth_error rows 0 = Some (repeat NaN (length [2; 2; 2])).
Proof.
  split.
  - split; [reflexivity|split; [discriminate|]].
    repeat constructor.
  - apply (subint_scaler_constant_row_nan [[2; 2; 2]] 0 [2; 2; 2] 2);
      [reflexivity|discriminate|repeat constructor].
Defined.

(** Shapes of the scaled arrays: the lengths of their rows. *)
Lemma of_columns_with_shape {A : Type} (d : A) (n : nat) (cols : list (list A)) :
  map (@length A) (of_columns_with d n cols) = repeat (length cols) n.
Proof.
  unfold of_columns_with. rewrite map_map.
  rewrite (map_ext _ (fun _ => length cols)) by (intros; apply length_map).
  now rewrite map_const, length_seq.
Qed.

Lemma channel_scaler_np_nil_shape (is_ma : bool) (D : list (list Q)) :
  exists A, channel_scaler_np is_ma [] D = Ok A /\
            map (@length npf) (arr_data A) = repeat (length (hd [] D)) (length D).
Proof.
  unfold channel_scaler_np. destruct is_ma.
  - rewrite (mapM_all_ok _ (fun ichan => scale_slice_ma (plain (column D ichan)))
                         (seq 0 (length (hd [] D)))) by (intros; reflexivity).
    eexists. split; [reflexivity|]. cbn [arr_data]. rewrite map_map.
    rewrite (map_ext _ (@length mq)) by (intros; apply length_map).
    now rewrite of_columns_with_shape, length_map, length_seq.
  - rewrite (mapM_all_ok _ (fun ichan => scaled_plain [] (plain (column D ichan)))
                         (seq 0 (length (hd [] D)))) by (intros; reflexivity).
    eexists. split; [reflexivity|]. cbn [arr_data].
    now rewrite of_columns_with_shape, length_map, length_seq.
Qed.

Lemma subint_scaler_np_nil_shape (is_ma : bool) (D : list (list Q)) :
  exists A, subint_scaler_np is_ma [] D = Ok A /\
            map (@length npf) (arr_data A) = map (@length Q) D.
Proof.
  unfold subint_scaler_np. destruct is_ma.
  - rewrite (mapM_all_ok _ (fun row => scale_slice_ma (plain row)) D) by (intros; reflexivity).
    eexists. split; [reflexivity|]. cbn [arr_data]. rewrite !map_map.
    apply map_ext. intros r. unfold scale_slice_ma, plain. now rewrite !length_map.
  - rewrite (mapM_all_ok _ (fun row => scaled_plain [] (plain row)) D) by (intros; reflexivity).
    eexists. split; [reflexivity|]. cbn [arr_data]. rewrite map_map.
    apply map_ext. intros r. cbn [scaled_plain]. unfold scale_slice_fl, plain.
    now rewrite !length_map.
Qed.

Lemma abs_div_thresh_shape (t : Q) (A : arr2) :
  map (@length npf) (arr_data (abs_div_thresh t A)) = map (@length npf) (arr_data A).
Proof.
  destruct A as [rows|rows]; cbn [abs_div_thresh arr_data]; rewrite !map_map;
    apply map_ext; intros r; now rewrite !length_map.
Qed.

Lemma zipw_fmax_shape :
  forall (X Y : list (list npf)), map (@length npf) X = map (@length npf) Y ->
  map (@length npf) (zipw (zipw fmax) X Y) = map (@length npf) X.
Proof.
  induction X as [|x X IH]; intros [|y Y] H; simpl in *; try discriminate; [reflexivity|].
  injection H as H1 H2. f_equal; [rewrite zipw_length_same; congruence|now apply IH].
Qed.

(** [np.maximum] with [nan] is [nan]. *)
Lemma zipw_fmax_nan :
  forall (X : list (list npf)) (n : nat), map (@length npf) X = repeat 1%nat n ->
  zipw (zipw fmax) X (repeat [NaN] n) = repeat [NaN] n.
Proof.
  induction X as [|x X IH]; intros [|n] H; simpl in *; try discriminate; [reflexivity|].
  injection H as H1 H2. destruct x as [|a [|b x']]; simpl in H1; try discriminate.
  simpl. rewrite IH by exact H2. destruct a; reflexivity.
Qed.

(** The plain diagnostic of a one-channel cube: every row is one value,
    scaled to [nan]. *)
Lemma subint_scaler_np_single_rows (D : list (list Q)) :
  Forall (fun r => length r = 1%nat) D ->
  subint_scaler_np false [] D = Ok (Plain2 (repeat [NaN] (length D))).
Proof.
  intros H. unfold subint_scaler_np.
  rewrite (mapM_all_ok _ (fun _ => [NaN]) D); [now rewrite map_const|].
  intros r Hr. rewrite Forall_forall in H. specialize (H r Hr).
  destruct r as [|y [|z r]]; try discriminate.
  rewrite subint_chain_nil. cbn [bind scaled_plain].
  now rewrite scale_slice_fl_single.
Qed.

Lemma abs_div_thresh_nan (t : Q) (n : nat) :
  abs_div_thresh t (Plain2 (repeat [NaN] n)) = Plain2 (repeat [NaN] n).
Proof. cbn [abs_div_thresh]. f_equal. now rewrite map_repeat. Qed.

Lemma diag_single (f : list Q -> Q) (data : list (list (list Q))) :
  Forall (fun sub => length sub = 1%nat) data ->
  Forall (fun r => length r = 1%nat) (diag_matrix f data).
Proof.
  intros H. unfold diag_matrix. apply Forall_map. eapply Forall_impl; [|exact H].
  intros r Hr. now rewrite length_map.
Qed.

Lemma repeat_hd_shape (D : list (list Q)) :
  Forall (fun r => length r = 1%nat) D ->
  repeat (length (hd [] D)) (length D) = repeat 1%nat (length D) /\
  map (@length Q) D = repeat 1%nat (length D).
Proof.
  intros H. split.
  - destruct D as [|r D]; [reflexivity|]. inversion H as [|? ? Hr _]; subst.
    simpl. now rewrite Hr.
  - induction H as [|r D Hr _ IH]; simpl; [reflexivity|]. now rewrite Hr, IH.
Qed.

Lemma combined_single_shape (is_ma : bool) (D : list (list Q)) (t1 t2 : Q) :
  Forall (fun r => length r = 1%nat) D ->
  exists M, (chan_scaled <- channel_scaler_np is_ma [] D ;;
             subint_scaled <- subint_scaler_np is_ma [] D ;;
             Ok (np_max2 (abs_div_thresh t1 chan_scaled) (abs_div_thresh t2 subint_scaled)))
            = Ok M /\
            map (@length npf) M = repeat 1%nat (length D).
Proof.
  intros H. destruct (repeat_hd_shape D H) as [Hh Hm].
  destruct (channel_scaler_np_nil_shape is_ma D) as [A [EA SA]].
  destruct (subint_scaler_np_nil_shape is_ma D) as [B [EB SB]].
  rewrite EA, EB. cbn [bind]. eexists. split; [reflexivity|].
  unfold np_max2. rewrite zipw_fmax_shape.
  - rewrite abs_div_thresh_shape, SA. exact Hh.
  - rewrite !abs_div_thresh_shape, SA, SB, Hh. symmetry. exact Hm.
Qed.

Lemma combined_fft_nan (D : list (list Q)) (t1 t2 : Q) :
  Forall (fun r => length r = 1%nat) D ->
  (chan_scaled <- channel_scaler_np false [] D ;;
   subint_scaled <- subint_scaler_np false [] D ;;
   Ok (np_max2 (abs_div_thresh t1 chan_scaled) (abs_div_thresh t2 subint_scaled)))
  = Ok (repeat [NaN] (length D)).
Proof.
  intros H. destruct (repeat_hd_shape D H) as [Hh Hm].
  destruct (channel_scaler_np_nil_shape false D) as [A [EA SA]].
  rewrite EA, (subint_scaler_np_single_rows D H). cbn [bind].
  rewrite abs_div_thresh_nan. unfold np_max2. cbn [arr_data]. f_equal.
  apply zipw_fmax_nan. rewrite abs_div_thresh_shape, SA. exact Hh.
Qed.

(** [np.median] across the four diagnostics is [nan] wherever one of them
    is. *)
Lemma median_stack_f_nan (M1 M2 M3 : list (list npf)) (n : nat) :
  map (@length npf) M1 = repeat 1%nat n ->
  median_stack_f [M1; M2; M3; repeat [NaN] n] = repeat [NaN] n.
Proof.
  intros H. unfold median_stack_f. cbn [hd].
  assert (Hl : length M1 = n)
    by (rewrite <- (length_map (@length npf) M1), H; apply repeat_length).
  transitivity (map (fun _ => [NaN]) (enum M1)).
  - apply map_ext_in. intros [i r] Hir. unfold enum in Hir.
    pose proof (in_combine_l _ _ _ _ Hir) as Hi. apply in_seq in Hi.
    pose proof (in_combine_r _ _ _ _ Hir) as Hr.
    assert (Hr1 : length r = 1%nat).
    { apply (in_map (@length npf)) in Hr. rewrite H in Hr. now apply repeat_spec in Hr. }
    destruct r as [|x [|y r]]; try discriminate.
    cbn [fst snd]. unfold enum. cbn [length seq combine map fst].
    rewrite (nth_repeat_lt [NaN] [] n i) by lia.
    unfold np_median_f. cbn [nth existsb is_nan orb]. now rewrite !orb_true_r.
  - rewrite map_const. unfold enum. now rewrite length_combine, length_seq, Nat.min_id, Hl.
Qed.

Lemma mapM_exists {A B : Type} (f : A -> res B) :
  forall (L : list A), (forall x, In x L -> exists y, f x = Ok y) ->
  exists ys, mapM f L = Ok ys.
Proof.
  induction L as [|x L IH]; intros H; simpl; [now exists []|].
  destruct (H x (or_introl eq_refl)) as [y Ey]. rewrite Ey. cbn [bind].
  destruct IH as [ys Eys]; [intros z Hz; apply H; now right|].
  rewrite Eys. now exists (y :: ys).
Qed.

(** C2: [comprehensive_stats] does not compute the spec's combination of
    scaled diagnostics on every cube.  On a cube with one channel per
    sub-integration and no detrending along the sub-integrations, each row
    of the plain [rfft] diagnostic has one value, its MAD is 0, and
    [subint_scaler] divides [0/0]: that diagnostic is [nan] in every cell,
    [np.maximum] keeps the [nan], and [np.median] of the four diagnostics
    is [nan] in every cell.  The spec's aggregation returns numbers there. *)
Theorem comprehensive_stats_one_channel_nan (fsqrt : Q -> Q) (tw_cos tw_sin : nat -> nat -> Q)
    (data : list (list (list Q))) (chanthresh subintthresh : Q) :
  has_empty_slice data = false ->
  Forall (fun sub => length sub = 1%nat) data ->
  comprehensive_stats fsqrt tw_cos tw_sin data chanthresh subintthresh [] []
    = Ok (repeat [NaN] (length data)) /\
  exists r, comprehensive_stats_spec fsqrt tw_cos tw_sin data chanthresh subintthresh [] []
            = Ok r.
Proof.
  intros He H1. split.
  - unfold comprehensive_stats. rewrite He.
    cbn [diagnostic_functions diagnostic_is_ma map combine mapM fst snd].
    destruct (combined_single_shape true (diag_matrix (np_std fsqrt) data) chanthresh subintthresh
                (diag_single _ _ H1)) as [M1 [E1 S1]].
    destruct (combined_single_shape true (diag_matrix qmean data) chanthresh subintthresh
                (diag_single _ _ H1)) as [M2 [E2 S2]].
    destruct (combined_single_shape true (diag_matrix np_ptp data) chanthresh subintthresh
                (diag_single _ _ H1)) as [M3 [E3 S3]].
    rewrite E1, E2, E3, (combined_fft_nan _ chanthresh subintthresh (diag_single _ _ H1)).
    cbn [bind]. f_equal. unfold diag_matrix in *. rewrite length_map in *.
    now apply median_stack_f_nan.
  - unfold comprehensive_stats_spec. rewrite He.
    match goal with
    | |- context [mapM ?F ?L] => destruct (mapM_exists F L) as [ys Ey]
    end.
    + intros f _. cbv beta zeta. unfold channel_scaler, subint_scaler.
      rewrite (mapM_all_ok _ (fun ichan => scale_slice (plain (column (diag_matrix f data) ichan))))
        by (intros; reflexivity).
      rewrite (mapM_all_ok _ (fun row => scale_slice (plain row)) (diag_matrix f data))
        by (intros; reflexivity).
      cbn [bind]. eexists. reflexivity.
    + rewrite Ey. cbn [bind]. eexists. reflexivity.
Qed.

Lemma comprehensive_stats_one_channel_nan_witness :
  let data := [[[1; 1]]; [[1; 1]]; [[4; 6]]] in
  (has_empty_slice data = false /\ Forall (fun sub => length sub = 1%nat) data) /\
  (comprehensive_stats (fun x => x) (fun n m => if Nat.eqb m 0 then 1 else -1) (fun _ _ => 0)
     data 5 5 [] [] = Ok (repeat [NaN] (length data)) /\
   exists r, comprehensive_stats_spec (fun x => x) (fun n m => if Nat.eqb m 0 then 1 else -1)
               (fun _ _ => 0) data 5 5 [] [] = Ok r).
Proof.
  cbv zeta. split.
  - split; [reflexivity|repeat constructor].
  - apply comprehensive_stats_one_channel_nan; [reflexivity|repeat constructor].
Defined.
